(** * TeraFetch: segmented download engine, resume metadata and rate limiter

    A shallow embedding of the core of the TeraFetch downloader (Go) and the
    properties of its segment planner, worker pool, download coordinator,
    resume metadata store, HTTP retry loop, token-bucket limiter,
    application configuration and error taxonomy.

    Conventions.
    - Go's [int64] and [int] (64-bit) are integers in [Z]; every arithmetic
      operation of the source is followed by its two's-complement wrap-around
      [wrap64].  Division is Go's truncating division, [Z.quot].
    - Go's [float64] is the primitive binary64 float; conversions between
      integers and floats are written out ([float64_of_int],
      [int64_of_float64]).
    - A Go pointer that may be [nil] is an [option].
    - A Go [error] is a value of type [error]; [None] stands for [nil].
    - A Go [string] is a sequence of bytes, a [string] here with one
      character per byte; it need not be well-formed UTF-8. *)

From Stdlib Require Import ZArith List Bool Lia String Ascii DecimalString.
From Stdlib Require Import PrimFloat.
From Stdlib Require FloatOps SpecFloat FloatAxioms.
From stdpp Require Import base option list strings gmap.
Import ListNotations.

Local Open Scope string_scope.
Local Open Scope list_scope.
Local Open Scope Z_scope.

(** * Part I: the program *)

(** ** Machine integers *)

Definition min_int64 : Z := - 2 ^ 63.
Definition max_int64 : Z := 2 ^ 63 - 1.

Definition wrap64 (z : Z) : Z := (z + 2 ^ 63) mod 2 ^ 64 - 2 ^ 63.

Definition in_int64 (z : Z) : Prop := min_int64 <= z <= max_int64.

Definition add64 (a b : Z) : Z := wrap64 (a + b).
Definition sub64 (a b : Z) : Z := wrap64 (a - b).
Definition mul64 (a b : Z) : Z := wrap64 (a * b).
Definition quot64 (a b : Z) : Z := wrap64 (Z.quot a b).

(** ** Data model (internal/types.go) *)

(** [time.Time] is an instant, counted in nanoseconds since the Unix epoch. *)
Definition Time : Type := Z.

Record FileMetadata : Type := mkFileMetadata {
  Filename : string;
  Size : Z;
  DirectURL : string;
  ShareID : string;
  Timestamp : Time;
  Checksum : string
}.

(** The field [End] of the source is spelled [End_]: [End] is reserved. *)
Record SegmentInfo : Type := mkSegmentInfo {
  Index : Z;
  Start : Z;
  End_ : Z;
  Completed : bool;
  Retries : Z
}.

Record ResumeMetadata : Type := mkResumeMetadata {
  RFileMetadata : option FileMetadata;
  Segments : list SegmentInfo;
  CreatedAt : Time;
  LastUpdate : Time
}.

Record DownloadConfig : Type := mkDownloadConfig {
  OutputPath : string;
  Threads : Z;
  RateLimit : Z;
  ProxyURL : string;
  Quiet : bool;
  ResumeData : option ResumeMetadata
}.

(** Go functions returning [(T, error)]. *)
Inductive result (E A : Type) : Type :=
| Ok (a : A)
| Err (e : E).
Arguments Ok {E A} a.
Arguments Err {E A} e.

Definition is_ok {E A} (r : result E A) : bool :=
  match r with Ok _ => true | Err _ => false end.

(** ** Segment planner (downloader/planner.go) *)

Definition MinSegmentSize : Z := 1024 * 1024.
Definition MaxThreads : Z := 32.
Definition ResumeMetadataExt : string := ".terafetch.json".

Record DownloadPlanner : Type := mkDownloadPlanner {
  minSegmentSize : Z;
  maxThreads : Z
}.

Definition NewDownloadPlanner : DownloadPlanner :=
  {| minSegmentSize := MinSegmentSize; maxThreads := MaxThreads |}.

(** Errors of the planner, one constructor per [fmt.Errorf] site. *)
Inductive PlanError : Type :=
| PlanNilMetadata
| PlanNilConfig
| PlanResumeMissingFileInfo
| PlanSizeMismatch (expected got : Z)
| PlanFilenameMismatch (expected got : string).

(** The [for i := 0; i < threadCount; i++] loop of [CalculateSegments].
    [fuel] bounds the number of iterations; [CalculateSegments] supplies
    [threadCount] of them, which is what the loop needs. *)
Fixpoint segments_loop (fuel : nat) (i threadCount segmentSize fileSize : Z)
    (segments : list SegmentInfo) : list SegmentInfo :=
  match fuel with
  | O => segments
  | S fuel' =>
      if i <? threadCount then
        let start := mul64 i segmentSize in
        let end0 := sub64 (add64 start segmentSize) 1 in
        let end1 :=
          if i =? sub64 threadCount 1 then sub64 fileSize 1 else end0 in
        segments_loop fuel' (add64 i 1) threadCount segmentSize fileSize
          (segments ++ [ {| Index := i; Start := start; End_ := end1;
                            Completed := false; Retries := 0 |} ])
      else segments
  end.

Definition CalculateSegments (p : DownloadPlanner) (fileSize threadCount : Z)
    : list SegmentInfo :=
  if fileSize <=? 0 then []
  else
    let threadCount := if threadCount <=? 0 then 1 else threadCount in
    let threadCount :=
      if threadCount >? maxThreads p then maxThreads p else threadCount in
    if fileSize <? minSegmentSize p then
      [ {| Index := 0; Start := 0; End_ := sub64 fileSize 1;
           Completed := false; Retries := 0 |} ]
    else
      let segmentSize := quot64 fileSize threadCount in
      let '(threadCount, segmentSize) :=
        if segmentSize <? minSegmentSize p then
          let threadCount := quot64 fileSize (minSegmentSize p) in
          let threadCount := if threadCount =? 0 then 1 else threadCount in
          (threadCount, quot64 fileSize threadCount)
        else (threadCount, segmentSize) in
      segments_loop (Z.to_nat threadCount) 0 threadCount segmentSize fileSize [].

Definition determineOptimalThreads (p : DownloadPlanner)
    (fileSize requestedThreads : Z) : Z :=
  let optimalThreads := requestedThreads in
  let optimalThreads := if optimalThreads <=? 0 then 1 else optimalThreads in
  let optimalThreads :=
    if optimalThreads >? maxThreads p then maxThreads p else optimalThreads in
  let maxPossibleThreads := quot64 fileSize (minSegmentSize p) in
  let maxPossibleThreads :=
    if maxPossibleThreads =? 0 then 1 else maxPossibleThreads in
  if optimalThreads >? maxPossibleThreads then maxPossibleThreads
  else optimalThreads.

Definition planResumeDownload (p : DownloadPlanner)
    (resumeData : ResumeMetadata) (currentMeta : FileMetadata)
    : result PlanError (list SegmentInfo) :=
  match RFileMetadata resumeData with
  | None => Err PlanResumeMissingFileInfo
  | Some fm =>
      if negb (Size fm =? Size currentMeta) then
        Err (PlanSizeMismatch (Size fm) (Size currentMeta))
      else if negb (String.eqb (Filename fm) (Filename currentMeta)) then
        Err (PlanFilenameMismatch (Filename fm) (Filename currentMeta))
      else Ok (Segments resumeData)
  end.

Definition PlanDownload (p : DownloadPlanner)
    (meta : option FileMetadata) (config : option DownloadConfig)
    : result PlanError (list SegmentInfo) :=
  match meta with
  | None => Err PlanNilMetadata
  | Some meta =>
      match config with
      | None => Err PlanNilConfig
      | Some config =>
          match ResumeData config with
          | Some resumeData => planResumeDownload p resumeData meta
          | None =>
              let optimalThreads :=
                determineOptimalThreads p (Size meta) (Threads config) in
              Ok (CalculateSegments p (Size meta) optimalThreads)
          end
      end
  end.

(** The [for _, segment := range segments] loop of [IsDownloadComplete],
    with its early [return false]; [len(segments) > 0] is the fall-through. *)
Fixpoint IsDownloadComplete_loop (rest : list SegmentInfo) (len : nat) : bool :=
  match rest with
  | [] => Nat.ltb 0 len
  | segment :: rest' =>
      if negb (Completed segment) then false
      else IsDownloadComplete_loop rest' len
  end.

Definition IsDownloadComplete (p : DownloadPlanner)
    (segments : list SegmentInfo) : bool :=
  IsDownloadComplete_loop segments (length segments).

(** [GetIncompleteSegments]: the loop appends the segments that are not
    completed to a slice that starts [nil]. *)
Definition GetIncompleteSegments (p : DownloadPlanner)
    (segments : list SegmentInfo) : list SegmentInfo :=
  fold_left
    (fun incomplete segment =>
       if negb (Completed segment) then incomplete ++ [segment]
       else incomplete)
    segments [].

(** ** Floating point and durations

    [float64] is IEEE 754 binary64, the primitive floats of the kernel: every
    operation rounds to nearest, ties to even, as the SSE2 instructions of
    amd64 do; a product and the sum it feeds are rounded one after the other
    (no fused multiply-add, the default on amd64).  [time.Duration] counts
    nanoseconds. *)

Definition float64 : Set := float.

(** [float64(n)] for an integer [n]: the nearest float. *)
Definition float64_of_int (n : Z) : float64 :=
  FloatOps.SF2Prim
    (SpecFloat.binary_normalize FloatOps.prec FloatOps.emax n 0 false).

(** [int64(x)]: truncation toward zero; out of range, for the infinities and
    for NaN the amd64 result, the smallest [int64]. *)
Definition int64_of_float64 (x : float64) : Z :=
  match FloatOps.Prim2SF x with
  | SpecFloat.S754_zero _ => 0
  | SpecFloat.S754_finite s m e =>
      let v := Z.shiftl (Z.pos m) e in
      let t := if s then - v else v in
      if (min_int64 <=? t) && (t <=? max_int64) then t else min_int64
  | _ => min_int64
  end.

(** The decimal constants of the source, as the compiler rounds them. *)
Definition f0_1 : float64 := 0x1.999999999999ap-4%float.
Definition f0_8 : float64 := 0x1.999999999999ap-1%float.
Definition f0_9 : float64 := 0x1.ccccccccccccdp-1%float.
Definition f0_95 : float64 := 0x1.e666666666666p-1%float.
Definition f1_05 : float64 := 0x1.0cccccccccccdp+0%float.

(** [t.Sub(u)] and [time.Since(u)]: the difference of two instants,
    saturated to the range of [time.Duration]. *)
Definition Time_Sub (t u : Z) : Z :=
  Z.max min_int64 (Z.min max_int64 (t - u)).

Definition Second : Z := 1000000000.
Definition Millisecond : Z := 1000000.

(** [d.Seconds()]: the whole seconds and the remaining nanoseconds are
    converted separately. *)
Definition Seconds (d : Z) : float64 :=
  let sec := Z.quot d Second in
  let nsec := Z.rem d Second in
  (float64_of_int sec + float64_of_int nsec / 1e9)%float.

(** ** Token-bucket rate limiter (utils/ratelimit.go)

    [time.Now()] is an input: every operation receives the clock readings it
    makes. *)

Module RateLimiter.

Definition wrap32 (z : Z) : Z := (z + 2 ^ 31) mod 2 ^ 32 - 2 ^ 31.

Record SpeedMeasurement : Type := mkSpeedMeasurement {
  timestamp : Time;
  speed : float64
}.

Record NetworkStats : Type := mkNetworkStats {
  totalBytes : Z;
  totalDuration : Z;
  lastMeasurement : Time;
  avgSpeed : float64;
  measurements : list SpeedMeasurement;
  maxMeasurements : Z
}.

Record TokenBucketLimiter : Type := mkTokenBucketLimiter {
  rate : Z;
  bucket : Z;
  maxBucket : Z;
  lastUpdate : Time;
  threadCount : Z;
  originalRate : Z;
  adjustmentFactor : float64;
  lastAdjustment : Time;
  networkStats : NetworkStats
}.

Definition NewTokenBucketLimiter (bytesPerSecond : Z) (now : Time)
    : TokenBucketLimiter :=
  {| rate := bytesPerSecond;
     bucket := bytesPerSecond;
     maxBucket := bytesPerSecond;
     lastUpdate := now;
     threadCount := 0;
     originalRate := bytesPerSecond;
     adjustmentFactor := 1%float;
     lastAdjustment := now;
     networkStats :=
       {| totalBytes := 0; totalDuration := 0; lastMeasurement := now;
          avgSpeed := 0%float; measurements := []; maxMeasurements := 10 |} |}.

Definition set_threadCount (r : TokenBucketLimiter) (n : Z)
    : TokenBucketLimiter :=
  mkTokenBucketLimiter (rate r) (bucket r) (maxBucket r) (lastUpdate r) n
    (originalRate r) (adjustmentFactor r) (lastAdjustment r) (networkStats r).

Definition NewDistributedRateLimiter (bytesPerSecond threadCount : Z)
    (now : Time) : TokenBucketLimiter :=
  set_threadCount (NewTokenBucketLimiter bytesPerSecond now)
    (wrap32 threadCount).

Definition calculateEffectiveRate (r : TokenBucketLimiter) : Z :=
  let threadCount := threadCount r in
  if threadCount <=? 1 then rate r
  else
    let minPerThread := 1024 in
    let totalMinimum := mul64 minPerThread threadCount in
    if rate r <=? totalMinimum then quot64 (rate r) threadCount
    else rate r.

Definition SetRate (r : TokenBucketLimiter) (bytesPerSecond : Z)
    : TokenBucketLimiter :=
  let maxBucket' := bytesPerSecond in
  mkTokenBucketLimiter bytesPerSecond
    (if bucket r >? maxBucket' then maxBucket' else bucket r)
    maxBucket' (lastUpdate r) (threadCount r) bytesPerSecond
    (adjustmentFactor r) (lastAdjustment r) (networkStats r).

Definition RegisterThread (r : TokenBucketLimiter) : TokenBucketLimiter :=
  set_threadCount r (wrap32 (threadCount r + 1)).

Definition UnregisterThread (r : TokenBucketLimiter) : TokenBucketLimiter :=
  if threadCount r >? 0 then set_threadCount r (wrap32 (threadCount r - 1))
  else r.

Definition GetThreadCount (r : TokenBucketLimiter) : Z := threadCount r.

(** [adjustRateBasedOnPerformance]; [since] is the clock read by
    [time.Since(r.lastAdjustment)], [now] the one stored at the end. *)
Definition adjustRateBasedOnPerformance (r : TokenBucketLimiter)
    (since now : Time) : TokenBucketLimiter :=
  if Time_Sub since (lastAdjustment r) <? 5 * Second then r
  else if (length (measurements (networkStats r)) <? 3)%nat then r
  else
    let recentSpeed := avgSpeed (networkStats r) in
    let targetRate := float64_of_int (originalRate r) in
    let utilizationRatio := (recentSpeed / targetRate)%float in
    let apply (newAdjustmentFactor : float64) :=
      let newRate :=
        int64_of_float64
          (float64_of_int (originalRate r) * newAdjustmentFactor)%float in
      mkTokenBucketLimiter newRate
        (if bucket r >? newRate then newRate else bucket r)
        newRate (lastUpdate r) (threadCount r) (originalRate r)
        newAdjustmentFactor now (networkStats r) in
    if (utilizationRatio <? f0_8)%float then
      apply (adjustmentFactor r * f0_9)%float
    else if (f0_95 <? utilizationRatio)%float
            && (adjustmentFactor r <? 1)%float then
      let newAdjustmentFactor := (adjustmentFactor r * f1_05)%float in
      apply (if (1 <? newAdjustmentFactor)%float then 1%float
             else newAdjustmentFactor)
    else r.

Definition set_networkStats (r : TokenBucketLimiter) (s : NetworkStats)
    : TokenBucketLimiter :=
  mkTokenBucketLimiter (rate r) (bucket r) (maxBucket r) (lastUpdate r)
    (threadCount r) (originalRate r) (adjustmentFactor r) (lastAdjustment r) s.

(** The three clock readings of one [UpdateNetworkStats] call. *)
Record StatClock : Type := mkStatClock {
  statNow : Time;
  adjustSince : Time;
  adjustNow : Time
}.

Definition UpdateNetworkStats (r : TokenBucketLimiter)
    (bytesTransferred duration : Z) (c : StatClock) : TokenBucketLimiter :=
  if (duration <=? 0) || (bytesTransferred <=? 0) then r
  else
    let s := networkStats r in
    let now := statNow c in
    let speed0 := (float64_of_int bytesTransferred / Seconds duration)%float in
    let measurement := {| timestamp := now; speed := speed0 |} in
    let ms :=
      if Z.of_nat (length (measurements s)) >=? maxMeasurements s
      then drop 1 (measurements s) else measurements s in
    let ms := ms ++ [measurement] in
    let avg :=
      if (0 <? length ms)%nat then
        let totalSpeed :=
          fold_left (fun acc m => (acc + speed m)%float) ms 0%float in
        (totalSpeed / float64_of_int (Z.of_nat (length ms)))%float
      else avgSpeed s in
    let s' :=
      {| totalBytes := add64 (totalBytes s) bytesTransferred;
         totalDuration := add64 (totalDuration s) duration;
         lastMeasurement := now;
         avgSpeed := avg;
         measurements := ms;
         maxMeasurements := maxMeasurements s |} in
    adjustRateBasedOnPerformance (set_networkStats r s')
      (adjustSince c) (adjustNow c).

(** The part of [Wait] that runs under [r.mutex]: refill, then debit.
    Returns the new state and, when tokens are missing, the time to wait. *)
Definition Wait_locked (r : TokenBucketLimiter) (n : Z) (now : Time)
    : TokenBucketLimiter * option Z :=
  let elapsed := Time_Sub now (lastUpdate r) in
  let effectiveRate := calculateEffectiveRate r in
  let tokensToAdd :=
    int64_of_float64 (Seconds elapsed * float64_of_int effectiveRate)%float in
  let bucket1 := add64 (bucket r) tokensToAdd in
  let bucket2 := if bucket1 >? maxBucket r then maxBucket r else bucket1 in
  let needed := n in
  let upd (b : Z) :=
    mkTokenBucketLimiter (rate r) b (maxBucket r) now (threadCount r)
      (originalRate r) (adjustmentFactor r) (lastAdjustment r)
      (networkStats r) in
  if bucket2 >=? needed then (upd (sub64 bucket2 needed), None)
  else
    let deficit := sub64 needed bucket2 in
    let waitTime :=
      mul64
        (int64_of_float64
           (float64_of_int deficit / float64_of_int effectiveRate * 1000)%float)
        Millisecond in
    (upd 0, Some waitTime).

(** Clock readings and scheduling of one [Wait] call: [waitStart] and
    [waitNow] are the two [time.Now()] at entry, [waitEnd] is read by
    [time.Since(startTime)]; [cancelled] tells whether [ctx.Done()] wins the
    [select] when the call has to wait. *)
Record WaitEnv : Type := mkWaitEnv {
  waitStart : Time;
  waitNow : Time;
  waitEnd : Time;
  cancelled : bool;
  waitStat : StatClock
}.

Inductive WaitError : Type := ContextCancelled.

Definition Wait (r : TokenBucketLimiter) (n : Z) (e : WaitEnv)
    : TokenBucketLimiter * option WaitError :=
  if rate r <=? 0 then (r, None)
  else
    let '(r1, w) := Wait_locked r n (waitNow e) in
    let needed := n in
    let elapsedTotal := Time_Sub (waitEnd e) (waitStart e) in
    match w with
    | None =>
        (if elapsedTotal >? 0
         then UpdateNetworkStats r1 needed elapsedTotal (waitStat e)
         else r1, None)
    | Some waitTime =>
        if cancelled e then (r1, Some ContextCancelled)
        else
          (if elapsedTotal >? 0
           then UpdateNetworkStats r1 needed elapsedTotal (waitStat e)
           else r1, None)
    end.

(** Calls on a limiter, and a run of calls from a state. *)
Inductive call : Type :=
| CallWait (n : Z) (e : WaitEnv)
| CallSetRate (bytesPerSecond : Z)
| CallRegisterThread
| CallUnregisterThread
| CallUpdateNetworkStats (bytesTransferred duration : Z) (c : StatClock).

Definition exec (r : TokenBucketLimiter) (c : call) : TokenBucketLimiter :=
  match c with
  | CallWait n e => fst (Wait r n e)
  | CallSetRate b => SetRate r b
  | CallRegisterThread => RegisterThread r
  | CallUnregisterThread => UnregisterThread r
  | CallUpdateNetworkStats b d c => UpdateNetworkStats r b d c
  end.

Definition run (r : TokenBucketLimiter) (cs : list call) : TokenBucketLimiter :=
  fold_left exec cs r.

End RateLimiter.

(** ** Error taxonomy (internal/errors.go) *)

Inductive ErrorType : Type :=
| ErrInvalidURL | ErrAuthRequired | ErrRateLimit | ErrNetworkTimeout
| ErrFileNotFound | ErrQuotaExceeded | ErrInvalidResponse | ErrDownloadFailed
| ErrPermissionDenied | ErrDiskSpace | ErrCorruptedFile | ErrUnsupportedFormat
| ErrResumeDataCorrupted | ErrResumeIncompatible | ErrPartialFileInvalid.

Inductive ErrorSeverity : Type :=
| SeverityInfo | SeverityWarning | SeverityError | SeverityCritical.

Record TeraboxError : Type := mkTeraboxError {
  Code : Z;
  Message : string;
  Type_ : ErrorType;
  Severity : ErrorSeverity;
  URL : string;
  Suggestion : string;
  RetryAfter : Z
}.

Definition ErrorType_String (et : ErrorType) : string :=
  match et with
  | ErrInvalidURL => "InvalidURL"
  | ErrAuthRequired => "AuthRequired"
  | ErrRateLimit => "RateLimit"
  | ErrNetworkTimeout => "NetworkTimeout"
  | ErrFileNotFound => "FileNotFound"
  | ErrQuotaExceeded => "QuotaExceeded"
  | ErrInvalidResponse => "InvalidResponse"
  | ErrDownloadFailed => "DownloadFailed"
  | ErrPermissionDenied => "PermissionDenied"
  | ErrDiskSpace => "DiskSpace"
  | ErrCorruptedFile => "CorruptedFile"
  | ErrUnsupportedFormat => "UnsupportedFormat"
  | ErrResumeDataCorrupted => "ResumeDataCorrupted"
  | ErrResumeIncompatible => "ResumeIncompatible"
  | ErrPartialFileInvalid => "PartialFileInvalid"
  end.

Definition getDefaultSuggestion (errorType : ErrorType) (code : Z) : string :=
  match errorType with
  | ErrInvalidURL => "Please ensure the URL is a valid Terabox or Baidu Pan share link (e.g., https://terabox.com/s/...)"
  | ErrAuthRequired => "Please provide valid cookies using --cookies flag or TERABOX_COOKIES environment variable"
  | ErrRateLimit => "Please wait before retrying. Consider using --limit-rate to reduce bandwidth usage"
  | ErrNetworkTimeout => "Check your internet connection and try again. Consider using a proxy if needed"
  | ErrFileNotFound => "Verify the share link is still valid and the file hasn't been removed"
  | ErrQuotaExceeded => "Your download quota has been exceeded. Try again later or use a different account"
  | ErrInvalidResponse =>
      if code >=? 500 then "Server error occurred. Please try again later"
      else "Invalid response from server. The API might have changed or the link is invalid"
  | ErrDownloadFailed => "Download failed. Check available disk space and network connection"
  | ErrPermissionDenied => "Permission denied. Check file/directory permissions or try running with appropriate privileges"
  | ErrDiskSpace => "Insufficient disk space. Free up space or choose a different output directory"
  | ErrCorruptedFile => "File appears to be corrupted. Try downloading again or check the source"
  | ErrUnsupportedFormat => "File format is not supported or recognized"
  | ErrResumeDataCorrupted => "Resume metadata is corrupted. Delete the .terafetch.json file and restart the download"
  | ErrResumeIncompatible => "Resume data is incompatible with current download. Delete resume files and restart"
  | ErrPartialFileInvalid => "Partial download file is invalid. Delete the .part file and restart the download"
  end.

Definition getDefaultSeverity (errorType : ErrorType) : ErrorSeverity :=
  match errorType with
  | ErrRateLimit | ErrNetworkTimeout => SeverityWarning
  | ErrInvalidURL | ErrAuthRequired | ErrFileNotFound => SeverityError
  | ErrQuotaExceeded | ErrPermissionDenied | ErrDiskSpace => SeverityCritical
  | _ => SeverityError
  end.

Definition NewTeraboxError (code : Z) (message : string)
    (errorType : ErrorType) : TeraboxError :=
  {| Code := code; Message := message; Type_ := errorType;
     Severity := getDefaultSeverity errorType; URL := "";
     Suggestion := getDefaultSuggestion errorType code; RetryAfter := 0 |}.

Definition WithSuggestion (e : TeraboxError) (suggestion : string)
    : TeraboxError :=
  mkTeraboxError (Code e) (Message e) (Type_ e) (Severity e) (URL e)
    suggestion (RetryAfter e).

Definition WithRetryAfter (e : TeraboxError) (seconds : Z) : TeraboxError :=
  mkTeraboxError (Code e) (Message e) (Type_ e) (Severity e) (URL e)
    (Suggestion e) seconds.

(** [fmt.Sprintf("%d", z)] *)
Definition sprint_d (z : Z) : string :=
  DecimalString.NilZero.string_of_int (Z.to_int z).

Definition NewRateLimitError (retryAfter : Z) : TeraboxError :=
  WithSuggestion
    (WithRetryAfter (NewTeraboxError 429 "Rate limit exceeded" ErrRateLimit)
       retryAfter)
    ("Please wait " +:+ sprint_d retryAfter +:+ " seconds before retrying").

Definition IsRetryable (e : TeraboxError) : bool :=
  match Type_ e with
  | ErrNetworkTimeout | ErrRateLimit => true
  | ErrInvalidResponse => Code e >=? 500
  | _ => false
  end.

Definition IsCritical (e : TeraboxError) : bool :=
  match Severity e with
  | SeverityCritical => true
  | _ => false
  end.

Definition WithURL (e : TeraboxError) (url : string) : TeraboxError :=
  mkTeraboxError (Code e) (Message e) (Type_ e) (Severity e) url
    (Suggestion e) (RetryAfter e).

(** [strings.Join(parts, sep)] *)
Fixpoint Join (parts : list string) (sep : string) : string :=
  match parts with
  | [] => ""
  | [p] => p
  | p :: rest => p +:+ sep +:+ Join rest sep
  end.

Definition TeraboxError_Error (e : TeraboxError) : string :=
  let parts :=
    [ "terabox error (code: " +:+ sprint_d (Code e) +:+ ", type: "
        +:+ ErrorType_String (Type_ e) +:+ ")" ] in
  let parts :=
    if negb (String.eqb (Message e) "") then parts ++ [Message e] else parts in
  let parts :=
    if negb (String.eqb (Suggestion e) "")
    then parts ++ ["Suggestion: " +:+ Suggestion e] else parts in
  Join parts " - ".

(** Go [error] values.  [EOF] is [io.EOF], [Canceled] and
    [DeadlineExceeded] are the two [context] errors; they are compared by
    identity in the source.  [NotExist op path] is the [*fs.PathError] of a
    missing file, the errors [os.IsNotExist] recognises.  [Wrap] is
    [fmt.Errorf("prefix%w", inner)]; [Plain] is any other error, given by
    its message. *)
Inductive error : Type :=
| EOF
| Canceled
| DeadlineExceeded
| NotExist (op path : string)
| Plain (msg : string)
| Terabox (e : TeraboxError)
| Wrap (prefix : string) (inner : error).

Fixpoint error_Error (err : error) : string :=
  match err with
  | EOF => "EOF"
  | Canceled => "context canceled"
  | DeadlineExceeded => "context deadline exceeded"
  | NotExist op path => op +:+ " " +:+ path +:+ ": no such file or directory"
  | Plain msg => msg
  | Terabox e => TeraboxError_Error e
  | Wrap prefix inner => prefix +:+ error_Error inner
  end.

(** [os.IsNotExist(err)]; it does not look inside wrapped errors. *)
Definition IsNotExist (err : error) : bool :=
  match err with
  | NotExist _ _ => true
  | _ => false
  end.

(** ** Application configuration (internal/config.go)

    The process environment and [strconv.Atoi] are inputs: [os_Getenv] gives
    the value of a variable (empty when unset), [strconv_Atoi] the result of
    parsing a decimal integer. *)

Module Config.

Record Config : Type := mkConfig {
  DefaultThreads : Z;
  DefaultTimeout : Z;
  MaxRetries : Z;
  UserAgentList : list string;
  AllowedDomains : list string;
  LogLevel : string;
  EnableDebug : bool;
  QuietMode : bool;
  LogFile : string
}.

Definition DefaultConfig : Config :=
  {| DefaultThreads := 8;
     DefaultTimeout := 30;
     MaxRetries := 3;
     UserAgentList :=
       [ "Mozilla/5.0 (Windows NT 10.0; Win64; x64) AppleWebKit/537.36 (KHTML, like Gecko) Chrome/120.0.0.0 Safari/537.36";
         "Mozilla/5.0 (Macintosh; Intel Mac OS X 10_15_7) AppleWebKit/537.36 (KHTML, like Gecko) Chrome/120.0.0.0 Safari/537.36";
         "Mozilla/5.0 (X11; Linux x86_64) AppleWebKit/537.36 (KHTML, like Gecko) Chrome/120.0.0.0 Safari/537.36" ];
     AllowedDomains :=
       [ "terabox.com"; "www.terabox.com"; "pan.baidu.com";
         "www.pan.baidu.com" ];
     LogLevel := "info";
     EnableDebug := false;
     QuietMode := false;
     LogFile := "" |}.

Section Env.
Variable os_Getenv : string -> string.
Variable strconv_Atoi : string -> result error Z.

Definition LoadFromEnv (c : Config) : Config :=
  let c :=
    if negb (String.eqb (os_Getenv "TERAFETCH_THREADS") "") then
      match strconv_Atoi (os_Getenv "TERAFETCH_THREADS") with
      | Ok t =>
          if (t >? 0) && (t <=? 32) then
            mkConfig t (DefaultTimeout c) (MaxRetries c) (UserAgentList c)
              (AllowedDomains c) (LogLevel c) (EnableDebug c) (QuietMode c)
              (LogFile c)
          else c
      | Err _ => c
      end
    else c in
  let c :=
    if negb (String.eqb (os_Getenv "TERAFETCH_TIMEOUT") "") then
      match strconv_Atoi (os_Getenv "TERAFETCH_TIMEOUT") with
      | Ok t =>
          if t >? 0 then
            mkConfig (DefaultThreads c) t (MaxRetries c) (UserAgentList c)
              (AllowedDomains c) (LogLevel c) (EnableDebug c) (QuietMode c)
              (LogFile c)
          else c
      | Err _ => c
      end
    else c in
  let c :=
    if negb (String.eqb (os_Getenv "TERAFETCH_LOG_LEVEL") "") then
      mkConfig (DefaultThreads c) (DefaultTimeout c) (MaxRetries c)
        (UserAgentList c) (AllowedDomains c)
        (os_Getenv "TERAFETCH_LOG_LEVEL") (EnableDebug c) (QuietMode c)
        (LogFile c)
    else c in
  let c :=
    if negb (String.eqb (os_Getenv "TERAFETCH_DEBUG") "") then
      mkConfig (DefaultThreads c) (DefaultTimeout c) (MaxRetries c)
        (UserAgentList c) (AllowedDomains c) (LogLevel c)
        (String.eqb (os_Getenv "TERAFETCH_DEBUG") "true"
         || String.eqb (os_Getenv "TERAFETCH_DEBUG") "1")
        (QuietMode c) (LogFile c)
    else c in
  let c :=
    if negb (String.eqb (os_Getenv "TERAFETCH_QUIET") "") then
      mkConfig (DefaultThreads c) (DefaultTimeout c) (MaxRetries c)
        (UserAgentList c) (AllowedDomains c) (LogLevel c) (EnableDebug c)
        (String.eqb (os_Getenv "TERAFETCH_QUIET") "true"
         || String.eqb (os_Getenv "TERAFETCH_QUIET") "1")
        (LogFile c)
    else c in
  if negb (String.eqb (os_Getenv "TERAFETCH_LOG_FILE") "") then
    mkConfig (DefaultThreads c) (DefaultTimeout c) (MaxRetries c)
      (UserAgentList c) (AllowedDomains c) (LogLevel c) (EnableDebug c)
      (QuietMode c) (os_Getenv "TERAFETCH_LOG_FILE")
  else c.

Definition GetEnvWithDefault (key defaultValue : string) : string :=
  let value := os_Getenv key in
  if negb (String.eqb value "") then value else defaultValue.

End Env.

Definition ValidateConfig (c : Config) : option error :=
  if (DefaultThreads c <? 1) || (DefaultThreads c >? 32) then
    Some (Plain ("invalid default threads: " +:+ sprint_d (DefaultThreads c)
                   +:+ " (must be 1-32)"))
  else if DefaultTimeout c <? 1 then
    Some (Plain ("invalid default timeout: " +:+ sprint_d (DefaultTimeout c)
                   +:+ " (must be > 0)"))
  else if MaxRetries c <? 0 then
    Some (Plain ("invalid max retries: " +:+ sprint_d (MaxRetries c)
                   +:+ " (must be >= 0)"))
  else if (length (UserAgentList c) =? 0)%nat then
    Some (Plain "user agent list cannot be empty")
  else if (length (AllowedDomains c) =? 0)%nat then
    Some (Plain "allowed domains list cannot be empty")
  else None.

End Config.

(** ** Strings *)

(** [strings.Contains(s, substr)] *)
Fixpoint Contains (s substr : string) : bool :=
  if String.prefix substr s then true
  else match s with
       | EmptyString => false
       | String _ s' => Contains s' substr
       end.

(** [strings.ToLower] on ASCII letters; other bytes are left as they are. *)
Definition lower_ascii (a : ascii) : ascii :=
  let n := nat_of_ascii a in
  if (65 <=? n)%nat && (n <=? 90)%nat then ascii_of_nat (n + 32) else a.

Fixpoint ToLower (s : string) : string :=
  match s with
  | EmptyString => EmptyString
  | String a s' => String (lower_ascii a) (ToLower s')
  end.

(** ** HTTP transport (utils/http.go)

    The request function [fn] and the scheduler are inputs: for each attempt
    the environment gives the outcome of [fn()] (which may depend on the
    current user agent), the value of [rand.Float64()] used for the jitter
    and whether [ctx.Done()] wins the [select] of the back-off sleep. *)

Module HTTP.

Record RetryConfig : Type := mkRetryConfig {
  MaxAttempts : Z;
  BaseDelay : Z;
  MaxDelay : Z;
  Multiplier : float64;
  JitterPercent : float64
}.

Definition DefaultRetryConfig : RetryConfig :=
  {| MaxAttempts := 3; BaseDelay := 1 * Second; MaxDelay := 30 * Second;
     Multiplier := 2%float; JitterPercent := f0_1 |}.

Definition defaultUserAgents : list string :=
  [ "Mozilla/5.0 (Windows NT 10.0; Win64; x64) AppleWebKit/537.36 (KHTML, like Gecko) Chrome/120.0.0.0 Safari/537.36";
    "Mozilla/5.0 (Macintosh; Intel Mac OS X 10_15_7) AppleWebKit/537.36 (KHTML, like Gecko) Chrome/120.0.0.0 Safari/537.36";
    "Mozilla/5.0 (X11; Linux x86_64) AppleWebKit/537.36 (KHTML, like Gecko) Chrome/120.0.0.0 Safari/537.36";
    "Mozilla/5.0 (Windows NT 10.0; Win64; x64) AppleWebKit/537.36 (KHTML, like Gecko) Chrome/119.0.0.0 Safari/537.36";
    "Mozilla/5.0 (Macintosh; Intel Mac OS X 10_15_7) AppleWebKit/605.1.15 (KHTML, like Gecko) Version/17.1 Safari/605.1.15";
    "Mozilla/5.0 (Windows NT 10.0; Win64; x64; rv:109.0) Gecko/20100101 Firefox/120.0";
    "Mozilla/5.0 (Macintosh; Intel Mac OS X 10.15; rv:109.0) Gecko/20100101 Firefox/120.0";
    "Mozilla/5.0 (X11; Linux x86_64; rv:109.0) Gecko/20100101 Firefox/120.0" ].

Record HTTPClient : Type := mkHTTPClient {
  userAgent : string;
  userAgentIdx : Z;
  retryConfig : RetryConfig
}.

Definition NewHTTPClient : HTTPClient :=
  {| userAgent := nth 0 defaultUserAgents ""; userAgentIdx := 0;
     retryConfig := DefaultRetryConfig |}.

(** An HTTP response: status, headers, and the body as the network delivers
    it, a sequence of chunks ended by an error ([EOF] at a regular end). *)
Record Response : Type := mkResponse {
  StatusCode : Z;
  Header : list (string * string);
  BodyChunks : list (list Byte.byte);
  BodyEnd : error
}.


Definition RotateUserAgent (c : HTTPClient) : HTTPClient :=
  let idx :=
    Z.rem (add64 (userAgentIdx c) 1) (Z.of_nat (length defaultUserAgents)) in
  {| userAgent := nth (Z.to_nat idx) defaultUserAgents "";
     userAgentIdx := idx; retryConfig := retryConfig c |}.

Definition GetCurrentUserAgent (c : HTTPClient) : string := userAgent c.

(** [math.Pow(x, float64(n))].  The back-off only raises to the integers
    [attempt - 1]: the power is [1] for [n = 0], [x] for [n = 1], and beyond
    the product of [n] factors, which is the library's result whenever that
    product is exact, as it is for the powers of two; a negative [n] gives
    the reciprocal. *)
Definition math_Pow (x : float64) (n : Z) : float64 :=
  match n with
  | Z0 => 1%float
  | Z.pos p => Pos.iter (fun a => (a * x)%float) 1%float p
  | Z.neg p => (1 / Pos.iter (fun a => (a * x)%float) 1%float p)%float
  end.

(** [calculateDelay]; [rnd] is the value of [rand.Float64()]. *)
Definition calculateDelay (c : HTTPClient) (attempt : Z) (rnd : float64) : Z :=
  let cfg := retryConfig c in
  let delay :=
    (float64_of_int (BaseDelay cfg)
     * math_Pow (Multiplier cfg) (sub64 attempt 1))%float in
  let jitter := (delay * JitterPercent cfg * (rnd * 2 - 1))%float in
  let delay := (delay + jitter)%float in
  let delay :=
    if (float64_of_int (MaxDelay cfg) <? delay)%float
    then float64_of_int (MaxDelay cfg) else delay in
  let delay :=
    if (delay <? 0)%float then float64_of_int (BaseDelay cfg) else delay in
  int64_of_float64 delay.

Definition isRetryableError (err : error) : bool :=
  match err with
  | Terabox e => IsRetryable e
  | _ =>
      let errStr := ToLower (error_Error err) in
      existsb (Contains errStr)
        [ "timeout"; "connection refused"; "connection reset"; "no such host";
          "network is unreachable"; "temporary failure"; "i/o timeout";
          "context deadline exceeded" ]
  end.

Definition shouldRotateUserAgent (err : error) (resp : option Response)
    : bool :=
  match resp with
  | Some r => (StatusCode r =? 403)
  | None => false
  end
  || (let errStr := ToLower (error_Error err) in
      Contains errStr "forbidden" || Contains errStr "blocked").

(** What one call of [fn()] returns: [(resp, err)]. *)
Record FnResult : Type := mkFnResult {
  fnResp : option Response;
  fnErr : option error
}.

Record AttemptEnv : Type := mkAttemptEnv {
  fn : string -> FnResult;
  jitterRand : float64;
  ctxDone : option error
}.

(** What the retry loop does, in order. *)
Inductive event : Type :=
| Sleep (attempt : Z) (delay : Z)
| Request (attempt : Z) (ua : string)
| CloseBody (attempt : Z)
| Rotate (attempt : Z).

(** How one iteration of the loop ends: with a [return], or with a
    [continue] (or by falling through) carrying the client and [lastErr]. *)
Inductive control : Type :=
| Return (res : result error Response)
| Continue (c : HTTPClient) (lastErr : option error).

(** The body of the [for attempt := 0; attempt < MaxAttempts; attempt++]
    loop of [executeWithRetryContext]. *)
Definition attempt_body (c : HTTPClient) (e : AttemptEnv) (attempt : Z)
    (lastErr : option error) : list event * control :=
  let slept :=
    if attempt >? 0
    then [Sleep attempt (calculateDelay c attempt (jitterRand e))] else [] in
  match (if attempt >? 0 then ctxDone e else None) with
  | Some ctxErr => ([], Return (Err ctxErr))
  | None =>
      let tr := slept ++ [Request attempt (userAgent c)] in
      let r := fn e (userAgent c) in
      match fnErr r with
      | Some err =>
          if negb (isRetryableError err) then (tr, Return (Err err))
          else if shouldRotateUserAgent err (fnResp r)
          then (tr ++ [Rotate attempt], Continue (RotateUserAgent c) (Some err))
          else (tr, Continue c (Some err))
      | None =>
          match fnResp r with
          | None => (tr, Continue c lastErr)
          | Some resp =>
              let code := StatusCode resp in
              if (code =? 200) || (code =? 206) then (tr, Return (Ok resp))
              else
                let tr := tr ++ [CloseBody attempt] in
                if code =? 403 then
                  (tr ++ [Rotate attempt],
                   Continue (RotateUserAgent c)
                     (Some (Terabox (NewTeraboxError code
                        "Forbidden - rotating user agent" ErrRateLimit))))
                else if code =? 429 then
                  (tr, Continue c
                     (Some (Terabox (NewTeraboxError code "Rate limited"
                                       ErrRateLimit))))
                else if code =? 404 then
                  (tr, Return (Err (Terabox (NewTeraboxError code
                                      "File not found" ErrFileNotFound))))
                else if code =? 401 then
                  (tr, Return (Err (Terabox (NewTeraboxError code
                             "Authentication required" ErrAuthRequired))))
                else if code >=? 500 then
                  (tr, Continue c
                     (Some (Terabox (NewTeraboxError code "Server error"
                                       ErrNetworkTimeout))))
                else
                  (tr, Return (Err (Terabox (NewTeraboxError code
                                      "Client error" ErrInvalidResponse))))
          end
      end
  end.

Definition outcome : Type := HTTPClient * result error Response * list event.

(** The loop and the code after it.  [fuel] bounds the number of
    iterations; [MaxAttempts] of them are enough. *)
Fixpoint retry_loop (fuel : nat) (attempt : Z) (c : HTTPClient)
    (env : Z -> AttemptEnv) (lastErr : option error) (tr : list event)
    : outcome :=
  let maxAttempts := MaxAttempts (retryConfig c) in
  let exhausted :=
    match lastErr with
    | Some e =>
        (c, Err (Wrap ("request failed after " +:+ sprint_d maxAttempts
                         +:+ " attempts: ") e), tr)
    | None =>
        (c, Err (Plain ("request failed after " +:+ sprint_d maxAttempts
                          +:+ " attempts")), tr)
    end in
  match fuel with
  | O => exhausted
  | S fuel' =>
      if negb (attempt <? maxAttempts) then exhausted
      else
        let '(evs, ctl) := attempt_body c (env attempt) attempt lastErr in
        match ctl with
        | Return res => (c, res, tr ++ evs)
        | Continue c' lastErr' =>
            retry_loop fuel' (add64 attempt 1) c' env lastErr' (tr ++ evs)
        end
  end.

Definition executeWithRetryContext (c : HTTPClient) (env : Z -> AttemptEnv)
    : outcome :=
  retry_loop (Z.to_nat (MaxAttempts (retryConfig c))) 0 c env None [].

(** [GetWithContext]: [fn] builds the request with the current user agent
    and calls [client.Do]. *)
Definition GetWithContext (c : HTTPClient) (env : Z -> AttemptEnv) : outcome :=
  executeWithRetryContext c env.

End HTTP.

(** ** Worker pool (downloader/engine.go)

    The part file, the HTTP exchange, the rate limiter and the scheduler are
    inputs of a segment download: [SegmentEnv] gives, for one call of
    [downloadSegment], the results of opening and seeking the part file, the
    environment of the HTTP request, and for the [k]-th iteration of the copy
    loop the results of [rateLimiter.Wait], of [dst.Write] and of the
    [ctx.Done()] poll. *)

Module Worker.

Record DownloadJob : Type := mkDownloadJob {
  Segment : SegmentInfo;
  FileURL : string;
  JobOutputPath : string;
  PartPath : string
}.

(** [DownloadResult]; its fields [Error] and [Completed] are spelled
    [RError] and [RCompleted]. *)
Record DownloadResult : Type := mkDownloadResult {
  SegmentIndex : Z;
  BytesWritten : Z;
  RError : option error;
  RCompleted : bool
}.

Record WorkerPool : Type := mkWorkerPool {
  workers : Z;
  httpClient : HTTP.HTTPClient;
  hasRateLimiter : bool
}.

(** [written, writeErr := dst.Write(buffer[:n])] *)
Record WriteResult : Type := mkWriteResult {
  written : Z;
  writeErr : option error
}.

Record SegmentEnv : Type := mkSegmentEnv {
  openErr : option error;
  seekErr : option error;
  httpEnv : Z -> HTTP.AttemptEnv;
  limiterWait : nat -> option error;
  fileWrite : nat -> Z -> WriteResult;
  ctxPoll : nat -> option error
}.

(** The response body as an [io.Reader]: the chunks still to deliver and the
    error returned once they are exhausted. *)
Record Reader : Type := mkReader {
  chunks : list (list Byte.byte);
  atEnd : error
}.

Definition Body (resp : HTTP.Response) : Reader :=
  {| chunks := HTTP.BodyChunks resp; atEnd := HTTP.BodyEnd resp |}.

(** [n, err := src.Read(buffer[:toRead])]: at most [toRead] bytes of the
    next chunk; what is left of the chunk stays in the reader. *)
Definition Read (src : Reader) (toRead : Z) : Z * option error * Reader :=
  match chunks src with
  | [] => (0, Some (atEnd src), src)
  | c :: cs =>
      let n := Z.min (Z.of_nat (length c)) toRead in
      let rest := drop (Z.to_nat n) c in
      (n, None,
       {| chunks := match rest with [] => cs | _ => rest :: cs end;
          atEnd := atEnd src |})
  end.

Definition bufferSize : Z := 32 * 1024.

(** The [for totalWritten < maxBytes] loop of [copyWithRateLimit]; [k]
    counts the iterations made so far and [fuel] bounds those to come.
    [None] is returned only when [fuel] runs out. *)
Fixpoint copy_loop (fuel : nat) (wp : WorkerPool) (env : SegmentEnv)
    (k : nat) (src : Reader) (maxBytes totalWritten : Z)
    : option (Z * option error) :=
  if negb (totalWritten <? maxBytes) then Some (totalWritten, None)
  else
    match fuel with
    | O => None
    | S fuel' =>
        let toRead := bufferSize in
        let remaining := sub64 maxBytes totalWritten in
        let toRead := if toRead >? remaining then remaining else toRead in
        let '(n, err, src') := Read src toRead in
        let continue (totalWritten : Z) :=
          match err with
          | Some EOF => Some (totalWritten, None)
          | Some e => Some (totalWritten, Some e)
          | None =>
              match ctxPoll env k with
              | Some ce => Some (totalWritten, Some ce)
              | None =>
                  copy_loop fuel' wp env (S k) src' maxBytes totalWritten
              end
          end in
        if n >? 0 then
          match (if hasRateLimiter wp then limiterWait env k else None) with
          | Some werr =>
              Some (totalWritten, Some (Wrap "rate limiting error: " werr))
          | None =>
              let w := fileWrite env k n in
              let totalWritten := add64 totalWritten (written w) in
              match writeErr w with
              | Some e => Some (totalWritten, Some e)
              | None =>
                  if negb (written w =? n) then
                    Some (totalWritten,
                          Some (Plain ("short write: wrote "
                                         +:+ sprint_d (written w)
                                         +:+ ", expected " +:+ sprint_d n)))
                  else continue totalWritten
              end
          end
        else continue totalWritten
    end.

(** Every iteration that goes on consumes a byte or a chunk of the body. *)
Definition copy_fuel (src : Reader) : nat :=
  S (length (concat (chunks src)) + length (chunks src)).

Definition copyWithRateLimit (wp : WorkerPool) (env : SegmentEnv)
    (src : Reader) (maxBytes : Z) : option (Z * option error) :=
  copy_loop (copy_fuel src) wp env 0 src maxBytes 0.

(** The request of [downloadSegment]: its headers carry the user agent read
    by [GetCurrentUserAgent] before the call, and a caller's header replaces
    the one the transport sets on each attempt. *)
Definition request_env (c : HTTP.HTTPClient) (env : SegmentEnv)
    : Z -> HTTP.AttemptEnv :=
  fun k =>
    let ua := HTTP.GetCurrentUserAgent c in
    let e := httpEnv env k in
    HTTP.mkAttemptEnv (fun _ => HTTP.fn e ua) (HTTP.jitterRand e)
      (HTTP.ctxDone e).

(** [job.Segment.End - job.Segment.Start + 1] *)
Definition segment_length (job : DownloadJob) : Z :=
  add64 (sub64 (End_ (Segment job)) (Start (Segment job))) 1.

(** [downloadSegment]: the error it returns ([None] on success), the value
    it stores in [result.BytesWritten], and the HTTP client after the
    request.  [None] only if the copy loop ran out of fuel. *)
Definition downloadSegment (wp : WorkerPool) (job : DownloadJob)
    (env : SegmentEnv) (result : DownloadResult)
    : option (option error * DownloadResult * HTTP.HTTPClient) :=
  let c := httpClient wp in
  match openErr env with
  | Some e => Some (Some (Wrap "failed to open part file: " e), result, c)
  | None =>
  match seekErr env with
  | Some e =>
      Some (Some (Wrap "failed to seek to segment position: " e), result, c)
  | None =>
      let '(c', r, _) := HTTP.GetWithContext c (request_env c env) in
      match r with
      | Err e =>
          Some (Some (Wrap "failed to execute HTTP request: " e), result, c')
      | Ok resp =>
          let code := HTTP.StatusCode resp in
          if negb (code =? 206) && negb (code =? 200) then
            let e :=
              if code =? 416 then
                Plain "range not satisfiable: segment may be invalid"
              else if code =? 429 then Terabox (NewRateLimitError 60)
              else if code =? 403 then
                Terabox (NewTeraboxError 403 "Access forbidden"
                           ErrPermissionDenied)
              else Plain ("unexpected HTTP status: " +:+ sprint_d code) in
            Some (Some e, result, c')
          else
            let maxBytes := segment_length job in
            match copyWithRateLimit wp env (Body resp) maxBytes with
            | None => None
            | Some (bytesWritten, Some e) =>
                Some (Some (Wrap "failed to copy segment data: " e),
                      result, c')
            | Some (bytesWritten, None) =>
                Some (None,
                      mkDownloadResult (SegmentIndex result) bytesWritten
                        (RError result) (RCompleted result), c')
            end
      end
  end
  end.

(** The substring search of [containsErrorSubstring]: the slice of [s] at
    each position is compared with [substr]. *)
Fixpoint containsErrorSubstring (s substr : string) : bool :=
  if String.prefix substr s then true
  else match s with
       | EmptyString => false
       | String _ s' => containsErrorSubstring s' substr
       end.

Definition isNetworkError (err : error) : bool :=
  let errStr := error_Error err in
  existsb (containsErrorSubstring errStr)
    [ "connection reset"; "connection refused"; "timeout";
      "temporary failure"; "network is unreachable"; "no route to host";
      "broken pipe"; "context deadline exceeded"; "EOF" ].

(** Inputs of [processJob]: the environment of each attempt, and whether the
    context is done during the back-off after it. *)
Record JobEnv : Type := mkJobEnv {
  segmentEnv : Z -> SegmentEnv;
  backoffDone : Z -> option error
}.

Definition set_httpClient (wp : WorkerPool) (c : HTTP.HTTPClient)
    : WorkerPool :=
  mkWorkerPool (workers wp) c (hasRateLimiter wp).

Definition set_RError (r : DownloadResult) (e : option error)
    : DownloadResult :=
  mkDownloadResult (SegmentIndex r) (BytesWritten r) e (RCompleted r).

(** The retry loop of [processJob], [maxRetries = 3]. *)
Fixpoint processJob_loop (fuel : nat) (attempt : Z) (wp : WorkerPool)
    (job : DownloadJob) (env : JobEnv) (result : DownloadResult)
    : option (DownloadResult * WorkerPool) :=
  let maxRetries := 3 in
  match fuel with
  | O => Some (result, wp)
  | S fuel' =>
      if negb (attempt <? maxRetries) then Some (result, wp)
      else
        match downloadSegment wp job (segmentEnv env attempt) result with
        | None => None
        | Some (None, result, c) =>
            Some (mkDownloadResult (SegmentIndex result)
                    (BytesWritten result) (RError result) true,
                  set_httpClient wp c)
        | Some (Some err, result, c) =>
            let wp := set_httpClient wp c in
            if negb (isNetworkError err) || (attempt =? maxRetries - 1) then
              Some (set_RError result (Some err), wp)
            else
              match backoffDone env attempt with
              | Some ce => Some (set_RError result (Some ce), wp)
              | None =>
                  processJob_loop fuel' (add64 attempt 1) wp job env result
              end
        end
  end.

Definition processJob (wp : WorkerPool) (job : DownloadJob) (env : JobEnv)
    : option (DownloadResult * WorkerPool) :=
  processJob_loop 3 0 wp job env
    {| SegmentIndex := Index (Segment job); BytesWritten := 0;
       RError := None; RCompleted := false |}.

End Worker.

(** ** Resume metadata on disk: JSON documents (internal/types.go)

    [encoding/json] works in two steps.  The first, driven by the struct
    tags of [internal/types.go], relates a Go value and a JSON document; it
    is modelled here, with the coercion of strings to well-formed UTF-8.
    The second, between a document and its text, belongs to the library and
    is a parameter of the planner below. *)

#[warnings="-register-all"]
Inductive JSON : Type :=
| JNull
| JBool (b : bool)
| JNumber (n : Z)
| JFraction (literal : string)
| JString (s : string)
| JArray (items : list JSON)
| JObject (members : list (string * JSON)).

(** *** Strings in JSON text (encoding/json, unicode/utf8)

    [encoding/json] writes a Go string "coerced to valid UTF-8": its encoder
    walks the bytes of the string, copies a byte below [utf8.RuneSelf] and a
    sequence of two to four bytes that [utf8.DecodeRuneInString] accepts, and
    writes U+FFFD in the place of every other byte.  The decoder does the
    same with the strings it reads, so the strings of a parsed document are
    well-formed UTF-8. *)

Definition byte_in (lo hi : nat) (b : ascii) : bool :=
  (lo <=? nat_of_ascii b)%nat && (nat_of_ascii b <=? hi)%nat.

(** [b < utf8.RuneSelf] *)
Definition utf8_single (b0 : ascii) : bool := byte_in 0 127 b0.

(** A continuation byte, [0x80..0xBF]. *)
Definition utf8_continuation (b : ascii) : bool := byte_in 128 191 b.

(** First byte [0xC2..0xDF]. *)
Definition utf8_two (b0 b1 : ascii) : bool :=
  byte_in 194 223 b0 && utf8_continuation b1.

(** First byte [0xE0] with a second byte in [0xA0..0xBF], [0xE1..0xEC] and
    [0xEE..0xEF], or [0xED] with a second byte in [0x80..0x9F]. *)
Definition utf8_three (b0 b1 b2 : ascii) : bool :=
  (byte_in 224 224 b0 && byte_in 160 191 b1
   || byte_in 225 236 b0 && utf8_continuation b1
   || byte_in 237 237 b0 && byte_in 128 159 b1
   || byte_in 238 239 b0 && utf8_continuation b1)
  && utf8_continuation b2.

(** First byte [0xF0] with a second byte in [0x90..0xBF], [0xF1..0xF3], or
    [0xF4] with a second byte in [0x80..0x8F]. *)
Definition utf8_four (b0 b1 b2 b3 : ascii) : bool :=
  (byte_in 240 240 b0 && byte_in 144 191 b1
   || byte_in 241 243 b0 && utf8_continuation b1
   || byte_in 244 244 b0 && byte_in 128 143 b1)
  && utf8_continuation b2 && utf8_continuation b3.

(** U+FFFD in UTF-8: the bytes [EF BF BD]. *)
Definition utf8_RuneError : string :=
  String (ascii_of_nat 239) (String (ascii_of_nat 191)
    (String (ascii_of_nat 189) EmptyString)).

(** The string a JSON text holds for the Go string [s]. *)
Fixpoint json_string (s : string) : string :=
  match s with
  | EmptyString => EmptyString
  | String b0 r0 =>
      if utf8_single b0 then String b0 (json_string r0)
      else
        let replaced := utf8_RuneError +:+ json_string r0 in
        match r0 with
        | String b1 r1 =>
            if utf8_two b0 b1 then String b0 (String b1 (json_string r1))
            else
              match r1 with
              | String b2 r2 =>
                  if utf8_three b0 b1 b2 then
                    String b0 (String b1 (String b2 (json_string r2)))
                  else
                    match r2 with
                    | String b3 r3 =>
                        if utf8_four b0 b1 b2 b3 then
                          String b0 (String b1 (String b2 (String b3
                            (json_string r3))))
                        else replaced
                    | EmptyString => replaced
                    end
              | EmptyString => replaced
              end
        | EmptyString => replaced
        end
  end.

(** [utf8.ValidString] *)
Fixpoint utf8_ValidString (s : string) : bool :=
  match s with
  | EmptyString => true
  | String b0 r0 =>
      if utf8_single b0 then utf8_ValidString r0
      else
        match r0 with
        | String b1 r1 =>
            if utf8_two b0 b1 then utf8_ValidString r1
            else
              match r1 with
              | String b2 r2 =>
                  if utf8_three b0 b1 b2 then utf8_ValidString r2
                  else
                    match r2 with
                    | String b3 r3 =>
                        if utf8_four b0 b1 b2 b3 then utf8_ValidString r3
                        else false
                    | EmptyString => false
                    end
              | EmptyString => false
              end
        | EmptyString => false
        end
  end.

(** A document whose strings and keys are well-formed UTF-8. *)
Fixpoint utf8_JSON (v : JSON) : bool :=
  match v with
  | JString s => utf8_ValidString s
  | JArray items => forallb utf8_JSON items
  | JObject members =>
      forallb (fun kv => utf8_ValidString (fst kv) && utf8_JSON (snd kv))
        members
  | _ => true
  end.

(** A document as [json.Marshal] writes one for the types below: strings
    and keys are well-formed UTF-8 and every number is an integer. *)
Fixpoint marshalled (v : JSON) : bool :=
  match v with
  | JFraction _ => false
  | JString s => utf8_ValidString s
  | JArray items => forallb marshalled items
  | JObject members =>
      forallb (fun kv => utf8_ValidString (fst kv) && marshalled (snd kv))
        members
  | _ => true
  end.

Module JSONCodec.
Section Codec.

(** [time.Time.MarshalJSON] and [UnmarshalJSON], on the text between the
    quotes. *)
Variable time_MarshalJSON : Time -> result error string.
Variable time_UnmarshalJSON : string -> result error Time.

(** The struct field a JSON key selects: the field whose tag is the key,
    else the first one whose tag equals it up to the case of letters. *)
Definition field_of_key (tags : list string) (key : string) : option string :=
  match find (String.eqb key) tags with
  | Some t => Some t
  | None => find (fun t => String.eqb (ToLower t) (ToLower key)) tags
  end.

Definition type_error (what : string) : error :=
  Plain ("json: cannot unmarshal value into Go value of type " +:+ what).

(** Decoders of field values; [None] leaves the field as it is (a JSON
    [null] in a field that is not a pointer or a slice). *)
Definition decode_string (v : JSON) : result error (option string) :=
  match v with
  | JString s => Ok (Some s)
  | JNull => Ok None
  | _ => Err (type_error "string")
  end.

Definition decode_int (v : JSON) : result error (option Z) :=
  match v with
  | JNumber n =>
      if (min_int64 <=? n) && (n <=? max_int64) then Ok (Some n)
      else Err (type_error "int64")
  | JNull => Ok None
  | _ => Err (type_error "int64")
  end.

Definition decode_bool (v : JSON) : result error (option bool) :=
  match v with
  | JBool b => Ok (Some b)
  | JNull => Ok None
  | _ => Err (type_error "bool")
  end.

Definition decode_time (v : JSON) : result error (option Time) :=
  match v with
  | JString s =>
      match time_UnmarshalJSON s with
      | Ok t => Ok (Some t)
      | Err e => Err e
      end
  | JNull => Ok None
  | _ => Err (Plain "Time.UnmarshalJSON: input is not a JSON string")
  end.

Definition FileMetadata_tags : list string :=
  ["filename"; "size"; "direct_url"; "share_id"; "timestamp"; "checksum"].

Definition SegmentInfo_tags : list string :=
  ["index"; "start"; "end"; "completed"; "retries"].

Definition ResumeMetadata_tags : list string :=
  ["file_metadata"; "segments"; "created_at"; "last_update"].

Definition zero_FileMetadata : FileMetadata := mkFileMetadata "" 0 "" "" 0 "".
Definition zero_SegmentInfo : SegmentInfo := mkSegmentInfo 0 0 0 false 0.
Definition zero_ResumeMetadata : ResumeMetadata :=
  mkResumeMetadata None [] 0 0.

Definition or_keep {A} (new : option A) (old : A) : A := default old new.

(** One member of a JSON object decoded into a [FileMetadata]. *)
Definition set_FileMetadata_field (m : FileMetadata) (kv : string * JSON)
    : result error FileMetadata :=
  let '(key, v) := kv in
  match field_of_key FileMetadata_tags key with
  | None => Ok m
  | Some tag =>
      if String.eqb tag "filename" then
        match decode_string v with
        | Ok s => Ok (mkFileMetadata (or_keep s (Filename m)) (Size m)
                        (DirectURL m) (ShareID m) (Timestamp m) (Checksum m))
        | Err e => Err e
        end
      else if String.eqb tag "size" then
        match decode_int v with
        | Ok n => Ok (mkFileMetadata (Filename m) (or_keep n (Size m))
                        (DirectURL m) (ShareID m) (Timestamp m) (Checksum m))
        | Err e => Err e
        end
      else if String.eqb tag "direct_url" then
        match decode_string v with
        | Ok s => Ok (mkFileMetadata (Filename m) (Size m)
                        (or_keep s (DirectURL m)) (ShareID m) (Timestamp m)
                        (Checksum m))
        | Err e => Err e
        end
      else if String.eqb tag "share_id" then
        match decode_string v with
        | Ok s => Ok (mkFileMetadata (Filename m) (Size m) (DirectURL m)
                        (or_keep s (ShareID m)) (Timestamp m) (Checksum m))
        | Err e => Err e
        end
      else if String.eqb tag "timestamp" then
        match decode_time v with
        | Ok t => Ok (mkFileMetadata (Filename m) (Size m) (DirectURL m)
                        (ShareID m) (or_keep t (Timestamp m)) (Checksum m))
        | Err e => Err e
        end
      else
        match decode_string v with
        | Ok s => Ok (mkFileMetadata (Filename m) (Size m) (DirectURL m)
                        (ShareID m) (Timestamp m) (or_keep s (Checksum m)))
        | Err e => Err e
        end
  end.

Definition set_SegmentInfo_field (s : SegmentInfo) (kv : string * JSON)
    : result error SegmentInfo :=
  let '(key, v) := kv in
  match field_of_key SegmentInfo_tags key with
  | None => Ok s
  | Some tag =>
      if String.eqb tag "index" then
        match decode_int v with
        | Ok n => Ok (mkSegmentInfo (or_keep n (Index s)) (Start s) (End_ s)
                        (Completed s) (Retries s))
        | Err e => Err e
        end
      else if String.eqb tag "start" then
        match decode_int v with
        | Ok n => Ok (mkSegmentInfo (Index s) (or_keep n (Start s)) (End_ s)
                        (Completed s) (Retries s))
        | Err e => Err e
        end
      else if String.eqb tag "end" then
        match decode_int v with
        | Ok n => Ok (mkSegmentInfo (Index s) (Start s) (or_keep n (End_ s))
                        (Completed s) (Retries s))
        | Err e => Err e
        end
      else if String.eqb tag "completed" then
        match decode_bool v with
        | Ok b => Ok (mkSegmentInfo (Index s) (Start s) (End_ s)
                        (or_keep b (Completed s)) (Retries s))
        | Err e => Err e
        end
      else
        match decode_int v with
        | Ok n => Ok (mkSegmentInfo (Index s) (Start s) (End_ s)
                        (Completed s) (or_keep n (Retries s)))
        | Err e => Err e
        end
  end.

(** The members of an object decoded one after the other. *)
Fixpoint decode_members {A} (set : A -> string * JSON -> result error A)
    (a : A) (members : list (string * JSON)) : result error A :=
  match members with
  | [] => Ok a
  | kv :: rest =>
      match set a kv with
      | Ok a' => decode_members set a' rest
      | Err e => Err e
      end
  end.

Definition decode_FileMetadata (m : FileMetadata) (v : JSON)
    : result error FileMetadata :=
  match v with
  | JObject members => decode_members set_FileMetadata_field m members
  | _ => Err (type_error "internal.FileMetadata")
  end.

Definition decode_SegmentInfo (v : JSON) : result error SegmentInfo :=
  match v with
  | JObject members =>
      decode_members set_SegmentInfo_field zero_SegmentInfo members
  | JNull => Ok zero_SegmentInfo
  | _ => Err (type_error "internal.SegmentInfo")
  end.

Fixpoint decode_segments (items : list JSON)
    : result error (list SegmentInfo) :=
  match items with
  | [] => Ok []
  | v :: rest =>
      match decode_SegmentInfo v with
      | Err e => Err e
      | Ok s =>
          match decode_segments rest with
          | Ok l => Ok (s :: l)
          | Err e => Err e
          end
      end
  end.

Definition set_ResumeMetadata_field (r : ResumeMetadata) (kv : string * JSON)
    : result error ResumeMetadata :=
  let '(key, v) := kv in
  match field_of_key ResumeMetadata_tags key with
  | None => Ok r
  | Some tag =>
      if String.eqb tag "file_metadata" then
        match v with
        | JNull =>
            Ok (mkResumeMetadata None (Segments r) (CreatedAt r)
                  (LastUpdate r))
        | _ =>
            match decode_FileMetadata
                    (default zero_FileMetadata (RFileMetadata r)) v with
            | Ok m => Ok (mkResumeMetadata (Some m) (Segments r)
                            (CreatedAt r) (LastUpdate r))
            | Err e => Err e
            end
        end
      else if String.eqb tag "segments" then
        match v with
        | JNull =>
            Ok (mkResumeMetadata (RFileMetadata r) [] (CreatedAt r)
                  (LastUpdate r))
        | JArray items =>
            match decode_segments items with
            | Ok l => Ok (mkResumeMetadata (RFileMetadata r) l (CreatedAt r)
                            (LastUpdate r))
            | Err e => Err e
            end
        | _ => Err (type_error "[]internal.SegmentInfo")
        end
      else if String.eqb tag "created_at" then
        match decode_time v with
        | Ok t => Ok (mkResumeMetadata (RFileMetadata r) (Segments r)
                        (or_keep t (CreatedAt r)) (LastUpdate r))
        | Err e => Err e
        end
      else
        match decode_time v with
        | Ok t => Ok (mkResumeMetadata (RFileMetadata r) (Segments r)
                        (CreatedAt r) (or_keep t (LastUpdate r)))
        | Err e => Err e
        end
  end.

(** A document decoded into a zero [ResumeMetadata], as [json.Unmarshal]
    does for [var resumeData internal.ResumeMetadata]. *)
Definition decode_ResumeMetadata (v : JSON) : result error ResumeMetadata :=
  match v with
  | JObject members =>
      decode_members set_ResumeMetadata_field zero_ResumeMetadata members
  | JNull => Ok zero_ResumeMetadata
  | _ => Err (type_error "internal.ResumeMetadata")
  end.

(** Encoders, in the order of the struct fields; [checksum] is left out when
    empty ([omitempty]), and a string is written as [json_string] has it. *)
Definition encode_time (t : Time) : result error JSON :=
  match time_MarshalJSON t with
  | Ok s => Ok (JString s)
  | Err e => Err e
  end.

Definition encode_FileMetadata (m : FileMetadata) : result error JSON :=
  match encode_time (Timestamp m) with
  | Err e => Err e
  | Ok t =>
      Ok (JObject
            ([ ("filename", JString (json_string (Filename m)));
               ("size", JNumber (Size m));
               ("direct_url", JString (json_string (DirectURL m)));
               ("share_id", JString (json_string (ShareID m)));
               ("timestamp", t) ]
             ++ (if String.eqb (Checksum m) "" then []
                 else [("checksum", JString (json_string (Checksum m)))])))
  end.

Definition encode_SegmentInfo (s : SegmentInfo) : JSON :=
  JObject [ ("index", JNumber (Index s)); ("start", JNumber (Start s));
            ("end", JNumber (End_ s)); ("completed", JBool (Completed s));
            ("retries", JNumber (Retries s)) ].

Definition encode_ResumeMetadata (r : ResumeMetadata) : result error JSON :=
  match
    match RFileMetadata r with
    | None => Ok JNull
    | Some m => encode_FileMetadata m
    end
  with
  | Err e => Err e
  | Ok fm =>
      match encode_time (CreatedAt r) with
      | Err e => Err e
      | Ok created =>
          match encode_time (LastUpdate r) with
          | Err e => Err e
          | Ok updated =>
              Ok (JObject
                    [ ("file_metadata", fm);
                      ("segments", JArray (map encode_SegmentInfo (Segments r)));
                      ("created_at", created);
                      ("last_update", updated) ])
          end
      end
  end.

End Codec.
End JSONCodec.

(** ** The platform: file system, JSON text, clock

    Files are byte sequences stored by path.  What the operating system and
    the standard library decide is a parameter: [fault] may make any system
    call on a path fail, [json_encode_indent] and [json_decode] relate a JSON
    document and its text, [filepath_Dir] is [filepath.Dir]. *)

Inductive Op : Type :=
| OpStat | OpMkdirAll | OpWriteFile | OpReadFile | OpRemove | OpRename
| OpOpenFile | OpTruncate.

Record Platform : Type := mkPlatform {
  time_MarshalJSON : Time -> result error string;
  time_UnmarshalJSON : string -> result error Time;
  json_encode_indent : JSON -> list Byte.byte;
  json_decode : list Byte.byte -> result error JSON;
  filepath_Dir : string -> string;
  fault : Op -> string -> option error
}.

(** What the planner relies on: a document that [json.Marshal] can write
    parses back to itself, the strings of a parsed document are well-formed
    UTF-8, and a time parses back to itself from the text it is written as,
    which is well-formed UTF-8 as well. *)
Record PlatformLaws (P : Platform) : Prop := {
  json_decode_encode : forall v,
    marshalled v = true -> json_decode P (json_encode_indent P v) = Ok v;
  json_decode_utf8 : forall data v,
    json_decode P data = Ok v -> utf8_JSON v = true;
  time_Unmarshal_Marshal : forall t s,
    time_MarshalJSON P t = Ok s -> time_UnmarshalJSON P s = Ok t;
  time_MarshalJSON_utf8 : forall t s,
    time_MarshalJSON P t = Ok s -> utf8_ValidString s = true
}.

Definition no_faults (P : Platform) : Prop := forall op path, fault P op path = None.

Module Disk.
Section Disk.
Variable P : Platform.

Definition os_Stat (fs : gmap string (list Byte.byte)) (path : string)
    : result error Z :=
  match fault P OpStat path with
  | Some e => Err e
  | None =>
      match fs !! path with
      | Some data => Ok (Z.of_nat (length data))
      | None => Err (NotExist "stat" path)
      end
  end.

Definition os_MkdirAll (path : string) : option error :=
  fault P OpMkdirAll path.

Definition os_WriteFile (fs : gmap string (list Byte.byte)) (path : string)
    (data : list Byte.byte) : option error * gmap string (list Byte.byte) :=
  match fault P OpWriteFile path with
  | Some e => (Some e, fs)
  | None => (None, <[path := data]> fs)
  end.

Definition os_ReadFile (fs : gmap string (list Byte.byte)) (path : string)
    : result error (list Byte.byte) :=
  match fault P OpReadFile path with
  | Some e => Err e
  | None =>
      match fs !! path with
      | Some data => Ok data
      | None => Err (NotExist "open" path)
      end
  end.

Definition os_Remove (fs : gmap string (list Byte.byte)) (path : string)
    : option error * gmap string (list Byte.byte) :=
  match fault P OpRemove path with
  | Some e => (Some e, fs)
  | None =>
      match fs !! path with
      | Some _ => (None, delete path fs)
      | None => (Some (NotExist "remove" path), fs)
      end
  end.

Definition os_Rename (fs : gmap string (list Byte.byte))
    (oldPath newPath : string)
    : option error * gmap string (list Byte.byte) :=
  match fault P OpRename oldPath with
  | Some e => (Some e, fs)
  | None =>
      match fs !! oldPath with
      | Some data => (None, <[newPath := data]> (delete oldPath fs))
      | None => (Some (NotExist "rename" oldPath), fs)
      end
  end.

(** [os.OpenFile(path, flags, 0644)] followed, when it succeeds, by the
    state of the file: [create] is [O_CREATE], [trunc] is [O_TRUNC]. *)
Definition os_OpenFile (fs : gmap string (list Byte.byte)) (path : string)
    (create trunc : bool) : option error * gmap string (list Byte.byte) :=
  match fault P OpOpenFile path with
  | Some e => (Some e, fs)
  | None =>
      match fs !! path with
      | Some data => (None, if trunc then <[path := []]> fs else fs)
      | None =>
          if create then (None, <[path := []]> fs)
          else (Some (NotExist "open" path), fs)
      end
  end.

(** [file.Truncate(size)] on the open file at [path]: the content is cut or
    padded with zero bytes. *)
Definition File_Truncate (fs : gmap string (list Byte.byte)) (path : string)
    (size : Z) : option error * gmap string (list Byte.byte) :=
  match fault P OpTruncate path with
  | Some e => (Some e, fs)
  | None =>
      if size <? 0 then
        (Some (Plain ("truncate " +:+ path +:+ ": invalid argument")), fs)
      else
        (None,
         <[path := resize (Z.to_nat size) Byte.x00
                     (default [] (fs !! path))]> fs)
  end.

(** *** utils/fs.go *)

Definition EnsureDir (path : string) : option error :=
  os_MkdirAll (filepath_Dir P path).

Definition GetFileSize (fs : gmap string (list Byte.byte)) (path : string)
    : result error Z := os_Stat fs path.

Definition AtomicRename (fs : gmap string (list Byte.byte))
    (oldPath newPath : string) := os_Rename fs oldPath newPath.

Definition FileExists (fs : gmap string (list Byte.byte)) (path : string)
    : bool :=
  match os_Stat fs path with
  | Err e => negb (IsNotExist e)
  | Ok _ => true
  end.

(** [DetectPartialDownload]: [(exists, size, err)]. *)
Definition DetectPartialDownload (fs : gmap string (list Byte.byte))
    (outputPath : string) : bool * Z * option error :=
  let partPath := outputPath +:+ ".part" in
  match os_Stat fs partPath with
  | Err e => if IsNotExist e then (false, 0, None) else (false, 0, Some e)
  | Ok size => (true, size, None)
  end.

Definition ValidatePartialFile (fs : gmap string (list Byte.byte))
    (partPath : string) (expectedSize : Z) : option error :=
  match os_Stat fs partPath with
  | Err e => Some e
  | Ok size =>
      if size >? expectedSize then
        Some (Plain ("partial file size (" +:+ sprint_d size
                       +:+ ") exceeds expected size ("
                       +:+ sprint_d expectedSize +:+ ")"))
      else
        match fst (os_OpenFile fs partPath false false) with
        | Some e => Some (Wrap "cannot access partial file: " e)
        | None => None
        end
  end.

Definition CreatePartialFile (fs : gmap string (list Byte.byte))
    (partPath : string) (size : Z)
    : option error * gmap string (list Byte.byte) :=
  match os_OpenFile fs partPath true true with
  | (Some e, fs) => (Some (Wrap "failed to create partial file: " e), fs)
  | (None, fs) =>
      match File_Truncate fs partPath size with
      | (Some e, fs) => (Some (Wrap "failed to allocate file space: " e), fs)
      | (None, fs) => (None, fs)
      end
  end.

(** *** downloader/planner.go: resume metadata on disk *)

Definition json_MarshalIndent (r : ResumeMetadata)
    : result error (list Byte.byte) :=
  match JSONCodec.encode_ResumeMetadata (time_MarshalJSON P) r with
  | Ok v => Ok (json_encode_indent P v)
  | Err e => Err e
  end.

Definition json_Unmarshal (data : list Byte.byte)
    : result error ResumeMetadata :=
  match json_decode P data with
  | Ok v => JSONCodec.decode_ResumeMetadata (time_UnmarshalJSON P) v
  | Err e => Err e
  end.

(** [SaveResumeMetadata]; [now1] and [now2] are its two [time.Now()]. *)
Definition SaveResumeMetadata (fs : gmap string (list Byte.byte))
    (outputPath : string) (meta : option FileMetadata)
    (segments : list SegmentInfo) (now1 now2 : Time)
    : option error * gmap string (list Byte.byte) :=
  let resumeData :=
    {| RFileMetadata := meta; Segments := segments;
       CreatedAt := now1; LastUpdate := now2 |} in
  let metadataPath := outputPath +:+ ResumeMetadataExt in
  match os_MkdirAll (filepath_Dir P metadataPath) with
  | Some e => (Some (Wrap "failed to create metadata directory: " e), fs)
  | None =>
      match json_MarshalIndent resumeData with
      | Err e => (Some (Wrap "failed to marshal resume metadata: " e), fs)
      | Ok data =>
          match os_WriteFile fs metadataPath data with
          | (Some e, fs) =>
              (Some (Wrap "failed to write resume metadata: " e), fs)
          | (None, fs) => (None, fs)
          end
      end
  end.

Definition LoadResumeMetadata (fs : gmap string (list Byte.byte))
    (outputPath : string) : result error ResumeMetadata :=
  let metadataPath := outputPath +:+ ResumeMetadataExt in
  let missing :=
    match os_Stat fs metadataPath with
    | Err e => IsNotExist e
    | Ok _ => false
    end in
  if missing then
    Err (Plain ("resume metadata not found: " +:+ metadataPath))
  else
    match os_ReadFile fs metadataPath with
    | Err e => Err (Wrap "failed to read resume metadata: " e)
    | Ok data =>
        match json_Unmarshal data with
        | Err e => Err (Wrap "failed to unmarshal resume metadata: " e)
        | Ok resumeData => Ok resumeData
        end
    end.

Definition saveResumeMetadataStruct (fs : gmap string (list Byte.byte))
    (outputPath : string) (resumeData : ResumeMetadata)
    : option error * gmap string (list Byte.byte) :=
  let metadataPath := outputPath +:+ ResumeMetadataExt in
  match json_MarshalIndent resumeData with
  | Err e => (Some (Wrap "failed to marshal resume metadata: " e), fs)
  | Ok data =>
      match os_WriteFile fs metadataPath data with
      | (Some e, fs) => (Some (Wrap "failed to write resume metadata: " e), fs)
      | (None, fs) => (None, fs)
      end
  end.

Definition set_Completed (s : SegmentInfo) (completed : bool) : SegmentInfo :=
  mkSegmentInfo (Index s) (Start s) (End_ s) completed (Retries s).

Definition UpdateSegmentProgress (fs : gmap string (list Byte.byte))
    (outputPath : string) (segmentIndex : Z) (completed : bool) (now : Time)
    : option error * gmap string (list Byte.byte) :=
  match LoadResumeMetadata fs outputPath with
  | Err e => (Some (Wrap "failed to load resume metadata: " e), fs)
  | Ok resumeData =>
      if (segmentIndex <? 0)
         || (segmentIndex >=? Z.of_nat (length (Segments resumeData)))
      then
        (Some (Plain ("invalid segment index: " +:+ sprint_d segmentIndex)),
         fs)
      else
        let i := Z.to_nat segmentIndex in
        let segments' :=
          alter (fun s => set_Completed s completed) i
            (Segments resumeData) in
        saveResumeMetadataStruct fs outputPath
          (mkResumeMetadata (RFileMetadata resumeData) segments'
             (CreatedAt resumeData) now)
  end.

Definition incr_Retries (s : SegmentInfo) : SegmentInfo :=
  mkSegmentInfo (Index s) (Start s) (End_ s) (Completed s)
    (add64 (Retries s) 1).

Definition IncrementSegmentRetries (fs : gmap string (list Byte.byte))
    (outputPath : string) (segmentIndex : Z) (now : Time)
    : option error * gmap string (list Byte.byte) :=
  match LoadResumeMetadata fs outputPath with
  | Err e => (Some (Wrap "failed to load resume metadata: " e), fs)
  | Ok resumeData =>
      if (segmentIndex <? 0)
         || (segmentIndex >=? Z.of_nat (length (Segments resumeData)))
      then
        (Some (Plain ("invalid segment index: " +:+ sprint_d segmentIndex)),
         fs)
      else
        let i := Z.to_nat segmentIndex in
        let segments' := alter incr_Retries i (Segments resumeData) in
        saveResumeMetadataStruct fs outputPath
          (mkResumeMetadata (RFileMetadata resumeData) segments'
             (CreatedAt resumeData) now)
  end.

(** How [RecoverFromNetworkInterruption] ends: with an error, or with [nil]
    after sleeping [backoffDelay]; it panics if it indexes the segments out
    of range. *)
Inductive Recovery : Type :=
| RecoverError (err : error)
| RecoverSlept (backoffDelay : Z)
| RecoverPanic.

Definition RecoverFromNetworkInterruption
    (fs : gmap string (list Byte.byte)) (outputPath : string)
    (segmentIndex : Z) (err : error) (now : Time)
    : Recovery * gmap string (list Byte.byte) :=
  match IncrementSegmentRetries fs outputPath segmentIndex now with
  | (Some retryErr, fs) =>
      (RecoverError (Wrap "failed to update retry count: " retryErr), fs)
  | (None, fs) =>
      match LoadResumeMetadata fs outputPath with
      | Err loadErr =>
          (RecoverError
             (Wrap "failed to load resume data for recovery: " loadErr), fs)
      | Ok resumeData =>
          if segmentIndex >=? Z.of_nat (length (Segments resumeData)) then
            (RecoverError
               (Plain ("invalid segment index for recovery: "
                         +:+ sprint_d segmentIndex)), fs)
          else if segmentIndex <? 0 then (RecoverPanic, fs)
          else
            match Segments resumeData !! Z.to_nat segmentIndex with
            | None => (RecoverPanic, fs)
            | Some segment =>
                let maxRetries := 5 in
                if Retries segment >=? maxRetries then
                  (RecoverError
                     (Wrap ("segment " +:+ sprint_d segmentIndex
                              +:+ " exceeded maximum retries ("
                              +:+ sprint_d maxRetries +:+ "): ") err), fs)
                else
                  let backoffDelay :=
                    mul64 (mul64 (Retries segment) (Retries segment)) Second in
                  let backoffDelay :=
                    if backoffDelay >? 30 * Second then 30 * Second
                    else backoffDelay in
                  (RecoverSlept backoffDelay, fs)
            end
      end
  end.

Definition CleanupResumeMetadata (fs : gmap string (list Byte.byte))
    (outputPath : string) : option error * gmap string (list Byte.byte) :=
  let metadataPath := outputPath +:+ ResumeMetadataExt in
  match os_Remove fs metadataPath with
  | (Some e, fs) =>
      if negb (IsNotExist e)
      then (Some (Wrap "failed to cleanup resume metadata: " e), fs)
      else (None, fs)
  | (None, fs) => (None, fs)
  end.

(** What [DetectResumableDownload] does: it returns [(nil, nil)], a resume
    record, or an error; it panics when the metadata parses to a record
    without file metadata, whose size it then reads through a nil pointer. *)
Inductive Detected : Type :=
| DetectNone
| DetectResume (resumeData : ResumeMetadata)
| DetectError (err : error)
| DetectPanic.

Definition DetectResumableDownload (fs : gmap string (list Byte.byte))
    (outputPath : string) : Detected * gmap string (list Byte.byte) :=
  let metadataPath := outputPath +:+ ResumeMetadataExt in
  let partPath := outputPath +:+ ".part" in
  let missing (path : string) :=
    match os_Stat fs path with
    | Err e => IsNotExist e
    | Ok _ => false
    end in
  if missing metadataPath then (DetectNone, fs)
  else if missing partPath then
    (DetectNone, snd (os_Remove fs metadataPath))
  else
    match LoadResumeMetadata fs outputPath with
    | Err e =>
        let fs := snd (os_Remove fs metadataPath) in
        let fs := snd (os_Remove fs partPath) in
        (DetectError (Wrap "invalid resume metadata, cleaned up: " e), fs)
    | Ok resumeData =>
        match os_Stat fs partPath with
        | Err e => (DetectError (Wrap "failed to stat part file: " e), fs)
        | Ok partSize =>
            match RFileMetadata resumeData with
            | None => (DetectPanic, fs)
            | Some fm =>
                let expectedSize := Size fm in
                if partSize >? expectedSize then
                  let fs := snd (os_Remove fs metadataPath) in
                  let fs := snd (os_Remove fs partPath) in
                  (DetectError
                     (Plain "part file size exceeds expected size, cleaned up"),
                   fs)
                else (DetectResume resumeData, fs)
            end
        end
    end.

(** [ValidateResumeCompatibility]; [now] is read by [time.Since]. *)
Definition ValidateResumeCompatibility (resumeData : ResumeMetadata)
    (currentMeta : FileMetadata) (now : Time) : option error :=
  match RFileMetadata resumeData with
  | None => Some (Plain "resume metadata missing file information")
  | Some fm =>
      if negb (Size fm =? Size currentMeta) then
        Some (Plain ("file size changed: resume=" +:+ sprint_d (Size fm)
                       +:+ ", current=" +:+ sprint_d (Size currentMeta)))
      else
        let maxAge := 7 * 24 * (3600 * Second) in
        if Time_Sub now (LastUpdate resumeData) >? maxAge then
          Some (Plain "resume data is too old")
        else None
  end.

End Disk.
End Disk.

(** ** Download coordinator (downloader/engine.go)

    The coordinator is sequential code over the file system; what its worker
    pool does is an input.  For the pool of the [k]-th call of
    [executeDownload], [poolResults] is the sequence of results the
    [results] channel delivers before it is closed (any sequence: every
    schedule of the workers is covered), and [poolWrites] is what the workers
    have made of the part file.  [clock] gives the successive readings of
    [time.Now()].

    A computation returns a value or stops with an error or a panic, changes
    the state, and emits the events it performs, in order. *)

Module Engine.
Import Disk.

Inductive Event : Type :=
| EvPoolStart (k : Z)
| EvCancel (k : Z)
| EvRename (oldPath newPath : string)
| EvJoin (k : Z)
| EvClosePart (k : Z)
| EvVerify (path : string)
| EvCleanup (path : string).

Inductive Exit : Type :=
| Failed (e : error)
| Panicked.

Record State : Type := mkState {
  files : gmap string (list Byte.byte);
  ticks : nat
}.

Record PoolEnv : Type := mkPoolEnv {
  poolResults : list Worker.DownloadResult;
  poolWrites : list Byte.byte -> list Byte.byte
}.

Record EngineEnv : Type := mkEngineEnv {
  clock : nat -> Time;
  pools : Z -> PoolEnv
}.

Definition M (A : Type) : Type := State -> result Exit A * State * list Event.

Definition ret {A} (a : A) : M A := fun s => (Ok a, s, []).

Definition bind {A B} (m : M A) (k : A -> M B) : M B :=
  fun s =>
    match m s with
    | (Ok a, s1, e1) => let '(r, s2, e2) := k a s1 in (r, s2, e1 ++ e2)
    | (Err x, s1, e1) => (Err x, s1, e1)
    end.

Definition fail {A} (e : error) : M A := fun s => (Err (Failed e), s, []).
Definition panic {A} : M A := fun s => (Err Panicked, s, []).
Definition emit (ev : Event) : M unit := fun s => (Ok tt, s, [ev]).

(** [defer cleanup; body]: [cleanup] runs when [body] is left, however it
    is left. *)
Definition defer {A} (cleanup : M unit) (body : M A) : M A :=
  fun s =>
    let '(r, s1, e1) := body s in
    let '(_, s2, e2) := cleanup s1 in
    (r, s2, e1 ++ e2).

(** [err := m]: the error of [m] as a value. *)
Definition try {A} (m : M A) : M (result error A) :=
  fun s =>
    match m s with
    | (Ok a, s1, e1) => (Ok (Ok a), s1, e1)
    | (Err (Failed e), s1, e1) => (Ok (Err e), s1, e1)
    | (Err Panicked, s1, e1) => (Err Panicked, s1, e1)
    end.

Definition on_files {A}
    (f : gmap string (list Byte.byte) -> A * gmap string (list Byte.byte))
    : M A :=
  fun s => let '(a, fs) := f (files s) in (Ok a, mkState fs (ticks s), []).

Definition read_files {A} (f : gmap string (list Byte.byte) -> A) : M A :=
  fun s => (Ok (f (files s)), s, []).

Declare Scope engine_scope.
Delimit Scope engine_scope with engine.
Notation "'let*' x ':=' m 'in' k" := (bind m (fun x => k))
  (at level 10, x name, m at level 100, k at level 200) : engine_scope.
Local Open Scope engine_scope.

Section Coordinator.
Variable P : Platform.
Variable env : EngineEnv.

(** [time.Now()] *)
Definition now : M Time :=
  fun s => (Ok (clock env (ticks s)), mkState (files s) (S (ticks s)), []).

Definition PlanError_error (e : PlanError) : error :=
  match e with
  | PlanNilMetadata => Plain "file metadata cannot be nil"
  | PlanNilConfig => Plain "download config cannot be nil"
  | PlanResumeMissingFileInfo =>
      Plain "resume metadata missing file information"
  | PlanSizeMismatch expected got =>
      Plain ("file size mismatch: expected " +:+ sprint_d expected
               +:+ ", got " +:+ sprint_d got)
  | PlanFilenameMismatch expected got =>
      Plain ("filename mismatch: expected " +:+ expected +:+ ", got " +:+ got)
  end.

Definition verifyFileIntegrity (filePath : string) (expectedSize : Z)
    : M unit :=
  let* _ := emit (EvVerify filePath) in
  let* r := read_files (fun fs => GetFileSize P fs filePath) in
  match r with
  | Err e => fail (Wrap "failed to get file size: " e)
  | Ok actualSize =>
      if negb (actualSize =? expectedSize) then
        fail (Plain ("file size mismatch: expected " +:+ sprint_d expectedSize
                       +:+ " bytes, got " +:+ sprint_d actualSize
                       +:+ " bytes"))
      else ret tt
  end.

Definition len (s : string) : Z := Z.of_nat (String.length s).

(** [containsError(s, substr)] *)
Definition containsError (s substr : string) : bool :=
  (len s >=? len substr)
  && (String.eqb s substr
      || ((len s >? len substr)
          && (String.eqb (substring 0 (String.length substr) s) substr
              || String.eqb
                   (substring (String.length s - String.length substr)
                      (String.length substr) s) substr
              || Worker.containsErrorSubstring s substr))).

Definition isRecoverableError (err : error) : bool :=
  match err with
  | Terabox e => IsRetryable e
  | _ =>
      let errStr := error_Error err in
      existsb (containsError errStr)
        [ "connection reset"; "connection refused"; "timeout";
          "temporary failure"; "network is unreachable"; "no route to host";
          "broken pipe"; "context deadline exceeded" ]
  end.

(** The [for result := range pool.results] loop of [executeDownload] for
    pool [k]; the end of the list is the closed channel. *)
Fixpoint process_results (k : Z) (outputPath : string)
    (results : list Worker.DownloadResult)
    (completedSegments expectedSegments : Z) : M unit :=
  match results with
  | [] => ret tt
  | result :: rest =>
      match Worker.RError result with
      | Some e =>
          let* _ := emit (EvCancel k) in
          fail (Wrap ("segment " +:+ sprint_d (Worker.SegmentIndex result)
                        +:+ " download failed: ") e)
      | None =>
          let* completedSegments :=
            (if Worker.RCompleted result then
               let* t := now in
               let* _ :=
                 on_files (fun fs =>
                   UpdateSegmentProgress P fs outputPath
                     (Worker.SegmentIndex result) true t) in
               ret (add64 completedSegments 1)
             else ret completedSegments) in
          if completedSegments >=? expectedSegments then ret tt
          else process_results k outputPath rest completedSegments
                 expectedSegments
      end
  end.

(** What the workers of pool [k] have made of the part file. *)
Definition pool_writes (k : Z) (partPath : string) : M unit :=
  on_files (fun fs =>
    (tt, match fs !! partPath with
         | Some data => <[partPath := poolWrites (pools env k) data]> fs
         | None => fs
         end)).

(** [executeDownload], the [k]-th one of a download.  Its three [defer]s
    are [partFile.Close()], [pool.shutdown()] (which cancels the pool and
    waits for the workers) and the end of the progress display, which has no
    effect here. *)
Definition executeDownload (k : Z) (meta : FileMetadata)
    (segments : list SegmentInfo) (outputPath partPath : string)
    (config : DownloadConfig) : M unit :=
  let* oe := on_files (fun fs => os_OpenFile P fs partPath true false) in
  match oe with
  | Some e => fail (Wrap "failed to create part file: " e)
  | None =>
      defer (emit (EvClosePart k))
        (let* oe :=
           on_files (fun fs => File_Truncate P fs partPath (Size meta)) in
         match oe with
         | Some e => fail (Wrap "failed to set part file size: " e)
         | None =>
             (* createWorkerPool: make(chan DownloadJob, workers*2) *)
             if mul64 (Threads config) 2 <? 0 then panic
             else
               defer (emit (EvJoin k))
                 (let* _ := emit (EvPoolStart k) in
                  let* _ := pool_writes k partPath in
                  let completedSegments :=
                    Z.of_nat (length (filter (fun s => Completed s = true)
                                        segments)) in
                  let expectedSegments := Z.of_nat (length segments) in
                  let* _ :=
                    process_results k outputPath (poolResults (pools env k))
                      completedSegments expectedSegments in
                  let* oe :=
                    on_files (fun fs =>
                      AtomicRename P fs partPath outputPath) in
                  match oe with
                  | Some e =>
                      fail (Wrap "failed to rename part file to final file: "
                              e)
                  | None => emit (EvRename partPath outputPath)
                  end)
         end)
  end.

(** The loop of [executeDownloadWithRetry], [maxGlobalRetries = 3]. *)
Fixpoint executeDownloadWithRetry_loop (fuel : nat) (attempt : Z)
    (meta : FileMetadata) (segments : list SegmentInfo)
    (outputPath partPath : string) (config : DownloadConfig) : M unit :=
  let maxGlobalRetries := 3 in
  let exhausted :=
    fail (Plain ("download failed after " +:+ sprint_d maxGlobalRetries
                   +:+ " attempts")) in
  match fuel with
  | O => exhausted
  | S fuel' =>
      if negb (attempt <? maxGlobalRetries) then exhausted
      else
        let* r :=
          try (executeDownload attempt meta segments outputPath partPath
                 config) in
        match r with
        | Ok _ => ret tt
        | Err err =>
            if negb (isRecoverableError err) then fail err
            else
              let* segments :=
                (if attempt <? maxGlobalRetries - 1 then
                   let* r :=
                     read_files (fun fs =>
                       LoadResumeMetadata P fs outputPath) in
                   ret (match r with
                        | Ok resumeData => Segments resumeData
                        | Err _ => segments
                        end)
                 else ret segments) in
              executeDownloadWithRetry_loop fuel' (add64 attempt 1) meta
                segments outputPath partPath config
        end
  end.

Definition executeDownloadWithRetry (meta : FileMetadata)
    (segments : list SegmentInfo) (outputPath partPath : string)
    (config : DownloadConfig) : M unit :=
  executeDownloadWithRetry_loop 3 0 meta segments outputPath partPath config.

Definition set_ResumeData (config : DownloadConfig)
    (r : option ResumeMetadata) : DownloadConfig :=
  mkDownloadConfig (OutputPath config) (Threads config) (RateLimit config)
    (ProxyURL config) (Quiet config) r.

(** The part of [Download] that looks for a download to resume: the resume
    record it keeps, if any, and the configuration, whose [ResumeData] it
    sets when it resumes. *)
Definition detect_resume (meta : FileMetadata) (config : DownloadConfig)
    (outputPath : string) : M (option ResumeMetadata * DownloadConfig) :=
  let* d := on_files (fun fs => DetectResumableDownload P fs outputPath) in
  let* resumeData :=
    match d with
    | DetectPanic => panic
    | DetectResume r => ret (Some r)
    | DetectNone | DetectError _ => ret None
    end in
  match resumeData with
  | None => ret (None, config)
  | Some r =>
      let* t := now in
      match ValidateResumeCompatibility r meta t with
      | Some _ =>
          let* _ :=
            on_files (fun fs => CleanupResumeMetadata P fs outputPath) in
          let* _ :=
            on_files (fun fs => os_Remove P fs (outputPath +:+ ".part")) in
          ret (None, config)
      | None => ret (Some r, set_ResumeData config (Some r))
      end
  end.

(** The end of [Download], once the part file and the resume metadata are
    in place. *)
Definition download_and_finish (meta : FileMetadata)
    (segments : list SegmentInfo) (outputPath partPath : string)
    (config : DownloadConfig) : M unit :=
  let* r :=
    try (executeDownloadWithRetry meta segments outputPath partPath config) in
  match r with
  | Err e => fail (Wrap "download failed: " e)
  | Ok _ =>
      let* r := try (verifyFileIntegrity outputPath (Size meta)) in
      match r with
      | Err e => fail (Wrap "file integrity verification failed: " e)
      | Ok _ =>
          let* _ := emit (EvCleanup outputPath) in
          let* _ :=
            on_files (fun fs => CleanupResumeMetadata P fs outputPath) in
          ret tt
      end
  end.

(** [Download] *)
Definition Download (meta : option FileMetadata)
    (config : option DownloadConfig) : M unit :=
  match meta with
  | None => fail (Plain "file metadata cannot be nil")
  | Some meta =>
  match config with
  | None => fail (Plain "download config cannot be nil")
  | Some config =>
      let outputPath :=
        if String.eqb (OutputPath config) "" then Filename meta
        else OutputPath config in
      match EnsureDir P outputPath with
      | Some e => fail (Wrap "failed to create output directory: " e)
      | None =>
          let* rc := detect_resume meta config outputPath in
          let '(resumeData, config) := rc in
          let* segments :=
            match resumeData with
            | Some r => ret (Segments r)
            | None =>
                match PlanDownload NewDownloadPlanner (Some meta)
                        (Some config) with
                | Ok segments => ret segments
                | Err e =>
                    fail (Wrap "failed to plan download: " (PlanError_error e))
                end
            end in
          let partPath := outputPath +:+ ".part" in
          let* oe :=
            match resumeData with
            | None =>
                on_files (fun fs => CreatePartialFile P fs partPath (Size meta))
            | Some _ =>
                read_files (fun fs =>
                  ValidatePartialFile P fs partPath (Size meta))
            end in
          match oe with
          | Some e =>
              fail (Wrap (match resumeData with
                          | None => "failed to create part file: "
                          | Some _ => "failed to validate part file: "
                          end) e)
          | None =>
              let* now1 := now in
              let* now2 := now in
              let* oe :=
                on_files (fun fs =>
                  SaveResumeMetadata P fs outputPath (Some meta) segments
                    now1 now2) in
              match oe with
              | Some e => fail (Wrap "failed to save resume metadata: " e)
              | None =>
                  download_and_finish meta segments outputPath partPath config
              end
          end
      end
  end
  end.

End Coordinator.
End Engine.

(** * Part II: properties *)

(** ** Machine integers *)

Lemma wrap64_id z : in_int64 z -> wrap64 z = z.
Proof.
  unfold in_int64, min_int64, max_int64, wrap64. intros H.
  rewrite Z.mod_small; lia.
Qed.

Lemma wrap64_range z : in_int64 (wrap64 z).
Proof.
  unfold in_int64, min_int64, max_int64, wrap64.
  pose proof (Z.mod_pos_bound (z + 2 ^ 63) (2 ^ 64) ltac:(lia)). lia.
Qed.

(** ** Binary64 arithmetic

    What the limiter needs of IEEE 754 arithmetic, from the specification of
    the primitive floats: rounding to nearest never passes a float, so a
    product with a factor of the unit interval does not grow. *)

(** [0 <= x && x <= 1] *)
Definition in_unit (x : float64) : bool :=
  (0 <=? x)%float && (x <=? 1)%float.

Module Binary64.
Import SpecFloat FloatOps.

Lemma fexp_eq e : fexp prec emax e = Z.max (e - 53) (-1074).
Proof. reflexivity. Qed.

Lemma fexp_mono a b : a <= b -> fexp prec emax a <= fexp prec emax b.
Proof. rewrite !fexp_eq. lia. Qed.

Lemma digits2_pos_bounds m :
  2 ^ (Zpos (digits2_pos m) - 1) <= Zpos m < 2 ^ Zpos (digits2_pos m).
Proof.
  induction m as [m IH|m IH|]; simpl digits2_pos.
  - rewrite Pos2Z.inj_succ.
    replace (Z.succ (Zpos (digits2_pos m)) - 1)
      with (Z.succ (Zpos (digits2_pos m) - 1)) by lia.
    rewrite !Z.pow_succ_r by lia. lia.
  - rewrite Pos2Z.inj_succ.
    replace (Z.succ (Zpos (digits2_pos m)) - 1)
      with (Z.succ (Zpos (digits2_pos m) - 1)) by lia.
    rewrite !Z.pow_succ_r by lia. lia.
  - simpl. lia.
Qed.

Lemma pow2_pos k : 0 <= k -> 0 < 2 ^ k.
Proof. intros. apply Z.pow_pos_nonneg; lia. Qed.

Lemma pow2_split a b : 0 <= a -> 0 <= b -> 2 ^ (a + b) = 2 ^ a * 2 ^ b.
Proof. intros. apply Z.pow_add_r; lia. Qed.

(** Magnitudes: a smaller value has no more digits. *)
Lemma mag_le (m : positive) (e : Z) (mX : positive) (eX : Z) :
  e <= eX -> Zpos m <= Zpos mX * 2 ^ (eX - e) ->
  Zpos (digits2_pos m) + e <= Zpos (digits2_pos mX) + eX.
Proof.
  intros He Hv.
  pose proof (digits2_pos_bounds m) as [Hm _].
  pose proof (digits2_pos_bounds mX) as [_ HX].
  assert (H2 : 0 < 2 ^ (eX - e)) by (apply pow2_pos; lia).
  assert (Hlt : 2 ^ (Zpos (digits2_pos m) - 1)
                < 2 ^ (Zpos (digits2_pos mX) + (eX - e))).
  { rewrite pow2_split by lia. nia. }
  apply Z.pow_lt_mono_r_iff in Hlt; lia.
Qed.

Lemma shr_1_spec m r s :
  0 <= m ->
  shr_1 (Build_shr_record m r s) = Build_shr_record (m / 2) (Z.odd m) (r || s).
Proof.
  intros Hm. destruct m as [|p|p]; [reflexivity| |lia].
  destruct p as [p|p|]; simpl shr_1; f_equal.
  - rewrite Pos2Z.inj_xI. apply Z.div_unique with 1; lia.
  - rewrite Pos2Z.inj_xO. apply Z.div_unique with 0; lia.
Qed.

Definition inexact (x : shr_record) : bool := shr_r x || shr_s x.

Definition shifted (k m : Z) (i : bool) (x : shr_record) : Prop :=
  shr_m x = m / 2 ^ k /\
  (inexact x = false <-> (i = false /\ m mod 2 ^ k = 0)).

Lemma mod_mul_zero m b c :
  0 < b -> 0 < c ->
  m mod (b * c) = 0 <-> m mod b = 0 /\ (m / b) mod c = 0.
Proof.
  intros Hb Hc. rewrite Z.rem_mul_r by lia.
  pose proof (Z.mod_pos_bound m b Hb).
  pose proof (Z.mod_pos_bound (m / b) c Hc).
  nia.
Qed.

Lemma shifted_trans a b m i x y :
  0 <= m -> 0 <= a -> 0 <= b ->
  shifted a m i x -> shifted b (shr_m x) (inexact x) y ->
  shifted (a + b) m i y.
Proof.
  intros Hm Ha Hb [Hx1 Hx2] [Hy1 Hy2].
  pose proof (pow2_pos a Ha). pose proof (pow2_pos b Hb).
  split.
  - rewrite Hy1, Hx1, pow2_split by lia. apply Z.div_div; lia.
  - rewrite Hy2, Hx2, Hx1, pow2_split by lia.
    rewrite (mod_mul_zero m) by lia. tauto.
Qed.

Lemma shr_1_shifted x :
  0 <= shr_m x -> shifted 1 (shr_m x) (inexact x) (shr_1 x).
Proof.
  destruct x as [m r s]. simpl shr_m. intros Hm.
  rewrite shr_1_spec by done. unfold shifted, inexact; simpl.
  split; [reflexivity|].
  rewrite orb_false_iff, Zmod_odd.
  destruct (Z.odd m); intuition congruence.
Qed.

Lemma shifted_nonneg k m i x : 0 <= m -> 0 <= k -> shifted k m i x -> 0 <= shr_m x.
Proof.
  intros Hm Hk [-> _]. apply Z.div_pos; [lia|]. by apply pow2_pos.
Qed.

Lemma shr_iter (p : positive) : forall x,
  0 <= shr_m x ->
  shifted (Zpos p) (shr_m x) (inexact x) (iter_pos shr_1 p x).
Proof.
  induction p as [p IH|p IH|]; intros x Hx; simpl iter_pos.
  - pose proof (shr_1_shifted x Hx) as H1.
    pose proof (shifted_nonneg 1 _ _ _ Hx ltac:(lia) H1) as Hx1.
    pose proof (IH _ Hx1) as H2.
    pose proof (shifted_nonneg (Zpos p) _ _ _ Hx1 ltac:(lia) H2) as Hx2.
    pose proof (IH _ Hx2) as H3.
    replace (Zpos p~1) with (1 + Zpos p + Zpos p) by lia.
    eapply shifted_trans; [lia|lia|lia| |exact H3].
    eapply shifted_trans; [lia|lia|lia|exact H1|exact H2].
  - pose proof (IH _ Hx) as H2.
    pose proof (shifted_nonneg (Zpos p) _ _ _ Hx ltac:(lia) H2) as Hx2.
    pose proof (IH _ Hx2) as H3.
    replace (Zpos p~0) with (Zpos p + Zpos p) by lia.
    eapply shifted_trans; [lia|lia|lia|exact H2|exact H3].
  - by apply shr_1_shifted.
Qed.

Lemma shr_spec x e n :
  0 <= shr_m x ->
  exists y, shr x e n = (y, e + Z.max n 0) /\
            shifted (Z.max n 0) (shr_m x) (inexact x) y.
Proof.
  intros Hx.
  assert (H0 : shifted 0 (shr_m x) (inexact x) x).
  { unfold shifted. simpl. rewrite Z.div_1_r, Z.mod_1_r. tauto. }
  destruct n as [|p|p]; simpl shr.
  - exists x. split; [f_equal; lia|exact H0].
  - exists (iter_pos shr_1 p x). split; [f_equal; lia|].
    replace (Z.max (Zpos p) 0) with (Zpos p) by lia. by apply shr_iter.
  - exists x. split; [f_equal; lia|exact H0].
Qed.

Lemma round_nearest_even_bounds m l :
  m <= round_nearest_even m l <= m + 1.
Proof.
  destruct l as [|[| |]]; simpl; try lia. destruct (Z.even m); lia.
Qed.

Lemma round_nearest_even_exact x :
  inexact x = false ->
  round_nearest_even (shr_m x) (loc_of_shr_record x) = shr_m x.
Proof.
  destruct x as [m r s]. unfold inexact. simpl.
  intros [-> ->]%orb_false_iff. reflexivity.
Qed.

(** Rounding to nearest never passes a representable number: a value that
    is at most the float [mX * 2 ^ eX] rounds to a float that is at most
    [mX * 2 ^ eX]. *)
Lemma binary_round_aux_le (s : bool) (m0 : positive) (e0 : Z)
    (mX : positive) (eX : Z) :
  bounded prec emax mX eX = true ->
  e0 <= fexp prec emax (Zpos (digits2_pos m0) + e0) ->
  e0 <= eX ->
  Zpos m0 <= Zpos mX * 2 ^ (eX - e0) ->
  match binary_round_aux prec emax s (Zpos m0) e0 loc_Exact with
  | S754_zero s' => s' = s
  | S754_finite s' m e =>
      s' = s /\ e <= eX /\ Zpos m <= Zpos mX * 2 ^ (eX - e)
  | _ => False
  end.
Proof.
  intros HX Hpre He Hv.
  unfold bounded, canonical_mantissa in HX.
  apply andb_prop in HX as [Hcan Hmax].
  apply Z.eqb_eq in Hcan. apply Z.leb_le in Hmax.
  pose proof (mag_le _ _ _ _ He Hv) as Hmag.
  unfold binary_round_aux, shr_fexp.
  change (Zdigits2 (Zpos m0)) with (Zpos (digits2_pos m0)).
  change (shr_record_of_loc (Zpos m0) loc_Exact)
    with (Build_shr_record (Zpos m0) false false).
  set (e1 := fexp prec emax (Zpos (digits2_pos m0) + e0)) in *.
  assert (He1 : e1 <= eX).
  { rewrite <- Hcan. apply fexp_mono. lia. }
  destruct (shr_spec (Build_shr_record (Zpos m0) false false) e0 (e1 - e0))
    as (x1 & -> & Hm1 & Hex1); [simpl; lia|].
  rewrite Z.max_l in * by lia.
  replace (e0 + (e1 - e0)) with e1 by lia.
  unfold inexact at 2 in Hex1. cbn [shr_m shr_r shr_s orb] in Hm1, Hex1.
  set (m2 := round_nearest_even (shr_m x1) (loc_of_shr_record x1)).
  pose proof (pow2_pos (e1 - e0) ltac:(lia)) as Hp1.
  pose proof (pow2_pos (eX - e1) ltac:(lia)) as Hp2.
  assert (Hm2 : 0 <= m2 <= Zpos mX * 2 ^ (eX - e1)).
  { pose proof (round_nearest_even_bounds (shr_m x1) (loc_of_shr_record x1))
      as Hb. fold m2 in Hb.
    assert (Hv' : Zpos m0 <= Zpos mX * 2 ^ (eX - e1) * 2 ^ (e1 - e0)).
    { rewrite <- Z.mul_assoc, <- pow2_split by lia.
      replace (eX - e1 + (e1 - e0)) with (eX - e0) by lia. exact Hv. }
    assert (H1 : 0 <= shr_m x1 <= Zpos mX * 2 ^ (eX - e1)).
    { rewrite Hm1. split; [apply Z.div_pos; lia|].
      apply Z.div_le_upper_bound; lia. }
    destruct (Z.eq_dec (shr_m x1) (Zpos mX * 2 ^ (eX - e1))) as [Heq|Hne];
      [|lia].
    assert (Hmod : Zpos m0 mod 2 ^ (e1 - e0) = 0).
    { pose proof (Z.div_mod (Zpos m0) (2 ^ (e1 - e0)) ltac:(lia)) as Hdm.
      pose proof (Z.mod_pos_bound (Zpos m0) (2 ^ (e1 - e0)) Hp1).
      rewrite <- Hm1, Heq in Hdm. nia. }
    unfold m2. rewrite round_nearest_even_exact; [lia|].
    apply Hex1. by split. }
  clearbody m2.
  change (shr_record_of_loc m2 loc_Exact) with (Build_shr_record m2 false false).
  destruct (shr_spec (Build_shr_record m2 false false) e1
              (fexp prec emax (Zdigits2 m2 + e1) - e1))
    as (x3 & -> & Hm3 & _); [simpl; lia|].
  cbn [shr_m] in Hm3.
  set (k := Z.max (fexp prec emax (Zdigits2 m2 + e1) - e1) 0) in *.
  assert (Hk0 : 0 <= k) by lia.
  pose proof (pow2_pos k Hk0) as Hpk.
  destruct (shr_m x3) as [|m|m] eqn:E3.
  - reflexivity.
  - destruct m2 as [|q|q].
    + rewrite Z.div_0_l in Hm3 by lia. lia.
    + simpl Zdigits2 in k.
      pose proof (mag_le q e1 mX eX He1 ltac:(lia)) as Hmag2.
      assert (Hk : e1 + k <= eX).
      { unfold k. pose proof (fexp_mono _ _ Hmag2) as Hf. rewrite Hcan in Hf.
        lia. }
      assert (Hle : Zpos m <= Zpos mX * 2 ^ (eX - (e1 + k))).
      { rewrite Hm3. apply Z.div_le_upper_bound; [lia|].
        rewrite (Z.mul_comm (2 ^ k)), <- Z.mul_assoc, <- pow2_split by lia.
        replace (eX - (e1 + k) + k) with (eX - e1) by lia. lia. }
      replace (e1 + k <=? emax - prec) with true
        by (symmetry; apply Z.leb_le; lia).
      done.
    + lia.
  - assert (0 <= m2 / 2 ^ k) by (apply Z.div_pos; lia). lia.
Qed.

(** The exponent of an exact product of two floats is small enough for
    [binary_round_aux]. *)
Lemma mul_exponent (mx : positive) (ex : Z) (my : positive) (ey : Z) :
  bounded prec emax mx ex = true ->
  bounded prec emax my ey = true ->
  ex + ey <= fexp prec emax (Zpos (digits2_pos (mx * my)) + (ex + ey)).
Proof.
  unfold bounded, canonical_mantissa.
  intros [Hx _]%andb_prop [Hy _]%andb_prop.
  apply Z.eqb_eq in Hx, Hy. rewrite fexp_eq in *.
  pose proof (digits2_pos_bounds mx) as [Hx1 Hx2].
  pose proof (digits2_pos_bounds my) as [Hy1 Hy2].
  pose proof (digits2_pos_bounds (mx * my)) as [_ Hxy].
  assert (Hd : Zpos (digits2_pos mx) + Zpos (digits2_pos my) - 1
               <= Zpos (digits2_pos (mx * my))).
  { assert (Hlt : 2 ^ ((Zpos (digits2_pos mx) - 1) + (Zpos (digits2_pos my) - 1))
                  < 2 ^ Zpos (digits2_pos (mx * my))).
    { rewrite pow2_split by lia. rewrite Pos2Z.inj_mul in Hxy. nia. }
    apply Z.pow_lt_mono_r_iff in Hlt; lia. }
  lia.
Qed.

Lemma binary_round_aux_canonical (s : bool) (m : positive) (e : Z) :
  bounded prec emax m e = true ->
  binary_round_aux prec emax s (Zpos m) e loc_Exact = S754_finite s m e.
Proof.
  intros [Hcan Hmax]%andb_prop. apply Z.eqb_eq in Hcan.
  unfold binary_round_aux, shr_fexp.
  change (Zdigits2 (Zpos m)) with (Zpos (digits2_pos m)).
  rewrite Hcan, Z.sub_diag.
  cbn [shr shr_record_of_loc shr_m loc_of_shr_record round_nearest_even
       Zdigits2].
  rewrite Hcan, Z.sub_diag.
  cbn [shr shr_record_of_loc shr_m]. by rewrite Hmax.
Qed.

Lemma digits2_pos_unique (m : positive) (d : Z) :
  2 ^ (d - 1) <= Zpos m < 2 ^ d -> Zpos (digits2_pos m) = d.
Proof.
  intros [H1 H2]. pose proof (digits2_pos_bounds m) as [H3 H4].
  assert (0 < d).
  { destruct (Z.ltb_spec 0 d); [done|].
    assert (2 ^ d <= 2 ^ 0) by (destruct (Z.eq_dec d 0) as [->|]; [done|];
      rewrite Z.pow_neg_r by lia; done). lia. }
  assert (Ha : 2 ^ (d - 1) < 2 ^ Zpos (digits2_pos m)) by lia.
  assert (Hb : 2 ^ (Zpos (digits2_pos m) - 1) < 2 ^ d) by lia.
  apply Z.pow_lt_mono_r_iff in Ha; [|lia|lia].
  apply Z.pow_lt_mono_r_iff in Hb; lia.
Qed.

Lemma iter_xO (n p : positive) : Zpos (Pos.iter xO p n) = Zpos p * 2 ^ Zpos n.
Proof.
  induction n as [|n IH] using Pos.peano_ind.
  - simpl. lia.
  - rewrite Pos.iter_succ, Pos2Z.inj_xO, IH, Pos2Z.inj_succ, Z.pow_succ_r by lia.
    lia.
Qed.

Lemma bounded_canonical (m : positive) (e d : Z) :
  2 ^ (d - 1) <= Zpos m < 2 ^ d -> e = Z.max (d + e - 53) (-1074) ->
  e <= 971 -> bounded prec emax m e = true.
Proof.
  intros Hd He Hmax. unfold bounded, canonical_mantissa.
  rewrite (digits2_pos_unique m d Hd), fexp_eq.
  apply andb_true_intro. split; [apply Z.eqb_eq; lia|apply Z.leb_le].
  unfold emax, prec. lia.
Qed.

(** Integers below [2 ^ 53] convert exactly. *)
Lemma float64_of_int_exact (n : Z) :
  0 < n < 2 ^ 53 ->
  exists m e,
    Prim2SF (float64_of_int n) = S754_finite false m e /\
    bounded prec emax m e = true /\ e <= 0 /\ Zpos m = n * 2 ^ (- e).
Proof.
  intros Hn. destruct n as [|p|p]; [lia| |lia].
  pose proof (digits2_pos_bounds p) as Hd.
  set (d := Zpos (digits2_pos p)) in *.
  assert (Hd53 : 1 <= d <= 53).
  { split; [unfold d; lia|].
    destruct Hd as [Hd _].
    assert (Hlt : 2 ^ (d - 1) < 2 ^ 53) by lia.
    apply Z.pow_lt_mono_r_iff in Hlt; lia. }
  unfold float64_of_int, binary_normalize, binary_round.
  fold d. rewrite fexp_eq, Z.add_0_r, Z.max_l by lia.
  unfold shl_align. rewrite Z.sub_0_r.
  destruct (d - 53) as [|k|k] eqn:Ek; [|lia|].
  - assert (Hb : bounded prec emax p 0 = true).
    { apply (bounded_canonical p 0 d); [done|lia|lia]. }
    rewrite binary_round_aux_canonical by done.
    rewrite FloatAxioms.Prim2SF_SF2Prim by done.
    exists p, 0. repeat split; [done|lia|]. simpl. lia.
  - set (q := Pos.iter xO p k).
    assert (Hq : Zpos q = Zpos p * 2 ^ Zpos k) by apply iter_xO.
    pose proof (pow2_pos (Zpos k) ltac:(lia)).
    assert (Hb : bounded prec emax q (Zneg k) = true).
    { apply (bounded_canonical q (Zneg k) 53); [|lia|lia].
      rewrite Hq. replace (Zpos k) with (53 - d) by lia.
      replace (2 ^ (53 - 1)) with (2 ^ (d - 1) * 2 ^ (53 - d))
        by (rewrite <- pow2_split by lia; f_equal; lia).
      replace (2 ^ 53) with (2 ^ d * 2 ^ (53 - d))
        by (rewrite <- pow2_split by lia; f_equal; lia).
      assert (0 < 2 ^ (53 - d)) by (apply pow2_pos; lia). nia. }
    rewrite binary_round_aux_canonical by done.
    rewrite FloatAxioms.Prim2SF_SF2Prim by done.
    exists q, (Zneg k). repeat split; [done|lia|]. rewrite Hq. done.
Qed.

(** The floats of the unit interval. *)
Definition unit_shape (x : spec_float) : Prop :=
  match x with
  | S754_zero _ => True
  | S754_finite false m e => e <= -52 /\ Zpos m <= 2 ^ (- e)
  | _ => False
  end.

(** The decimal constants are the floats nearest to the decimals. *)
Lemma decimal_constants :
  (float64_of_int 1 / float64_of_int 10)%float = f0_1 /\
  (float64_of_int 8 / float64_of_int 10)%float = f0_8 /\
  (float64_of_int 9 / float64_of_int 10)%float = f0_9 /\
  (float64_of_int 95 / float64_of_int 100)%float = f0_95 /\
  (float64_of_int 105 / float64_of_int 100)%float = f1_05.
Proof. repeat split. Qed.

Lemma Prim2SF_one : Prim2SF 1%float = S754_finite false (2 ^ 52) (-52).
Proof. reflexivity. Qed.

Lemma Prim2SF_zero : Prim2SF 0%float = S754_zero false.
Proof. reflexivity. Qed.

Lemma bounded_digits (m : positive) (e : Z) :
  bounded prec emax m e = true -> Zpos m < 2 ^ 53.
Proof.
  intros [Hcan _]%andb_prop. apply Z.eqb_eq in Hcan. rewrite fexp_eq in Hcan.
  pose proof (digits2_pos_bounds m) as [_ H].
  eapply Z.lt_le_trans; [exact H|]. apply Z.pow_le_mono_r; lia.
Qed.

Lemma SFleb_one (m : positive) (e : Z) :
  SFleb (S754_finite false m e) (S754_finite false (2 ^ 52) (-52)) = true <->
  e < -52 \/ (e = -52 /\ Zpos m <= 2 ^ 52).
Proof.
  unfold SFleb, SFcompare.
  destruct (Z.compare_spec e (-52)) as [->|H|H].
  - rewrite Pos.compare_cont_spec.
    assert (Hp : Zpos (2 ^ 52) = 2 ^ 52) by (by rewrite Pos2Z.inj_pow).
    destruct (Pos.compare_spec m (2 ^ 52)) as [->|H|H]; simpl Pos.switch_Eq;
      (split; [intros ?|intros [?|[_ ?]]]); try done; try lia.
  - split; [lia|done].
  - split; [done|lia].
Qed.

Lemma in_unit_shape (x : float64) :
  in_unit x = true <-> unit_shape (Prim2SF x).
Proof.
  unfold in_unit.
  rewrite !FloatAxioms.leb_spec, Prim2SF_one, Prim2SF_zero.
  pose proof (FloatAxioms.Prim2SF_valid x) as Hv.
  destruct (Prim2SF x) as [s|s| |s m e]; simpl unit_shape.
  - by destruct s.
  - by destruct s.
  - done.
  - destruct s; [done|]. simpl valid_binary in Hv.
    apply bounded_digits in Hv.
    change (SFleb (S754_zero false) (S754_finite false m e)) with true.
    rewrite andb_true_l, SFleb_one. split.
    + intros [H|[-> H]]; [|split; [lia|exact H]].
      split; [lia|]. eapply Z.le_trans; [apply Z.lt_le_incl, Hv|].
      apply Z.pow_le_mono_r; lia.
    + intros [H1 H2].
      destruct (Z.eq_dec e (-52)) as [->|]; [right; by split|left; lia].
Qed.

Lemma SFmul_comm (x y : spec_float) :
  SFmul prec emax x y = SFmul prec emax y x.
Proof.
  destruct x as [sx|sx| |sx mx ex], y as [sy|sy| |sy my ey]; simpl;
    rewrite ?(xorb_comm sx sy); try reflexivity.
  by rewrite Pos.mul_comm, Z.add_comm.
Qed.

(** A product with a float of the unit interval does not grow. *)
Lemma SFmul_le (mx : positive) (ex : Z) (f : spec_float) :
  bounded prec emax mx ex = true ->
  valid_binary prec emax f = true ->
  unit_shape f ->
  match SFmul prec emax (S754_finite false mx ex) f with
  | S754_zero _ => True
  | S754_finite false m e => e <= ex /\ Zpos m <= Zpos mx * 2 ^ (ex - e)
  | _ => False
  end.
Proof.
  intros Hx Hf Hu. destruct f as [s|s| |s m e]; try done.
  destruct s; [done|]. destruct Hu as [He Hm]. simpl valid_binary in Hf.
  simpl SFmul.
  pose proof (binary_round_aux_le false (mx * m) (ex + e) mx ex Hx
                (mul_exponent _ _ _ _ Hx Hf) ltac:(lia)) as H.
  replace (ex - (ex + e)) with (- e) in H by lia.
  rewrite Pos2Z.inj_mul in H. specialize (H ltac:(nia)).
  destruct (binary_round_aux _ _ _ _ _ _) as [s'|s'| |s' m' e']; try done.
  by destruct H as [-> H].
Qed.

Lemma mul_in_unit (x y : float64) :
  in_unit x = true -> in_unit y = true -> in_unit (x * y)%float = true.
Proof.
  rewrite !in_unit_shape, FloatAxioms.mul_spec. unfold FloatAxioms.SF64mul.
  pose proof (FloatAxioms.Prim2SF_valid x) as Hvx.
  pose proof (FloatAxioms.Prim2SF_valid y) as Hvy.
  intros Hx Hy.
  destruct (Prim2SF x) as [sx|sx| |sx mx ex]; try done.
  - destruct (Prim2SF y) as [sy|sy| |sy my ey]; try done.
  - destruct sx; [done|]. destruct Hx as [Hex Hmx].
    pose proof (SFmul_le mx ex _ Hvx Hvy Hy) as H.
    destruct (SFmul _ _ _ _) as [s|s| |s m e]; try done.
    destruct s; [done|]. destruct H as [He Hm]. split; [lia|].
    eapply Z.le_trans; [exact Hm|].
    replace (- e) with (- ex + (ex - e)) by lia.
    rewrite pow2_split by lia.
    apply Z.mul_le_mono_nonneg_r; [|done]. apply Z.lt_le_incl, pow2_pos. lia.
Qed.

Definition nonneg_finite (x : spec_float) : Prop :=
  match x with
  | S754_zero _ | S754_finite false _ _ => True
  | _ => False
  end.

Lemma mul_nonneg_finite (x c : float64) :
  in_unit x = true -> nonneg_finite (Prim2SF c) ->
  nonneg_finite (Prim2SF (x * c)%float).
Proof.
  rewrite in_unit_shape, FloatAxioms.mul_spec. unfold FloatAxioms.SF64mul.
  pose proof (FloatAxioms.Prim2SF_valid x) as Hvx.
  pose proof (FloatAxioms.Prim2SF_valid c) as Hvc.
  intros Hx Hc. rewrite SFmul_comm.
  destruct (Prim2SF c) as [sc|sc| |sc mc ec]; try done.
  - destruct (Prim2SF x) as [sx|sx| |sx mx ex]; try done.
  - destruct sc; [done|].
    pose proof (SFmul_le mc ec _ Hvc Hvx Hx) as H.
    destruct (SFmul _ _ _ _) as [s|s| |s m e]; try done.
    by destruct s.
Qed.

Lemma not_gt_one_in_unit (x : float64) :
  nonneg_finite (Prim2SF x) -> (1 <? x)%float = false ->
  in_unit x = true.
Proof.
  rewrite in_unit_shape, FloatAxioms.ltb_spec, Prim2SF_one.
  pose proof (FloatAxioms.Prim2SF_valid x) as Hv.
  destruct (Prim2SF x) as [s|s| |s m e]; try done.
  destruct s; [done|]. intros _. simpl valid_binary in Hv.
  apply bounded_digits in Hv.
  unfold SFltb, SFcompare, unit_shape.
  destruct (Z.compare_spec (-52) e) as [<-|H|H]; [|done|].
  - rewrite Pos.compare_cont_spec.
    assert (Hp : Zpos (2 ^ 52) = 2 ^ 52) by (by rewrite Pos2Z.inj_pow).
    destruct (Pos.compare_spec (2 ^ 52) m) as [<-|H|H]; simpl Pos.switch_Eq;
      intros ?; try done; (split; [lia|]); simpl; lia.
  - intros _. split; [lia|].
    eapply Z.le_trans; [apply Z.lt_le_incl, Hv|].
    apply Z.pow_le_mono_r; lia.
Qed.

Lemma int64_of_spec_le (o : Z) (mx : positive) (ex : Z) (x : spec_float) :
  0 < o <= 2 ^ 53 ->
  (ex <= 0 /\ Zpos mx = o * 2 ^ (- ex)) \/ (ex = 1 /\ o = Zpos mx * 2) ->
  match x with
  | S754_zero _ => True
  | S754_finite false m e => e <= ex /\ Zpos m <= Zpos mx * 2 ^ (ex - e)
  | _ => False
  end ->
  0 <= match x with
       | S754_zero _ => 0
       | S754_finite s m e =>
           let v := Z.shiftl (Zpos m) e in
           let t := if s then - v else v in
           if (min_int64 <=? t) && (t <=? max_int64) then t else min_int64
       | _ => min_int64
       end <= o.
Proof.
  intros Ho HX Hx. destruct x as [s|s| |s m e]; try done; [lia|].
  destruct s; [done|]. destruct Hx as [He Hm]. cbv zeta.
  assert (Hv : 0 <= Z.shiftl (Zpos m) e <= o).
  { destruct HX as [[Hex Hmx]|[-> ->]].
    - rewrite Z.shiftl_div_pow2 by lia.
      pose proof (pow2_pos (- e) ltac:(lia)).
      split; [apply Z.div_pos; lia|].
      apply Z.div_le_upper_bound; [lia|].
      eapply Z.le_trans; [exact Hm|]. rewrite Hmx, <- Z.mul_assoc.
      rewrite <- pow2_split by lia.
      replace (- ex + (ex - e)) with (- e) by lia. lia.
    - destruct (Z.eq_dec e 1) as [->|].
      + rewrite Z.shiftl_mul_pow2 by lia. simpl in Hm. lia.
      + rewrite Z.shiftl_div_pow2 by lia.
        pose proof (pow2_pos (- e) ltac:(lia)).
        split; [apply Z.div_pos; lia|].
        apply Z.div_le_upper_bound; [lia|].
        eapply Z.le_trans; [exact Hm|].
        replace (1 - e) with (1 + - e) by lia.
        rewrite pow2_split by lia. simpl (2 ^ 1). lia. }
  replace ((min_int64 <=? _) && (_ <=? max_int64)) with true; [done|].
  symmetry. apply andb_true_intro.
  unfold min_int64, max_int64. split; [apply Z.leb_le|apply Z.leb_le]; lia.
Qed.

(** The rate computed from an adjustment factor of the unit interval. *)
Lemma int64_of_float64_scale (o : Z) (f : float64) :
  0 <= o <= 2 ^ 53 -> in_unit f = true ->
  0 <= int64_of_float64 (float64_of_int o * f)%float <= o.
Proof.
  intros Ho Hf. apply in_unit_shape in Hf.
  pose proof (FloatAxioms.Prim2SF_valid f) as Hvf.
  unfold int64_of_float64.
  rewrite FloatAxioms.mul_spec. unfold FloatAxioms.SF64mul.
  destruct (Z.eq_dec o 0) as [->|Hne].
  { change (Prim2SF (float64_of_int 0)) with (S754_zero false).
    destruct (Prim2SF f) as [s|s| |s m e]; try done; by destruct s. }
  destruct (Z.eq_dec o (2 ^ 53)) as [->|Hne'].
  { change (Prim2SF (float64_of_int (2 ^ 53)))
      with (S754_finite false (2 ^ 52) 1).
    apply (int64_of_spec_le (2 ^ 53) (2 ^ 52) 1); [lia|by right|].
    by apply SFmul_le. }
  destruct (float64_of_int_exact o ltac:(lia)) as (mx & ex & -> & Hb & Hex & Hmx).
  apply (int64_of_spec_le o mx ex); [lia|by left|].
  by apply SFmul_le.
Qed.

End Binary64.

(** ** Properties of the segment planner *)

Definition seg_len (s : SegmentInfo) : Z := End_ s - Start s + 1.

Definition total_len (segs : list SegmentInfo) : Z :=
  foldr (fun s acc => seg_len s + acc) 0 segs.

(** What it means for a segment list to partition [[0, size)] contiguously,
    in index order. *)
Record partitions (size : Z) (segs : list SegmentInfo) : Prop := {
  part_zero : size = 0 -> segs = [];
  part_first : forall s, head segs = Some s -> Start s = 0;
  part_next : forall (i : nat) s t,
      segs !! i = Some s -> segs !! S i = Some t -> Start t = End_ s + 1;
  part_last : forall s, last segs = Some s -> End_ s = size - 1;
  part_index : forall (i : nat) s, segs !! i = Some s -> Index s = Z.of_nat i;
  part_wf : forall (i : nat) s, segs !! i = Some s -> 0 <= Start s <= End_ s;
  part_sum : total_len segs = size;
  part_min : MinSegmentSize <= size ->
      forall (i : nat) s, segs !! i = Some s -> (S i < length segs)%nat ->
      MinSegmentSize <= seg_len s
}.

Section Segments.
Variables threadCount segmentSize fileSize : Z.

(** Segment [j] as the loop builds it, without wrap-around. *)
Definition seg_at (j : Z) : SegmentInfo :=
  {| Index := j; Start := j * segmentSize;
     End_ := if j =? threadCount - 1 then fileSize - 1
             else j * segmentSize + segmentSize - 1;
     Completed := false; Retries := 0 |}.

Fixpoint segs_from (n : nat) (i : Z) : list SegmentInfo :=
  match n with
  | O => []
  | S n' => seg_at i :: segs_from n' (i + 1)
  end.

Hypothesis Htc : 1 <= threadCount.
Hypothesis Hseg : 1 <= segmentSize.
Hypothesis Hfit : threadCount * segmentSize <= fileSize.
Hypothesis Hmax : fileSize <= max_int64.

Lemma segments_loop_segs_from n i acc :
  0 <= i -> i + Z.of_nat n = threadCount ->
  segments_loop n i threadCount segmentSize fileSize acc = acc ++ segs_from n i.
Proof using Htc Hseg Hfit Hmax.
  revert i acc. induction n as [|n IH]; intros i acc Hi Hn; simpl.
  - by rewrite app_nil_r.
  - assert (Hlt : i < threadCount) by lia.
    apply Z.ltb_lt in Hlt as ->.
    assert (Hb : (i + 1) * segmentSize <= fileSize) by nia.
    assert (Hi0 : 0 <= i * segmentSize) by nia.
    unfold max_int64 in Hmax.
    assert (Hw : forall z, - 1 <= z <= fileSize -> wrap64 z = z).
    { intros z Hz. apply wrap64_id.
      unfold in_int64, min_int64, max_int64. lia. }
    unfold mul64, add64, sub64.
    rewrite (Hw (i * segmentSize)) by lia.
    rewrite (Hw (i * segmentSize + segmentSize)) by lia.
    rewrite (Hw (i * segmentSize + segmentSize - 1)) by lia.
    rewrite (Hw (threadCount - 1)), (Hw (fileSize - 1)), (Hw (i + 1)) by nia.
    rewrite IH by lia.
    rewrite <- app_assoc. reflexivity.
Qed.

Lemma segs_from_length n i : length (segs_from n i) = n.
Proof. revert i. induction n; intros; simpl; auto. Qed.

Lemma segs_from_lookup n i (k : nat) :
  (k < n)%nat -> segs_from n i !! k = Some (seg_at (i + Z.of_nat k)).
Proof.
  revert i k. induction n as [|n IH]; intros i k Hk; [lia|].
  destruct k as [|k]; simpl.
  - by rewrite Z.add_0_r.
  - rewrite IH by lia. f_equal. f_equal. lia.
Qed.

Lemma segs_from_total n i :
  0 <= i -> i + Z.of_nat n = threadCount -> (0 < n)%nat ->
  total_len (segs_from n i) = fileSize - i * segmentSize.
Proof.
  revert i. induction n as [|n IH]; intros i Hi Hn Hpos; [lia|].
  simpl. destruct n as [|n].
  - simpl. unfold seg_len, seg_at; simpl.
    assert (i = threadCount - 1) as -> by lia.
    rewrite Z.eqb_refl. lia.
  - rewrite IH by lia. unfold seg_len, seg_at; simpl.
    destruct (Z.eqb_spec i (threadCount - 1)); lia.
Qed.

Lemma segs_from_partitions :
  (MinSegmentSize <= fileSize -> MinSegmentSize <= segmentSize) ->
  partitions fileSize (segs_from (Z.to_nat threadCount) 0).
Proof using Htc Hseg Hfit Hmax.
  intros Hmin.
  set (n := Z.to_nat threadCount).
  assert (Hn : 0 + Z.of_nat n = threadCount) by (unfold n; lia).
  assert (Hlook : forall (k : nat) s, segs_from n 0 !! k = Some s ->
            (k < n)%nat /\ s = seg_at (Z.of_nat k)).
  { intros k s Hs. pose proof (lookup_lt_Some _ _ _ Hs) as Hk.
    rewrite segs_from_length in Hk. split; [done|].
    rewrite segs_from_lookup in Hs by done. by inversion Hs. }
  split.
  - intros ->. nia.
  - intros s Hs. rewrite head_lookup in Hs.
    apply Hlook in Hs as [_ ->]. simpl. lia.
  - intros i s t Hs Ht. apply Hlook in Hs as [_ ->]. apply Hlook in Ht as [Hk ->].
    simpl. destruct (Z.eqb_spec (Z.of_nat i) (threadCount - 1)); lia.
  - intros s Hs. rewrite last_lookup, segs_from_length in Hs.
    apply Hlook in Hs as [_ ->]. simpl.
    destruct (Z.eqb_spec (Z.of_nat (pred n)) (threadCount - 1)); lia.
  - intros i s Hs. by apply Hlook in Hs as [_ ->].
  - intros i s Hs. apply Hlook in Hs as [Hk ->]. simpl.
    destruct (Z.eqb_spec (Z.of_nat i) (threadCount - 1)); nia.
  - rewrite segs_from_total by lia. lia.
  - intros Hsz i s Hs Hi. rewrite segs_from_length in Hi.
    apply Hlook in Hs as [_ ->]. unfold seg_len; simpl.
    destruct (Z.eqb_spec (Z.of_nat i) (threadCount - 1)); [lia|].
    specialize (Hmin Hsz). lia.
Qed.

End Segments.

Lemma quot64_nonneg a b :
  0 <= a <= max_int64 -> 0 < b -> quot64 a b = a / b /\ 0 <= a / b <= a.
Proof.
  intros Ha Hb. unfold quot64. rewrite Z.quot_div_nonneg by lia.
  assert (0 <= a / b <= a) as Hq.
  { split; [apply Z.div_pos; lia|]. apply Z.div_le_upper_bound; nia. }
  split; [|done]. apply wrap64_id.
  unfold in_int64, min_int64, max_int64 in *. lia.
Qed.

Lemma single_segment_partitions size :
  0 < size <= max_int64 -> size < MinSegmentSize ->
  partitions size
    [ {| Index := 0; Start := 0; End_ := sub64 size 1;
         Completed := false; Retries := 0 |} ].
Proof.
  intros Hsz Hsmall. unfold sub64.
  rewrite wrap64_id by (unfold in_int64, min_int64, max_int64 in *; lia).
  split.
  - lia.
  - intros s [= <-]. done.
  - intros i s t Hs Ht. destruct i; simpl in Ht; done.
  - intros s [= <-]. done.
  - intros [|i] s Hs; simpl in Hs; [by inversion Hs | done].
  - intros [|i] s Hs; simpl in Hs; [inversion Hs; simpl; lia | done].
  - unfold total_len, seg_len; simpl. lia.
  - lia.
Qed.

Lemma CalculateSegments_partitions size threads :
  0 <= size <= max_int64 ->
  partitions size (CalculateSegments NewDownloadPlanner size threads).
Proof.
  intros Hsz. unfold CalculateSegments.
  destruct (Z.leb_spec size 0) as [H0|H0].
  { assert (size = 0) as -> by lia. split; try done.
    all: intros; simplify_eq/=; lia. }
  set (tc1 := if threads <=? 0 then 1 else threads).
  set (tc := if tc1 >? maxThreads NewDownloadPlanner
             then maxThreads NewDownloadPlanner else tc1).
  assert (Htc : 1 <= tc <= 32).
  { unfold tc, tc1. simpl. unfold MaxThreads.
    destruct (Z.leb_spec threads 0);
      [ destruct (Z.gtb_spec 1 32) | destruct (Z.gtb_spec threads 32) ]; lia. }
  simpl minSegmentSize.
  destruct (Z.ltb_spec size MinSegmentSize) as [Hsmall|Hbig].
  { apply single_segment_partitions; lia. }
  destruct (quot64_nonneg size tc) as [-> Hq]; [lia|lia|].
  destruct (Z.ltb_spec (size / tc) MinSegmentSize) as [Hlt|Hge].
  - destruct (quot64_nonneg size MinSegmentSize) as [-> Hq2];
      [lia|unfold MinSegmentSize; lia|].
    assert (Hm : 1 <= size / MinSegmentSize).
    { apply Z.div_le_lower_bound; unfold MinSegmentSize in *; lia. }
    destruct (Z.eqb_spec (size / MinSegmentSize) 0) as [He|_]; [lia|].
    destruct (quot64_nonneg size (size / MinSegmentSize)) as [-> Hq3]; [lia|lia|].
    assert (Hfit : size / MinSegmentSize * MinSegmentSize <= size).
    { rewrite Z.mul_comm. apply Z.mul_div_le. unfold MinSegmentSize; lia. }
    assert (Hseg : MinSegmentSize <= size / (size / MinSegmentSize)).
    { apply Z.div_le_lower_bound; lia. }
    assert (Hfit2 : size / MinSegmentSize * (size / (size / MinSegmentSize)) <= size).
    { apply Z.mul_div_le. lia. }
    rewrite segments_loop_segs_from;
      try (unfold MinSegmentSize in *; lia).
    apply segs_from_partitions; try (unfold MinSegmentSize in *; lia).
  - assert (Hfit : tc * (size / tc) <= size) by (apply Z.mul_div_le; lia).
    rewrite segments_loop_segs_from;
      try (unfold MinSegmentSize in *; lia).
    apply segs_from_partitions; try (unfold MinSegmentSize in *; lia).
Qed.

(** C1. For every file size [0 <= size] (an [int64]) and every requested
    thread count, the segments produced by [CalculateSegments], and by
    [PlanDownload] when no resume data is set, partition [[0, size)]
    contiguously in index order: the first segment starts at 0, each next
    segment starts one past the end of the previous one, the last one ends at
    [size - 1], the lengths add up to [size], every segment but the last is
    at least [MinSegmentSize] long when [size >= MinSegmentSize], and the
    list is empty when [size = 0]. *)
Theorem plan_partitions_file (size threads : Z) :
  0 <= size <= max_int64 ->
  partitions size (CalculateSegments NewDownloadPlanner size threads) /\
  (forall meta config,
      Size meta = size -> Threads config = threads ->
      ResumeData config = None ->
      exists segs,
        PlanDownload NewDownloadPlanner (Some meta) (Some config) = Ok segs /\
        partitions size segs).
Proof.
  intros Hsz. split.
  - by apply CalculateSegments_partitions.
  - intros meta config Hm Ht Hr. unfold PlanDownload. rewrite Hr, Hm.
    eexists. split; [reflexivity|]. by apply CalculateSegments_partitions.
Qed.

Lemma plan_partitions_file_witness :
  partitions (10 * 1024 * 1024)
    (CalculateSegments NewDownloadPlanner (10 * 1024 * 1024) 8).
Proof.
  apply (plan_partitions_file (10 * 1024 * 1024) 8).
  unfold max_int64. lia.
Defined.

Lemma IsDownloadComplete_loop_spec rest len :
  IsDownloadComplete_loop rest len = true <->
  Forall (fun s => Completed s = true) rest /\ (0 < len)%nat.
Proof.
  induction rest as [|s rest IH]; simpl.
  - rewrite Nat.ltb_lt. split; [intros H; split; [constructor|done] | tauto].
  - destruct (Completed s) eqn:Hc; simpl.
    + rewrite IH. rewrite Forall_cons. tauto.
    + split; [done|]. intros [H _]. inversion H; congruence.
Qed.

(** C10. [IsDownloadComplete] is true exactly when the segment list is
    non-empty and every segment in it is completed; for the empty list, which
    is the plan of a zero-size file, it is false. *)
Theorem IsDownloadComplete_iff (p : DownloadPlanner) (segs : list SegmentInfo) :
  (IsDownloadComplete p segs = true <->
     segs <> [] /\ Forall (fun s => Completed s = true) segs) /\
  IsDownloadComplete p [] = false /\
  (forall threads,
     CalculateSegments p 0 threads = [] /\
     IsDownloadComplete p (CalculateSegments p 0 threads) = false).
Proof.
  split; [|split; [reflexivity | intros; split; reflexivity]].
  unfold IsDownloadComplete. rewrite IsDownloadComplete_loop_spec.
  destruct segs; simpl; split; intros [H1 H2]; split; try done; lia.
Qed.

(** C6. With resume data set, [PlanDownload] is [planResumeDownload]; it
    fails exactly when the resume record has no file metadata, or its size
    differs from the resolved size, or its filename differs from the resolved
    filename; otherwise it returns the resume record's segments unchanged. *)
Theorem plan_resume_fails_iff (meta : FileMetadata) (config : DownloadConfig)
    (resume : ResumeMetadata) :
  ResumeData config = Some resume ->
  let r := PlanDownload NewDownloadPlanner (Some meta) (Some config) in
  r = planResumeDownload NewDownloadPlanner resume meta /\
  (is_ok r = false <->
     RFileMetadata resume = None \/
     exists fm, RFileMetadata resume = Some fm /\
                (Size fm <> Size meta \/ Filename fm <> Filename meta)) /\
  (is_ok r = true -> r = Ok (Segments resume)).
Proof.
  intros Hr r. subst r. unfold PlanDownload. rewrite Hr.
  split; [reflexivity|]. unfold planResumeDownload.
  destruct (RFileMetadata resume) as [fm|]; simpl.
  2: { split; [|done]. split; [by left | done]. }
  destruct (Z.eqb_spec (Size fm) (Size meta)) as [Hs|Hs]; simpl.
  2: { split; [|done]. split; [|done]. intros _. right. exists fm. tauto. }
  destruct (String.eqb_spec (Filename fm) (Filename meta)) as [Hf|Hf]; simpl.
  2: { split; [|done]. split; [|done]. intros _. right. exists fm. tauto. }
  split; [|done]. split; [done|].
  intros [H|(fm' & [= <-] & [H|H])]; done.
Qed.

Lemma plan_resume_fails_iff_witness :
  let meta := mkFileMetadata "a.bin" 10 "https://h/a" "s1" 0 "" in
  let segs := [mkSegmentInfo 0 0 9 true 0] in
  let resume := mkResumeMetadata (Some meta) segs 0 0 in
  let config := mkDownloadConfig "a.bin" 4 0 "" true (Some resume) in
  PlanDownload NewDownloadPlanner (Some meta) (Some config) = Ok segs.
Proof.
  intros meta segs resume config.
  destruct (plan_resume_fails_iff meta config resume eq_refl) as (_ & _ & H).
  apply H. reflexivity.
Defined.

(** ** Properties of the rate limiter *)

Module RateLimiterFacts.
Import RateLimiter.

(** The effective rate in the words of the specification: the configured
    rate for at most one thread; otherwise the equal share [rate / threads]
    exactly when [rate < threads * 1024], and in the remaining cases a value
    that lets the threads consume the full rate in aggregate. *)
Definition effective_rate_as_specified (r : TokenBucketLimiter) : Prop :=
  (threadCount r <= 1 -> calculateEffectiveRate r = rate r) /\
  (1 < threadCount r ->
     (calculateEffectiveRate r = Z.quot (rate r) (threadCount r) <->
      rate r < threadCount r * 1024) /\
     (threadCount r * 1024 <= rate r ->
      rate r <= calculateEffectiveRate r * threadCount r)).

Definition in_int32 (z : Z) : Prop := - 2 ^ 31 <= z <= 2 ^ 31 - 1.

(** C8. On the boundary [rate = threads * 1024] the code returns the equal
    share: with 2048 bytes per second and 2 threads, [2048 / 2].  The claim
    gives the equal share exactly when [rate < threads * 1024], and so does
    the comment on that branch of the source. *)
Lemma effective_rate_boundary :
  let r := NewDistributedRateLimiter 2048 2 0 in
  rate r = threadCount r * 1024 /\
  calculateEffectiveRate r = Z.quot (rate r) (threadCount r) /\
  calculateEffectiveRate r = 1024 /\
  ~ effective_rate_as_specified r.
Proof.
  repeat split; try reflexivity.
  intros (_ & H). destruct H as [[H _] _]; [reflexivity|].
  specialize (H eq_refl). vm_compute in H. discriminate.
Qed.

(** The cases of the code: the configured rate when at most one thread is
    registered; with more threads [rate / threads] when
    [rate <= threads * 1024], and the configured rate when
    [rate > threads * 1024]. *)
Lemma effective_rate_cases (r : TokenBucketLimiter) :
  in_int32 (threadCount r) -> in_int64 (rate r) ->
  (threadCount r <= 1 -> calculateEffectiveRate r = rate r) /\
  (1 < threadCount r -> rate r <= threadCount r * 1024 ->
     calculateEffectiveRate r = Z.quot (rate r) (threadCount r)) /\
  (1 < threadCount r -> threadCount r * 1024 < rate r ->
     calculateEffectiveRate r = rate r).
Proof.
  intros Ht Hr. unfold calculateEffectiveRate, in_int32 in *.
  assert (Hm : mul64 1024 (threadCount r) = threadCount r * 1024).
  { unfold mul64. rewrite wrap64_id; [lia|].
    unfold in_int64, min_int64, max_int64. lia. }
  rewrite Hm.
  split; [|split].
  - intros H. apply Z.leb_le in H. by rewrite H.
  - intros H1 H2.
    destruct (Z.leb_spec (threadCount r) 1); [lia|].
    destruct (Z.leb_spec (rate r) (threadCount r * 1024)); [|lia].
    unfold quot64. apply wrap64_id.
    unfold in_int64, min_int64, max_int64 in *.
    destruct (Z.le_gt_cases 0 (rate r)) as [Hpos|Hneg].
    + pose proof (Z.quot_pos (rate r) (threadCount r) Hpos ltac:(lia)).
      pose proof (Z.quot_le_upper_bound (rate r) (threadCount r) (rate r)
                    ltac:(lia) ltac:(nia)). lia.
    + pose proof (Z.quot_opp_l (rate r) (threadCount r) ltac:(lia)) as Ho.
      pose proof (Z.quot_pos (- rate r) (threadCount r)
                    ltac:(lia) ltac:(lia)).
      pose proof (Z.quot_le_upper_bound (- rate r) (threadCount r) (- rate r)
                    ltac:(lia) ltac:(nia)). lia.
  - intros H1 H2.
    destruct (Z.leb_spec (threadCount r) 1); [lia|].
    destruct (Z.leb_spec (rate r) (threadCount r * 1024)); [lia|done].
Qed.

Lemma effective_rate_cases_witness :
  calculateEffectiveRate (NewDistributedRateLimiter 4096 4 0) = 1024 /\
  calculateEffectiveRate (NewDistributedRateLimiter 4097 4 0) = 4097.
Proof.
  split.
  - apply (effective_rate_cases (NewDistributedRateLimiter 4096 4 0));
      vm_compute; try lia; intuition discriminate.
  - apply (effective_rate_cases (NewDistributedRateLimiter 4097 4 0));
      vm_compute; try lia; intuition discriminate.
Defined.

(** The limiter invariant of the specification: the active rate never
    exceeds the configured one. *)
Definition rate_capped (r : TokenBucketLimiter) : Prop :=
  rate r <= originalRate r.

(** Integers up to [2 ^ 53] are floats; beyond, [float64(originalRate)] may
    round up. *)
Definition exact_rate (r : TokenBucketLimiter) : Prop :=
  0 <= originalRate r <= 2 ^ 53.

Definition limiter_inv (r : TokenBucketLimiter) : Prop :=
  in_unit (adjustmentFactor r) = true /\ (exact_rate r -> rate_capped r).

Lemma limiter_inv_adjust r since now :
  limiter_inv r -> limiter_inv (adjustRateBasedOnPerformance r since now).
Proof.
  intros [Hf Hr]. unfold adjustRateBasedOnPerformance.
  destruct (_ <? _); [done|]. destruct (_ <? _)%nat; [done|].
  assert (Hstep : forall nf : float64, in_unit nf = true ->
    let newRate :=
      int64_of_float64 (float64_of_int (originalRate r) * nf)%float in
    limiter_inv
      (mkTokenBucketLimiter newRate
         (if bucket r >? newRate then newRate else bucket r) newRate
         (lastUpdate r) (threadCount r) (originalRate r) nf now
         (networkStats r))).
  { intros nf Hnf newRate. split; [done|].
    unfold rate_capped, exact_rate; simpl. intros Ho.
    by apply Binary64.int64_of_float64_scale. }
  destruct (_ <? f0_8)%float.
  - apply Hstep. by apply Binary64.mul_in_unit.
  - destruct (_ && _); [|done].
    destruct (1 <? _)%float eqn:E; apply Hstep; [done|].
    apply Binary64.not_gt_one_in_unit; [|done].
    by apply Binary64.mul_nonneg_finite.
Qed.

Lemma limiter_inv_update r b d c :
  limiter_inv r -> limiter_inv (UpdateNetworkStats r b d c).
Proof.
  intros H. unfold UpdateNetworkStats.
  destruct (_ || _); [done|]. by apply limiter_inv_adjust.
Qed.

Lemma limiter_inv_wait r n e : limiter_inv r -> limiter_inv (fst (Wait r n e)).
Proof.
  intros H. unfold Wait. destruct (rate r <=? 0); [done|].
  assert (H1 : limiter_inv (fst (Wait_locked r n (waitNow e)))).
  { unfold Wait_locked. destruct (_ >=? _); exact H. }
  destruct (Wait_locked r n (waitNow e)) as [r1 w]; simpl in H1.
  destruct w as [w|]; [destruct (cancelled e); [done|]|];
    simpl; destruct (_ >? _); try done; by apply limiter_inv_update.
Qed.

Lemma limiter_inv_exec r c : limiter_inv r -> limiter_inv (exec r c).
Proof.
  intros H. destruct c; simpl.
  - by apply limiter_inv_wait.
  - destruct H as [Hf _]. split; [done|]. unfold rate_capped; simpl. lia.
  - done.
  - unfold UnregisterThread. by destruct (_ >? _).
  - by apply limiter_inv_update.
Qed.

Lemma limiter_inv_run cs : forall r, limiter_inv r -> limiter_inv (run r cs).
Proof.
  induction cs as [|c cs IH]; intros r H; [done|].
  apply IH. by apply limiter_inv_exec.
Qed.

Lemma limiter_inv_new b now : limiter_inv (NewTokenBucketLimiter b now).
Proof. split; [done|]. unfold rate_capped; simpl. lia. Qed.

(** One measurement, taken [t] seconds after the start. *)
Definition sample (bytesTransferred duration t : Z) : call :=
  CallUpdateNetworkStats bytesTransferred duration
    {| statNow := t * Second; adjustSince := t * Second;
       adjustNow := t * Second |}.

(** Three slow measurements: one byte per second. *)
Definition slow_samples : list call :=
  [ sample 1 Second 6; sample 1 Second 6; sample 1 Second 6 ].

(** C9 (as stated) fails when the configured rate is negative (for [Wait], a
    rate [<= 0] means no limit): after three slow measurements the factor is
    0.9 and the active rate [-90] is above the configured [-100]. *)
Lemma adjusted_rate_exceeds_negative_original :
  let r := run (NewTokenBucketLimiter (-100) 0) slow_samples in
  rate r = -90 /\ originalRate r = -100 /\ ~ rate_capped r.
Proof.
  vm_compute. repeat split. intros H. apply H. reflexivity.
Qed.

(** Three slow measurements bring the factor to 0.9; fast ones, six seconds
    apart, bring it back to 1. *)
Definition slow_then_fast : list call :=
  slow_samples
  ++ [ sample max_int64 1 12; sample max_int64 1 18; sample max_int64 1 24 ].

(** It also fails above [2 ^ 53], where the conversion of the configured rate
    rounds up: with the factor back at 1 the active rate is
    [int64(float64(2 ^ 53 + 3))], which is [2 ^ 53 + 4]. *)
Lemma rounded_rate_exceeds_large_original :
  let r := run (NewTokenBucketLimiter (2 ^ 53 + 3) 0) slow_then_fast in
  adjustmentFactor r = 1%float /\
  rate r = 2 ^ 53 + 4 /\ originalRate r = 2 ^ 53 + 3 /\ ~ rate_capped r.
Proof.
  vm_compute. repeat split. intros H. apply H. reflexivity.
Qed.

(** C9 (amended). After any sequence of [Wait], [SetRate], [RegisterThread],
    [UnregisterThread] and [UpdateNetworkStats] calls on a fresh limiter,
    whenever the configured rate lies between 0 and [2 ^ 53] the adjustment
    factor lies in [[0, 1]] and the active rate does not exceed the
    configured one. *)
Theorem rate_never_exceeds_original (b : Z) (now : Time) (cs : list call) :
  let r := run (NewTokenBucketLimiter b now) cs in
  0 <= originalRate r <= 2 ^ 53 ->
  in_unit (adjustmentFactor r) = true /\ rate r <= originalRate r.
Proof.
  intros r Ho.
  destruct (limiter_inv_run cs _ (limiter_inv_new b now)) as [Hf Hr].
  split; [exact Hf | exact (Hr Ho)].
Qed.

Definition fast_then_slow : list call :=
  [ CallRegisterThread; sample 10 Second 6; sample 10 Second 6;
    sample 10 Second 6 ].

Lemma rate_never_exceeds_original_witness :
  let r := run (NewTokenBucketLimiter 1000 0) fast_then_slow in
  rate r = 900 /\ rate r <= originalRate r.
Proof.
  split; [reflexivity|].
  apply (rate_never_exceeds_original 1000 0 fast_then_slow).
  vm_compute. split; discriminate.
Defined.

End RateLimiterFacts.

(** ** Properties of the HTTP retry loop *)

Module HTTPFacts.
Import HTTP.



Definition resp_429 : Response :=
  {| StatusCode := 429; Header := [("Retry-After", "60")];
     BodyChunks := []; BodyEnd := EOF |}.

(** A server that always answers 429 with [Retry-After: 60]; no jitter. *)
Definition always_429 : Z -> AttemptEnv :=
  fun _ => {| fn := fun _ => mkFnResult (Some resp_429) None;
              jitterRand := 0.5%float; ctxDone := None |}.


Lemma In_app_singleton {A} (x y : A) l : In x (l ++ [y]) <-> In x l \/ x = y.
Proof. rewrite in_app_iff. simpl. intuition. Qed.

Definition slept (c : HTTPClient) (e : AttemptEnv) (attempt : Z) : list event :=
  if attempt >? 0
  then [Sleep attempt (calculateDelay c attempt (jitterRand e))] else [].

(** The events of one iteration: nothing when the context is done during the
    back-off sleep; otherwise the sleep (after the first attempt), the
    request, and then only [CloseBody] and [Rotate]. *)
Lemma attempt_body_events c e attempt lastErr evs ctl :
  attempt_body c e attempt lastErr = (evs, ctl) ->
  (evs = [] /\ 0 < attempt /\
   exists ce, ctxDone e = Some ce /\ ctl = Return (Err ce)) \/
  (exists extras,
     evs = slept c e attempt ++ [Request attempt (userAgent c)] ++ extras /\
     Forall (fun ev => ev = CloseBody attempt \/ ev = Rotate attempt) extras /\
     (0 < attempt -> ctxDone e = None) /\
     (forall c' le, ctl = Continue c' le -> retryConfig c' = retryConfig c) /\
     (forall resp, fn e (userAgent c) = mkFnResult (Some resp) None ->
        StatusCode resp = 429 -> exists le, ctl = Continue c le)).
Proof.
  unfold attempt_body. fold (slept c e attempt). intros H.
  destruct (if attempt >? 0 then ctxDone e else None) as [ce|] eqn:Hctx.
  { left. destruct (Z.gtb_spec attempt 0); [|done].
    inversion H; subst. eauto. }
  right.
  assert (Hc : 0 < attempt -> ctxDone e = None).
  { intros Hp. destruct (Z.gtb_spec attempt 0); [done|lia]. }
  clear Hctx.
  destruct (fn e (userAgent c)) as [resp err] eqn:Hfn; simpl in H.
  destruct err as [err|].
  { destruct (isRetryableError err); simpl in H;
      [destruct (shouldRotateUserAgent err resp)|]; inversion H; subst;
      [exists [Rotate attempt] | exists [] | exists []];
      rewrite <- ?app_assoc, ?app_nil_r;
      (split; [done|]); (split; [repeat constructor; tauto|]);
      (split; [done|]); (split; [by intros ? ? [= <- <-]|]);
      intros ? [= ]. }
  destruct resp as [resp|].
  2: { inversion H; subst. exists []. rewrite app_nil_r.
       repeat split; try done. by intros ? ? [= <- <-]. }
  destruct ((StatusCode resp =? 200) || (StatusCode resp =? 206)) eqn:Hok.
  { inversion H; subst. exists []. rewrite app_nil_r.
    repeat split; try done. intros ? [= <-] Hs.
    rewrite Hs in Hok. done. }
  destruct (StatusCode resp =? 403) eqn:H403.
  { inversion H; subst. exists [CloseBody attempt; Rotate attempt].
    rewrite <- !app_assoc. repeat split; try done.
    - repeat constructor; tauto.
    - by intros ? ? [= <- <-].
    - intros ? [= <-] Hs. rewrite Hs in H403. done. }
  destruct (StatusCode resp =? 429) eqn:H429.
  { inversion H; subst. exists [CloseBody attempt].
    rewrite <- !app_assoc. repeat split; try done.
    - repeat constructor; tauto.
    - by intros ? ? [= <- <-].
    - intros ? [= <-] Hs. eauto. }
  assert (Hn : forall r, Some resp = Some r -> StatusCode r = 429 -> False).
  { intros ? [= <-] Hs. rewrite Hs in H429. done. }
  destruct (StatusCode resp =? 404);
    [|destruct (StatusCode resp =? 401);
      [|destruct (StatusCode resp >=? 500)]];
    inversion H; subst; exists [CloseBody attempt];
    rewrite <- !app_assoc; repeat split; try done;
    try (repeat constructor; tauto);
    try (by intros ? ? [= <- <-]);
    intros ? [= <-] Hs; exfalso; eauto.
Qed.


Section RetryLoop.
Variable env : Z -> AttemptEnv.


End RetryLoop.





End HTTPFacts.

(** ** Properties of the worker *)

Module WorkerFacts.
Import Worker.

Definition body_length (src : Reader) : Z :=
  Z.of_nat (length (concat (chunks src))).

Definition reader_measure (src : Reader) : nat :=
  (length (concat (chunks src)) + length (chunks src))%nat.

Lemma Read_spec src toRead n err src' :
  Read src toRead = (n, err, src') -> 1 <= toRead ->
  (chunks src = [] /\ n = 0 /\ err = Some (atEnd src) /\ src' = src) \/
  (err = None /\ 0 <= n <= toRead /\ atEnd src' = atEnd src /\
   body_length src = n + body_length src' /\
   (reader_measure src' < reader_measure src)%nat).
Proof.
  unfold Read, body_length, reader_measure. intros H Ht.
  destruct (chunks src) as [|c cs] eqn:Hc.
  { left. by inversion H. }
  right. inversion H; subst; clear H. simpl.
  set (n := Z.min (Z.of_nat (length c)) toRead).
  assert (Hn : 0 <= n <= toRead) by lia.
  assert (Hlen : length (drop (Z.to_nat n) c) = (length c - Z.to_nat n)%nat)
    by apply length_drop.
  repeat split; try lia.
  - destruct (drop (Z.to_nat n) c) eqn:Hd; simpl in *;
      rewrite !length_app; simpl; lia.
  - destruct (drop (Z.to_nat n) c) eqn:Hd; simpl in *;
      rewrite !length_app; simpl; lia.
Qed.

Lemma copy_loop_some fuel : forall wp env k src maxBytes total,
  in_int64 maxBytes -> 0 <= total ->
  (reader_measure src < fuel)%nat ->
  exists r, copy_loop fuel wp env k src maxBytes total = Some r.
Proof.
  induction fuel as [|fuel IH]; intros wp env k src maxBytes total Hm Ht Hf;
    [lia|].
  simpl. destruct (Z.ltb_spec total maxBytes) as [Hlt|Hge]; simpl; [|eauto].
  assert (Hrem : sub64 maxBytes total = maxBytes - total).
  { apply wrap64_id. unfold in_int64, min_int64, max_int64 in *. lia. }
  rewrite Hrem.
  set (toRead := if bufferSize >? maxBytes - total then maxBytes - total
                 else bufferSize).
  assert (Htr : 1 <= toRead <= maxBytes - total).
  { unfold toRead, bufferSize. destruct (Z.gtb_spec (32 * 1024) (maxBytes - total)); lia. }
  destruct (Read src toRead) as [[n err] src'] eqn:HR.
  apply Read_spec in HR as [(_ & -> & -> & ->)|(-> & Hn & _ & _ & Hms)];
    [| |lia].
  { simpl. destruct (atEnd src); eauto. }
  destruct (Z.gtb_spec n 0) as [Hpos|Hz].
  - destruct (if hasRateLimiter wp then limiterWait env k else None); [eauto|].
    destruct (writeErr (fileWrite env k n)); [eauto|].
    destruct (Z.eqb_spec (written (fileWrite env k n)) n) as [->|]; simpl;
      [|eauto].
    destruct (ctxPoll env k); [eauto|].
    apply IH; try done; try lia.
    unfold add64. rewrite wrap64_id; [lia|].
    unfold in_int64, min_int64, max_int64 in *. lia.
  - destruct (ctxPoll env k); [eauto|]. apply IH; try done; lia.
Qed.

Lemma copy_loop_ok fuel : forall wp env k src maxBytes total t,
  copy_loop fuel wp env k src maxBytes total = Some (t, None) ->
  in_int64 maxBytes -> 0 <= total ->
  (maxBytes <= total /\ t = total) \/
  (total < maxBytes /\ t = maxBytes /\ maxBytes - total <= body_length src) \/
  (t = total + body_length src /\ t < maxBytes /\ atEnd src = EOF).
Proof.
  induction fuel as [|fuel IH]; intros wp env k src maxBytes total t H Hm Ht;
    simpl in H;
    destruct (Z.ltb_spec total maxBytes) as [Hlt|Hge]; simpl in H;
    try (inversion H; subst; left; lia); try done.
  assert (Hrem : sub64 maxBytes total = maxBytes - total).
  { apply wrap64_id. unfold in_int64, min_int64, max_int64 in *. lia. }
  rewrite Hrem in H.
  set (toRead := if bufferSize >? maxBytes - total then maxBytes - total
                 else bufferSize) in H.
  assert (Htr : 1 <= toRead <= maxBytes - total).
  { unfold toRead, bufferSize. destruct (Z.gtb_spec (32 * 1024) (maxBytes - total)); lia. }
  assert (Hb0 : forall s, 0 <= body_length s) by (unfold body_length; lia).
  destruct (Read src toRead) as [[n err] src'] eqn:HR.
  apply Read_spec in HR as [(Hc & -> & -> & ->)|(-> & Hn & He & Hbody & _)];
    [| |lia].
  { simpl in H. right. right.
    assert (body_length src = 0) as -> by (unfold body_length; by rewrite Hc).
    destruct (atEnd src); inversion H; subst. split; [lia|done]. }
  assert (Hrec : forall total',
            total' = total + n ->
            match ctxPoll env k with
            | Some ce => Some (total', Some ce)
            | None => copy_loop fuel wp env (S k) src' maxBytes total'
            end = Some (t, None) ->
            (maxBytes <= total /\ t = total) \/
            (total < maxBytes /\ t = maxBytes /\
             maxBytes - total <= body_length src) \/
            (t = total + body_length src /\ t < maxBytes /\ atEnd src = EOF)).
  { intros total' -> Hk. destruct (ctxPoll env k); [done|].
    apply IH in Hk as [(H1 & ->)|[(H1 & -> & H2)|(-> & H1 & H2)]];
      try done; try lia.
    - right. left. specialize (Hb0 src'). lia.
    - right. right. rewrite He in H2. split; [lia|done]. }
  destruct (Z.gtb_spec n 0) as [Hpos|Hz].
  - destruct (if hasRateLimiter wp then limiterWait env k else None); [done|].
    destruct (writeErr (fileWrite env k n)); [done|].
    destruct (Z.eqb_spec (written (fileWrite env k n)) n) as [Hw|];
      simpl in H; [|done].
    rewrite Hw in H.
    apply (Hrec (add64 total n)); [|done].
    unfold add64. apply wrap64_id.
    unfold in_int64, min_int64, max_int64 in *. lia.
  - apply (Hrec total); [lia|done].
Qed.

Lemma segment_length_range job : in_int64 (segment_length job).
Proof. apply wrap64_range. Qed.

Lemma copyWithRateLimit_some wp env src maxBytes :
  in_int64 maxBytes -> exists r, copyWithRateLimit wp env src maxBytes = Some r.
Proof.
  intros Hm. apply copy_loop_some; [done|lia|].
  unfold copy_fuel, reader_measure. lia.
Qed.

Lemma downloadSegment_some wp job env res :
  exists x, downloadSegment wp job env res = Some x.
Proof.
  unfold downloadSegment.
  destruct (openErr env); [eauto|]. destruct (seekErr env); [eauto|].
  destruct (HTTP.GetWithContext _ _) as [[c' r] tr].
  destruct r as [resp|e]; [|eauto].
  destruct (_ && _); [eauto|].
  destruct (copyWithRateLimit_some wp env (Body resp) (segment_length job)
              (segment_length_range job)) as [[t [e|]] ->]; eauto.
Qed.

(** The response whose body a successful [downloadSegment] copied. *)
Definition copied_from (wp : WorkerPool) (job : DownloadJob)
    (env : SegmentEnv) (resp : HTTP.Response) : Prop :=
  exists c' tr,
    HTTP.GetWithContext (httpClient wp) (request_env (httpClient wp) env)
      = (c', Ok resp, tr) /\
    (HTTP.StatusCode resp = 206 \/ HTTP.StatusCode resp = 200).

(** How many bytes a successful copy of [resp] wrote for [job]: the whole
    segment, or the whole body when the body ends first. *)
Definition copy_ended (job : DownloadJob) (resp : HTTP.Response)
    (bytesWritten : Z) : Prop :=
  let len := segment_length job in
  let body := body_length (Body resp) in
  (bytesWritten = Z.max 0 len /\ len <= body) \/
  (bytesWritten = body /\ body < len /\ HTTP.BodyEnd resp = EOF).

Lemma downloadSegment_ok wp job env res res' c' :
  downloadSegment wp job env res = Some (None, res', c') ->
  SegmentIndex res' = SegmentIndex res /\ RError res' = RError res /\
  RCompleted res' = RCompleted res /\
  exists resp, copied_from wp job env resp /\
               copy_ended job resp (BytesWritten res').
Proof.
  unfold downloadSegment. intros H.
  destruct (openErr env); [done|]. destruct (seekErr env); [done|].
  destruct (HTTP.GetWithContext _ _) as [[c1 r] tr] eqn:Hget.
  destruct r as [resp|e]; [|done].
  destruct (negb (HTTP.StatusCode resp =? 206)
            && negb (HTTP.StatusCode resp =? 200)) eqn:Hst; [done|].
  destruct (copyWithRateLimit wp env (Body resp) (segment_length job))
    as [[t [e|]]|] eqn:Hcopy; try done.
  inversion H; subst; clear H. simpl. repeat split.
  exists resp. split.
  - exists c', tr. split; [done|].
    destruct (Z.eqb_spec (HTTP.StatusCode resp) 206); [tauto|].
    destruct (Z.eqb_spec (HTTP.StatusCode resp) 200); [tauto|done].
  - unfold copyWithRateLimit in Hcopy.
    apply copy_loop_ok in Hcopy; [|apply segment_length_range|lia].
    unfold copy_ended.
    assert (0 <= body_length (Body resp)) by (unfold body_length; lia).
    destruct Hcopy as [(H1 & ->)|[(H1 & -> & H2)|(-> & H1 & H2)]].
    + left. lia.
    + left. lia.
    + right. split; [lia|]. split; [lia|done].
Qed.

Lemma downloadSegment_err wp job env res e res' c' :
  downloadSegment wp job env res = Some (Some e, res', c') -> res' = res.
Proof.
  unfold downloadSegment. intros H.
  destruct (openErr env); [by inversion H|].
  destruct (seekErr env); [by inversion H|].
  destruct (HTTP.GetWithContext _ _) as [[c1 r] tr].
  destruct r as [resp|e']; [|by inversion H].
  destruct (_ && _); [by inversion H|].
  destruct (copyWithRateLimit _ _ _ _) as [[t [e'|]]|]; by inversion H.
Qed.

(** What [processJob] reports. *)
Definition reports (job : DownloadJob) (env : JobEnv) (r : DownloadResult)
    : Prop :=
  SegmentIndex r = Index (Segment job) /\
  (RCompleted r = true <-> RError r = None) /\
  (RCompleted r = true ->
   exists k wp_k resp,
     0 <= k < 3 /\ copied_from wp_k job (segmentEnv env k) resp /\
     copy_ended job resp (BytesWritten r)).

Lemma processJob_loop_reports fuel : forall attempt wp job env res,
  0 <= attempt <= 2 -> (3 - Z.to_nat attempt <= fuel)%nat ->
  RError res = None -> RCompleted res = false ->
  SegmentIndex res = Index (Segment job) ->
  exists r wp',
    processJob_loop fuel attempt wp job env res = Some (r, wp') /\
    reports job env r.
Proof.
  induction fuel as [|fuel IH]; intros attempt wp job env res Ha Hf He Hc Hi;
    [lia|].
  simpl. destruct (Z.ltb_spec attempt 3); [|lia]. simpl.
  destruct (downloadSegment_some wp job (segmentEnv env attempt) res)
    as [[[oe res'] c'] Hd].
  rewrite Hd. destruct oe as [e|].
  - apply downloadSegment_err in Hd as ->.
    assert (Hfail : forall e0 (wp0 : WorkerPool), exists r wp',
              Some (set_RError res (Some e0), wp0) = Some (r, wp') /\
              reports job env r).
    { intros e0 wp0. eexists _, _. split; [reflexivity|].
      unfold reports, set_RError; simpl. rewrite Hc. repeat split; done. }
    destruct (negb (isNetworkError e) || (attempt =? 3 - 1)) eqn:Hret;
      [apply Hfail|].
    destruct (backoffDone env attempt); [apply Hfail|].
    apply orb_false_iff in Hret as [_ Hne].
    apply Z.eqb_neq in Hne.
    assert (Hadd : add64 attempt 1 = attempt + 1).
    { apply wrap64_id. unfold in_int64, min_int64, max_int64. lia. }
    rewrite Hadd.
    destruct (IH (attempt + 1) (set_httpClient wp c') job env res)
      as (r & wp' & -> & Hi' & Hiff & Hk); try done; try lia.
    exists r, wp'. split; [done|]. split; [done|]. split; [done|].
    exact Hk.
  - apply downloadSegment_ok in Hd as (Hi' & He' & _ & resp & Hfrom & Hend).
    eexists _, _. split; [reflexivity|].
    unfold reports; simpl. rewrite He', He. split; [congruence|].
    split; [done|]. intros _. exists attempt, wp, resp. split; [lia|done].
Qed.

(** *** Texts that no network pattern occurs in *)

(** [p] and [s] differ at a position that both have. *)
Fixpoint clash (p s : string) : bool :=
  match p, s with
  | String a p', String b s' =>
      if Ascii.eqb a b then clash p' s' else true
  | _, _ => false
  end.

(** [p] clashes with what starts at every position of [a]. *)
Fixpoint clear_of (p a : string) : bool :=
  match a with
  | EmptyString => true
  | String _ a' => clash p a && clear_of p a'
  end.

Lemma containsErrorSubstring_cons c s p :
  containsErrorSubstring (String c s) p =
    if String.prefix p (String c s) then true else containsErrorSubstring s p.
Proof. reflexivity. Qed.

Lemma prefix_clash p : forall s x,
  clash p s = true -> String.prefix p (s +:+ x) = false.
Proof.
  induction p as [|a p IH]; intros s x; [by destruct s|].
  destruct s as [|b s]; [done|]. simpl.
  destruct (Ascii.eqb_spec a b) as [->|Hne].
  - intros H. destruct (ascii_dec b b); [by apply IH|done].
  - intros _. by destruct (ascii_dec a b).
Qed.

Lemma contains_skip p a x :
  clear_of p a = true ->
  containsErrorSubstring (a +:+ x) p = containsErrorSubstring x p.
Proof.
  induction a as [|c a IH]; [done|].
  intros [Hc Ha]%andb_prop.
  change (String c a +:+ x) with (String c (a +:+ x)).
  rewrite containsErrorSubstring_cons.
  change (String c (a +:+ x)) with (String c a +:+ x).
  rewrite (prefix_clash p _ x Hc). by apply IH.
Qed.

(** The characters of a number printed with [%d]. *)
Definition numeric (c : ascii) : bool :=
  existsb (Ascii.eqb c)
    ["0"; "1"; "2"; "3"; "4"; "5"; "6"; "7"; "8"; "9"; "-"]%char.

Fixpoint all_numeric (s : string) : bool :=
  match s with
  | EmptyString => true
  | String c s' => numeric c && all_numeric s'
  end.

Lemma string_of_uint_numeric d :
  all_numeric (NilEmpty.string_of_uint d) = true.
Proof. induction d; simpl; done. Qed.

Lemma sprint_d_numeric z : all_numeric (sprint_d z) = true.
Proof.
  unfold sprint_d, NilZero.string_of_int, NilZero.string_of_uint.
  destruct (Z.to_int z) as [d|d]; destruct d; try done;
    simpl; by rewrite ?string_of_uint_numeric.
Qed.

Definition starts_plain (p : string) : bool :=
  match p with
  | String a _ => negb (numeric a)
  | EmptyString => false
  end.

Lemma contains_skip_numeric p s x :
  starts_plain p = true -> all_numeric s = true ->
  containsErrorSubstring (s +:+ x) p = containsErrorSubstring x p.
Proof.
  destruct p as [|a p]; [done|]. simpl. intros Ha%negb_true_iff.
  induction s as [|c s IH]; [done|]. cbn [all_numeric].
  intros [Hc Hs]%andb_prop.
  change (String c s +:+ x) with (String c (s +:+ x)).
  rewrite containsErrorSubstring_cons. cbn [String.prefix].
  destruct (ascii_dec a c) as [->|_]; [congruence|]. by apply IH.
Qed.

(** The error of a write that stored [w] of [n] bytes. *)
Definition short_write_error (w n : Z) : error :=
  Plain ("short write: wrote " +:+ sprint_d w +:+ ", expected " +:+ sprint_d n).

Lemma append_empty_r (s : string) : s +:+ "" = s.
Proof.
  induction s as [|a s IH]; [done|].
  change (String a s +:+ "") with (String a (s +:+ "")). by rewrite IH.
Qed.

Lemma short_write_not_network w n :
  isNetworkError (Wrap "failed to copy segment data: " (short_write_error w n))
  = false.
Proof.
  unfold isNetworkError, short_write_error.
  cbn [error_Error existsb].
  rewrite <- (append_empty_r (sprint_d n)).
  rewrite !(contains_skip _ "failed to copy segment data: ") by reflexivity.
  rewrite !(contains_skip _ "short write: wrote ") by reflexivity.
  rewrite !(contains_skip_numeric _ (sprint_d w))
    by (reflexivity || apply sprint_d_numeric).
  rewrite !(contains_skip _ ", expected ") by reflexivity.
  rewrite !(contains_skip_numeric _ (sprint_d n))
    by (reflexivity || apply sprint_d_numeric).
  reflexivity.
Qed.

(** *** The copy loop, forwards *)

Definition to_read (maxBytes totalWritten : Z) : Z :=
  if bufferSize >? maxBytes - totalWritten then maxBytes - totalWritten
  else bufferSize.

Lemma to_read_range maxBytes total :
  total < maxBytes -> 1 <= to_read maxBytes total <= maxBytes - total.
Proof.
  intros H. unfold to_read, bufferSize.
  destruct (Z.gtb_spec (32 * 1024) (maxBytes - total)); lia.
Qed.

(** One iteration that does not end the loop. *)
Lemma copy_loop_step fuel wp env k src maxBytes total n src' :
  in_int64 maxBytes -> 0 <= total < maxBytes ->
  Read src (to_read maxBytes total) = (n, None, src') ->
  (0 < n ->
   (if hasRateLimiter wp then limiterWait env k else None) = None /\
   writeErr (fileWrite env k n) = None /\ written (fileWrite env k n) = n) ->
  ctxPoll env k = None ->
  copy_loop (S fuel) wp env k src maxBytes total
  = copy_loop fuel wp env (S k) src' maxBytes (total + n).
Proof.
  intros Hm Ht HR Hw Hc.
  pose proof (to_read_range maxBytes total ltac:(lia)) as Htr.
  pose proof (Read_spec _ _ _ _ _ HR ltac:(lia))
    as [(_ & _ & ? & _)|(_ & Hn & _)]; [done|].
  cbn [copy_loop].
  destruct (Z.ltb_spec total maxBytes); [|lia]. cbn [negb].
  assert (Hrem : sub64 maxBytes total = maxBytes - total).
  { apply wrap64_id. unfold in_int64, min_int64, max_int64 in *. lia. }
  rewrite Hrem. fold (to_read maxBytes total). rewrite HR.
  destruct (Z.gtb_spec n 0) as [Hpos|Hz].
  - destruct (Hw ltac:(lia)) as (-> & -> & ->). rewrite Z.eqb_refl. cbn [negb].
    rewrite Hc. f_equal. apply wrap64_id.
    unfold in_int64, min_int64, max_int64 in *. lia.
  - rewrite Hc. f_equal. lia.
Qed.

(** An iteration whose write stores fewer bytes than were read. *)
Lemma copy_loop_short_write fuel wp env k src maxBytes total n src' :
  in_int64 maxBytes -> 0 <= total < maxBytes ->
  Read src (to_read maxBytes total) = (n, None, src') -> 0 < n ->
  (if hasRateLimiter wp then limiterWait env k else None) = None ->
  writeErr (fileWrite env k n) = None -> written (fileWrite env k n) <> n ->
  copy_loop (S fuel) wp env k src maxBytes total
  = Some (add64 total (written (fileWrite env k n)),
          Some (short_write_error (written (fileWrite env k n)) n)).
Proof.
  intros Hm Ht HR Hpos Hl He Hw.
  cbn [copy_loop].
  destruct (Z.ltb_spec total maxBytes); [|lia]. cbn [negb].
  assert (Hrem : sub64 maxBytes total = maxBytes - total).
  { apply wrap64_id. unfold in_int64, min_int64, max_int64 in *. lia. }
  rewrite Hrem. fold (to_read maxBytes total). rewrite HR.
  destruct (Z.gtb_spec n 0); [|lia].
  rewrite Hl, He.
  destruct (Z.eqb_spec (written (fileWrite env k n)) n); [done|].
  reflexivity.
Qed.

(** [copying wp env src0 maxBytes k src total]: the copy of [src0] gets to
    its [k]-th iteration with [src] left to read and [total] bytes
    written. *)
Inductive copying (wp : WorkerPool) (env : SegmentEnv) (src0 : Reader)
    (maxBytes : Z) : nat -> Reader -> Z -> Prop :=
| copying_start : copying wp env src0 maxBytes 0 src0 0
| copying_step k src total n src' :
    copying wp env src0 maxBytes k src total ->
    total < maxBytes ->
    Read src (to_read maxBytes total) = (n, None, src') ->
    (0 < n ->
     (if hasRateLimiter wp then limiterWait env k else None) = None /\
     writeErr (fileWrite env k n) = None /\
     written (fileWrite env k n) = n) ->
    ctxPoll env k = None ->
    copying wp env src0 maxBytes (S k) src' (total + n).

Lemma copying_loop wp env src0 maxBytes k src total :
  in_int64 maxBytes ->
  copying wp env src0 maxBytes k src total ->
  0 <= total /\ (k + reader_measure src <= reader_measure src0)%nat /\
  copy_loop (copy_fuel src0 - k) wp env k src maxBytes total
  = copyWithRateLimit wp env src0 maxBytes.
Proof.
  intros Hm. induction 1 as [|k src total n src' _ (Ht & Hk & IH) Hlt HR Hw Hc].
  { split; [lia|]. split; [lia|]. unfold copyWithRateLimit.
    by rewrite Nat.sub_0_r. }
  pose proof (to_read_range maxBytes total Hlt) as Htr.
  pose proof (Read_spec _ _ _ _ _ HR ltac:(lia))
    as [(_ & _ & ? & _)|(_ & Hn & _ & _ & Hms)]; [done|].
  split; [lia|]. split; [lia|]. rewrite <- IH.
  assert (Hf : (copy_fuel src0 - k = S (copy_fuel src0 - S k))%nat).
  { unfold copy_fuel. fold (reader_measure src0). lia. }
  rewrite Hf. symmetry. by apply copy_loop_step.
Qed.

(** A write that stores fewer bytes than were read ends the copy with the
    "short write" error. *)
Lemma copying_short_write wp env src0 maxBytes k src total n src' :
  in_int64 maxBytes ->
  copying wp env src0 maxBytes k src total ->
  total < maxBytes ->
  Read src (to_read maxBytes total) = (n, None, src') -> 0 < n ->
  (if hasRateLimiter wp then limiterWait env k else None) = None ->
  writeErr (fileWrite env k n) = None -> written (fileWrite env k n) <> n ->
  copyWithRateLimit wp env src0 maxBytes
  = Some (add64 total (written (fileWrite env k n)),
          Some (short_write_error (written (fileWrite env k n)) n)).
Proof.
  intros Hm Hcp Hlt HR Hpos Hl He Hw.
  destruct (copying_loop _ _ _ _ _ _ _ Hm Hcp) as (Ht & Hk & <-).
  assert (Hf : exists f, (copy_fuel src0 - k = S f)%nat).
  { exists (copy_fuel src0 - S k)%nat.
    unfold copy_fuel. fold (reader_measure src0). lia. }
  destruct Hf as [f ->]. by apply (copy_loop_short_write _ _ _ _ _ _ _ _ src').
Qed.

(** An attempt that nothing disturbs: the part file opens and seeks, the
    limiter lets every chunk pass, every write stores what it is given and
    the context is not cancelled. *)
Definition undisturbed (wp : WorkerPool) (env : SegmentEnv) : Prop :=
  openErr env = None /\ seekErr env = None /\
  (forall k, (if hasRateLimiter wp then limiterWait env k else None) = None) /\
  (forall k n, 0 < n ->
     writeErr (fileWrite env k n) = None /\ written (fileWrite env k n) = n) /\
  (forall k, ctxPoll env k = None).

Lemma copy_loop_undisturbed fuel : forall wp env k src maxBytes total,
  in_int64 maxBytes -> 0 <= total ->
  (reader_measure src < fuel)%nat ->
  (forall k, (if hasRateLimiter wp then limiterWait env k else None) = None) ->
  (forall k n, 0 < n ->
     writeErr (fileWrite env k n) = None /\ written (fileWrite env k n) = n) ->
  (forall k, ctxPoll env k = None) ->
  copy_loop fuel wp env k src maxBytes total
  = Some (if maxBytes - total <=? body_length src then Z.max total maxBytes
          else total + body_length src,
          if maxBytes - total <=? body_length src then None
          else match atEnd src with EOF => None | e => Some e end).
Proof.
  induction fuel as [|fuel IH]; intros wp env k src maxBytes total Hm Ht Hf
    Hl Hw Hc; [lia|].
  assert (Hb0 : forall s, 0 <= body_length s) by (unfold body_length; lia).
  destruct (Z.ltb_spec total maxBytes) as [Hlt|Hge].
  2: { cbn [copy_loop]. destruct (Z.ltb_spec total maxBytes); [lia|].
       cbn [negb]. specialize (Hb0 src).
       destruct (Z.leb_spec (maxBytes - total) (body_length src)); [|lia].
       f_equal. f_equal. lia. }
  pose proof (to_read_range maxBytes total Hlt) as Htr.
  destruct (Read src (to_read maxBytes total)) as [[n err] src'] eqn:HR.
  pose proof (Read_spec _ _ _ _ _ HR ltac:(lia))
    as [(Hch & -> & -> & ->)|(-> & Hn & He & Hbody & Hms)].
  - cbn [copy_loop]. destruct (Z.ltb_spec total maxBytes); [|lia]. cbn [negb].
    assert (Hrem : sub64 maxBytes total = maxBytes - total).
    { apply wrap64_id. unfold in_int64, min_int64, max_int64 in *. lia. }
    rewrite Hrem. fold (to_read maxBytes total). rewrite HR.
    assert (Hz : body_length src = 0) by (unfold body_length; by rewrite Hch).
    rewrite Hz. destruct (Z.leb_spec (maxBytes - total) 0); [lia|].
    rewrite Z.add_0_r. cbn. by destruct (atEnd src).
  - assert (Hstep : copy_loop (S fuel) wp env k src maxBytes total
                     = copy_loop fuel wp env (S k) src' maxBytes (total + n)).
    { apply copy_loop_step; [done|lia|done| |apply Hc].
      intros Hpos. split; [apply Hl|by apply Hw]. }
    rewrite Hstep, IH by (try done; lia).
    rewrite He, Hbody.
    destruct (Z.leb_spec (maxBytes - (total + n)) (body_length src'));
      destruct (Z.leb_spec (maxBytes - total) (n + body_length src'));
      try lia.
    + f_equal. f_equal. lia.
    + f_equal. f_equal. lia.
Qed.

(** *** The attempts of [processJob] *)

(** The result [processJob] starts from. *)
Definition first_result (job : DownloadJob) : DownloadResult :=
  {| SegmentIndex := Index (Segment job); BytesWritten := 0;
     RError := None; RCompleted := false |}.

(** [retried wp job env k wp_k]: [processJob] gets to attempt [k] with the
    pool [wp_k]; every attempt before it failed with a network error, and
    the back-off after it was not cut short by the context. *)
Inductive retried (wp : WorkerPool) (job : DownloadJob) (env : JobEnv)
    : Z -> WorkerPool -> Prop :=
| retried_first : retried wp job env 0 wp
| retried_next k wp_k e res c :
    retried wp job env k wp_k ->
    k < 2 ->
    downloadSegment wp_k job (segmentEnv env k) (first_result job)
      = Some (Some e, res, c) ->
    isNetworkError e = true ->
    backoffDone env k = None ->
    retried wp job env (k + 1) (set_httpClient wp_k c).

Lemma retried_range wp job env k wp_k :
  retried wp job env k wp_k -> 0 <= k <= 2.
Proof. induction 1; lia. Qed.

Lemma retried_loop wp job env k wp_k :
  retried wp job env k wp_k ->
  processJob_loop (3 - Z.to_nat k) k wp_k job env (first_result job)
  = processJob wp job env.
Proof.
  induction 1 as [|k wp_k e res c Hr IH Hk Hd Hnet Hb]; [done|].
  pose proof (retried_range _ _ _ _ _ Hr) as Hrange.
  rewrite <- IH.
  assert (Hf : (3 - Z.to_nat k = S (3 - Z.to_nat (k + 1)))%nat) by lia.
  rewrite Hf. cbn [processJob_loop].
  destruct (Z.ltb_spec k 3); [|lia]. cbn [negb].
  rewrite Hd, Hnet, Hb.
  destruct (Z.eqb_spec k (3 - 1)); [lia|]. cbn [negb orb].
  apply downloadSegment_err in Hd as ->.
  f_equal. symmetry. apply wrap64_id.
  unfold in_int64, min_int64, max_int64. lia.
Qed.

(** What attempt [k] decides. *)
Lemma retried_attempt wp job env k wp_k :
  retried wp job env k wp_k ->
  processJob wp job env =
    match downloadSegment wp_k job (segmentEnv env k) (first_result job) with
    | None => None
    | Some (None, res, c) =>
        Some (mkDownloadResult (SegmentIndex res) (BytesWritten res)
                (RError res) true, set_httpClient wp_k c)
    | Some (Some e, res, c) =>
        if negb (isNetworkError e) || (k =? 2) then
          Some (set_RError (first_result job) (Some e), set_httpClient wp_k c)
        else
          match backoffDone env k with
          | Some ce =>
              Some (set_RError (first_result job) (Some ce),
                    set_httpClient wp_k c)
          | None =>
              processJob_loop (3 - Z.to_nat (k + 1)) (k + 1)
                (set_httpClient wp_k c) job env (first_result job)
          end
    end.
Proof.
  intros Hr. pose proof (retried_range _ _ _ _ _ Hr) as Hrange.
  rewrite <- (retried_loop _ _ _ _ _ Hr).
  assert (Hf : (3 - Z.to_nat k = S (3 - Z.to_nat (k + 1)))%nat) by lia.
  rewrite Hf. cbn [processJob_loop].
  destruct (Z.ltb_spec k 3); [|lia]. cbn [negb].
  destruct (downloadSegment wp_k job (segmentEnv env k) (first_result job))
    as [[[[e|] res] c]|] eqn:Hd; [|done|done].
  apply downloadSegment_err in Hd as ->.
  change (3 - 1) with 2.
  destruct (negb (isNetworkError e) || (k =? 2)); [done|].
  destruct (backoffDone env k); [done|].
  f_equal. apply wrap64_id.
  unfold in_int64, min_int64, max_int64. lia.
Qed.

(** The last attempt [processJob] makes. *)
Definition decides (env : JobEnv) (k : Z) (o : option error) : Prop :=
  match o with
  | None => True
  | Some e =>
      isNetworkError e = false \/ k = 2 \/ is_Some (backoffDone env k)
  end.

Lemma retried_decided wp job env : forall (n : nat) k wp_k,
  retried wp job env k wp_k -> (3 - Z.to_nat k <= n)%nat ->
  exists k' wp' o res c,
    retried wp job env k' wp' /\
    downloadSegment wp' job (segmentEnv env k') (first_result job)
      = Some (o, res, c) /\
    decides env k' o.
Proof.
  induction n as [|n IH]; intros k wp_k Hr Hn.
  { pose proof (retried_range _ _ _ _ _ Hr). lia. }
  pose proof (retried_range _ _ _ _ _ Hr) as Hrange.
  destruct (downloadSegment_some wp_k job (segmentEnv env k) (first_result job))
    as [[[o res] c] Hd].
  destruct o as [e|].
  2: { exists k, wp_k, None, res, c. done. }
  destruct (isNetworkError e) eqn:Hnet.
  2: { exists k, wp_k, (Some e), res, c. split; [done|]. split; [done|].
       by left. }
  destruct (decide (k = 2)) as [->|Hk].
  { exists 2, wp_k, (Some e), res, c. split; [done|]. split; [done|].
    right. by left. }
  destruct (backoffDone env k) as [ce|] eqn:Hb.
  { exists k, wp_k, (Some e), res, c. split; [done|]. split; [done|].
    right. right. rewrite Hb. by eexists. }
  apply (IH (k + 1) (set_httpClient wp_k c)); [|lia].
  by apply (retried_next wp job env k wp_k e res c); [|lia|..].
Qed.

(** An attempt whose request is answered: the part file opens and seeks,
    and the HTTP client hands over the response [resp] and is left as
    [c]. *)
Definition answered (wp : WorkerPool) (env : SegmentEnv)
    (resp : HTTP.Response) (c : HTTP.HTTPClient) : Prop :=
  openErr env = None /\ seekErr env = None /\
  (exists tr,
     HTTP.GetWithContext (httpClient wp) (request_env (httpClient wp) env)
       = (c, Ok resp, tr)) /\
  (HTTP.StatusCode resp = 206 \/ HTTP.StatusCode resp = 200).

Lemma downloadSegment_answered wp job env res resp c :
  answered wp env resp c ->
  downloadSegment wp job env res =
    match copyWithRateLimit wp env (Body resp) (segment_length job) with
    | None => None
    | Some (bytesWritten, Some e) =>
        Some (Some (Wrap "failed to copy segment data: " e), res, c)
    | Some (bytesWritten, None) =>
        Some (None,
              mkDownloadResult (SegmentIndex res) bytesWritten (RError res)
                (RCompleted res), c)
    end.
Proof.
  intros (Ho & Hs & [tr Hget] & Hst). unfold downloadSegment.
  rewrite Ho, Hs, Hget.
  assert (Hcode : negb (HTTP.StatusCode resp =? 206)
                  && negb (HTTP.StatusCode resp =? 200) = false).
  { destruct Hst as [-> | ->]; reflexivity. }
  by rewrite Hcode.
Qed.

(** A write of the copy of [src0] that stores [w] bytes of the [n] it is
    given and reports no error. *)
Definition short_write (wp : WorkerPool) (env : SegmentEnv) (src0 : Reader)
    (maxBytes w n : Z) : Prop :=
  exists k src total src',
    copying wp env src0 maxBytes k src total /\ total < maxBytes /\
    Read src (to_read maxBytes total) = (n, None, src') /\ 0 < n /\
    (if hasRateLimiter wp then limiterWait env k else None) = None /\
    writeErr (fileWrite env k n) = None /\
    written (fileWrite env k n) = w /\ w <> n.

(** Success as the specification words it: a segment is reported completed
    only when exactly [end - start + 1] bytes were written. *)
Definition success_only_when_full (wp : WorkerPool) (job : DownloadJob)
    (env : JobEnv) : Prop :=
  forall r wp',
    processJob wp job env = Some (r, wp') -> RCompleted r = true ->
    BytesWritten r = End_ (Segment job) - Start (Segment job) + 1.

(** A 206 response whose body ends, with a regular EOF, after 4 bytes. *)
Definition resp_short : HTTP.Response :=
  {| HTTP.StatusCode := 206; HTTP.Header := [];
     HTTP.BodyChunks := [repeat Byte.x61 4]; HTTP.BodyEnd := EOF |}.

Definition env_short : JobEnv :=
  {| segmentEnv := fun _ =>
       {| openErr := None; seekErr := None;
          httpEnv := fun _ =>
            {| HTTP.fn := fun _ => HTTP.mkFnResult (Some resp_short) None;
               HTTP.jitterRand := 0.5%float; HTTP.ctxDone := None |};
          limiterWait := fun _ => None;
          fileWrite := fun _ n => {| written := n; writeErr := None |};
          ctxPoll := fun _ => None |};
     backoffDone := fun _ => None |}.

Definition wp_one : WorkerPool :=
  {| workers := 1; httpClient := HTTP.NewHTTPClient;
     hasRateLimiter := false |}.

(** A job for the ten bytes [0..9]. *)
Definition job_ten : DownloadJob :=
  {| Segment := mkSegmentInfo 0 0 9 false 0; FileURL := "https://h/f";
     JobOutputPath := "f"; PartPath := "f.part" |}.

(** C2 (as stated) fails: the body of the 206 response reaches EOF after 4
    of the 10 bytes of the segment, and [processJob] reports the segment
    completed, without error, with 4 bytes written. *)
Lemma short_body_reported_completed :
  processJob wp_one job_ten env_short =
    Some ({| SegmentIndex := 0; BytesWritten := 4; RError := None;
             RCompleted := true |}, wp_one) /\
  ~ success_only_when_full wp_one job_ten env_short.
Proof.
  assert (H : processJob wp_one job_ten env_short =
    Some ({| SegmentIndex := 0; BytesWritten := 4; RError := None;
             RCompleted := true |}, wp_one)) by (vm_compute; reflexivity).
  split; [exact H|]. intros Hfull.
  specialize (Hfull _ _ H eq_refl). simpl in Hfull. lia.
Qed.

(** C2 (amended).  [processJob] always returns a result; the result is
    completed exactly when it carries no error, and a completed result comes
    from an attempt that received a 200 or 206 response and copied its body
    until either [end - start + 1] bytes were written or the body reached
    EOF first, [BytesWritten] being the number of bytes copied.  Conversely,
    in every attempt [processJob] gets to whose request is answered with a
    200 or 206 response: when nothing disturbs the copy and the body holds
    the segment, the segment is reported completed with [max 0 (end - start
    + 1)] bytes written; when nothing disturbs the copy and the body ends
    with a regular EOF before that, the segment is reported completed all
    the same, with the length of the body as [BytesWritten], while a body
    that ends before that with another error makes the attempt fail; and
    when a write stores fewer bytes than it was given, the segment is
    reported failed with the "short write" error, which is not retried. *)
Theorem processJob_completed_iff_copy_ended (wp : WorkerPool)
    (job : DownloadJob) (env : JobEnv) :
  (exists r wp',
     processJob wp job env = Some (r, wp') /\ reports job env r) /\
  (forall k wp_k resp c,
     retried wp job env k wp_k ->
     answered wp_k (segmentEnv env k) resp c ->
     let len := segment_length job in
     let body := body_length (Body resp) in
     (undisturbed wp_k (segmentEnv env k) -> len <= body ->
      processJob wp job env =
        Some (mkDownloadResult (Index (Segment job)) (Z.max 0 len) None true,
              set_httpClient wp_k c)) /\
     (undisturbed wp_k (segmentEnv env k) -> body < len ->
      HTTP.BodyEnd resp = EOF ->
      processJob wp job env =
        Some (mkDownloadResult (Index (Segment job)) body None true,
              set_httpClient wp_k c)) /\
     (undisturbed wp_k (segmentEnv env k) -> body < len ->
      HTTP.BodyEnd resp <> EOF ->
      downloadSegment wp_k job (segmentEnv env k) (first_result job) =
        Some (Some (Wrap "failed to copy segment data: " (HTTP.BodyEnd resp)),
              first_result job, c)) /\
     (forall w n,
        short_write wp_k (segmentEnv env k) (Body resp) len w n ->
        processJob wp job env =
          Some (mkDownloadResult (Index (Segment job)) 0
                  (Some (Wrap "failed to copy segment data: "
                           (short_write_error w n))) false,
                set_httpClient wp_k c))).
Proof.
  split.
  { unfold processJob. apply processJob_loop_reports; try done; lia. }
  intros k wp_k resp c Hr Ha len body. subst len body.
  pose proof (retried_attempt _ _ _ _ _ Hr) as Hp.
  pose proof (downloadSegment_answered wp_k job _ (first_result job) resp c Ha)
    as Hd.
  rewrite Hd in Hp.
  assert (Hq : forall Hu : undisturbed wp_k (segmentEnv env k),
            copyWithRateLimit wp_k (segmentEnv env k) (Body resp)
              (segment_length job)
            = Some (if segment_length job <=? body_length (Body resp)
                    then Z.max 0 (segment_length job)
                    else body_length (Body resp),
                    if segment_length job <=? body_length (Body resp)
                    then None
                    else match HTTP.BodyEnd resp with
                         | EOF => None
                         | e => Some e
                         end)).
  { intros (_ & _ & Hl & Hw & Hc). unfold copyWithRateLimit.
    rewrite copy_loop_undisturbed;
      [|apply segment_length_range|lia
       |unfold copy_fuel, reader_measure; lia|done|done|done].
    by rewrite Z.sub_0_r, Z.add_0_l. }
  split; [|split; [|split]].
  - intros Hu Hle. rewrite (Hq Hu) in Hp.
    destruct (Z.leb_spec (segment_length job) (body_length (Body resp)));
      [|lia]. exact Hp.
  - intros Hu Hlt Heof. rewrite (Hq Hu), Heof in Hp.
    destruct (Z.leb_spec (segment_length job) (body_length (Body resp)));
      [lia|]. exact Hp.
  - intros Hu Hlt Heof. rewrite Hd, (Hq Hu).
    destruct (Z.leb_spec (segment_length job) (body_length (Body resp)));
      [lia|]. by destruct (HTTP.BodyEnd resp).
  - intros w n (j & src & total & src' & Hcp & Hlt & HR & Hpos & Hl & He
                & <- & Hne).
    rewrite (copying_short_write _ _ _ _ _ _ _ _ _
               (segment_length_range job) Hcp Hlt HR Hpos Hl He Hne) in Hp.
    by rewrite short_write_not_network in Hp.
Qed.

Definition env_short_write : JobEnv :=
  {| segmentEnv := fun _ =>
       {| openErr := None; seekErr := None;
          httpEnv := fun _ =>
            {| HTTP.fn := fun _ => HTTP.mkFnResult (Some resp_short) None;
               HTTP.jitterRand := 0.5%float; HTTP.ctxDone := None |};
          limiterWait := fun _ => None;
          fileWrite := fun _ n => {| written := n - 1; writeErr := None |};
          ctxPoll := fun _ => None |};
     backoffDone := fun _ => None |}.

Lemma processJob_completed_iff_copy_ended_witness :
  processJob wp_one job_ten env_short =
    Some ({| SegmentIndex := 0; BytesWritten := 4; RError := None;
             RCompleted := true |}, wp_one) /\
  processJob wp_one job_ten env_short_write =
    Some ({| SegmentIndex := 0; BytesWritten := 0;
             RError := Some (Wrap "failed to copy segment data: "
                               (Plain "short write: wrote 3, expected 4"));
             RCompleted := false |}, wp_one).
Proof.
  split.
  - destruct (proj2 (processJob_completed_iff_copy_ended wp_one job_ten
                       env_short) 0 wp_one resp_short HTTP.NewHTTPClient
                (retried_first _ _ _)) as (_ & H & _).
    + split; [done|]. split; [done|]. split; [|by left].
      eexists. vm_compute. reflexivity.
    + apply H.
      * split; [done|]. split; [done|]. split; [done|]. split; [|done].
        intros k n Hn. done.
      * vm_compute. reflexivity.
      * reflexivity.
  - destruct (proj2 (processJob_completed_iff_copy_ended wp_one job_ten
                       env_short_write) 0 wp_one resp_short HTTP.NewHTTPClient
                (retried_first _ _ _)) as (_ & _ & _ & H).
    + split; [done|]. split; [done|]. split; [|by left].
      eexists. vm_compute. reflexivity.
    + apply (H 3 4).
      exists 0%nat, (Body resp_short), 0, (mkReader [] EOF).
      split; [apply copying_start|]. split; [vm_compute; reflexivity|].
      split; [vm_compute; reflexivity|]. split; [lia|].
      split; [done|]. split; [done|]. split; [done|lia].
Defined.

End WorkerFacts.

(** ** Properties of the resume metadata store *)

Module DiskFacts.
Import JSONCodec Disk.

(** The integer fields hold [int64] (and [int]) values. *)
Definition wf_FileMetadata (m : FileMetadata) : Prop := in_int64 (Size m).

Definition wf_SegmentInfo (s : SegmentInfo) : Prop :=
  in_int64 (Index s) /\ in_int64 (Start s) /\ in_int64 (End_ s) /\
  in_int64 (Retries s).

Definition wf_ResumeMetadata (r : ResumeMetadata) : Prop :=
  match RFileMetadata r with Some m => wf_FileMetadata m | None => True end /\
  Forall wf_SegmentInfo (Segments r).

(** A record with its strings as a metadata file holds them. *)
Definition written_FileMetadata (m : FileMetadata) : FileMetadata :=
  mkFileMetadata (json_string (Filename m)) (Size m)
    (json_string (DirectURL m)) (json_string (ShareID m)) (Timestamp m)
    (json_string (Checksum m)).

Definition written_ResumeMetadata (r : ResumeMetadata) : ResumeMetadata :=
  mkResumeMetadata (option_map written_FileMetadata (RFileMetadata r))
    (Segments r) (CreatedAt r) (LastUpdate r).

(** The strings of a record are well-formed UTF-8. *)
Definition utf8_FileMetadata (m : FileMetadata) : Prop :=
  utf8_ValidString (Filename m) = true /\
  utf8_ValidString (DirectURL m) = true /\
  utf8_ValidString (ShareID m) = true /\
  utf8_ValidString (Checksum m) = true.

Definition utf8_ResumeMetadata (r : ResumeMetadata) : Prop :=
  match RFileMetadata r with Some m => utf8_FileMetadata m | None => True end.

Lemma string_length_ind (Q : string -> Prop) :
  (forall s, (forall t, (String.length t < String.length s)%nat -> Q t) -> Q s) ->
  forall s, Q s.
Proof.
  intros H s. remember (String.length s) as n eqn:Hn.
  revert s Hn. induction n as [n IH] using lt_wf_ind. intros s ->.
  apply H. intros t Ht. by apply (IH (String.length t)).
Qed.

Lemma utf8_ValidString_RuneError t :
  utf8_ValidString (utf8_RuneError +:+ t) = utf8_ValidString t.
Proof. reflexivity. Qed.

(** A well-formed string is written as it is. *)
Lemma json_string_valid :
  forall s, utf8_ValidString s = true -> json_string s = s.
Proof.
  induction s as [s IH] using string_length_ind.
  destruct s as [|b0 r0]; [done|].
  cbn [json_string utf8_ValidString].
  destruct (utf8_single b0).
  { intros H. f_equal. apply IH; [simpl; lia|done]. }
  destruct r0 as [|b1 r1]; [done|].
  destruct (utf8_two b0 b1).
  { intros H. do 2 f_equal. apply IH; [simpl; lia|done]. }
  destruct r1 as [|b2 r2]; [done|].
  destruct (utf8_three b0 b1 b2).
  { intros H. do 3 f_equal. apply IH; [simpl; lia|done]. }
  destruct r2 as [|b3 r3]; [done|].
  destruct (utf8_four b0 b1 b2 b3); [|done].
  intros H. do 4 f_equal. apply IH; [simpl; lia|done].
Qed.

(** What is written is well-formed. *)
Lemma utf8_ValidString_json_string :
  forall s, utf8_ValidString (json_string s) = true.
Proof.
  induction s as [s IH] using string_length_ind.
  destruct s as [|b0 r0]; [done|].
  assert (Hrep : utf8_ValidString (utf8_RuneError +:+ json_string r0) = true).
  { rewrite utf8_ValidString_RuneError. apply IH. simpl; lia. }
  cbn [json_string].
  destruct (utf8_single b0) eqn:H1.
  { cbn [utf8_ValidString]. rewrite H1. apply IH. simpl; lia. }
  destruct r0 as [|b1 r1]; [done|].
  destruct (utf8_two b0 b1) eqn:H2.
  { cbn [utf8_ValidString]. rewrite H1, H2. apply IH. simpl; lia. }
  destruct r1 as [|b2 r2]; [done|].
  destruct (utf8_three b0 b1 b2) eqn:H3.
  { cbn [utf8_ValidString]. rewrite H1, H2, H3. apply IH. simpl; lia. }
  destruct r2 as [|b3 r3]; [done|].
  destruct (utf8_four b0 b1 b2 b3) eqn:H4; [|done].
  cbn [utf8_ValidString]. rewrite H1, H2, H3, H4. apply IH. simpl; lia.
Qed.

Lemma written_FileMetadata_utf8 m :
  utf8_FileMetadata m -> written_FileMetadata m = m.
Proof.
  intros (H1 & H2 & H3 & H4). destruct m; simpl in *.
  unfold written_FileMetadata; simpl.
  by rewrite !json_string_valid.
Qed.

Lemma written_ResumeMetadata_utf8 r :
  utf8_ResumeMetadata r -> written_ResumeMetadata r = r.
Proof.
  unfold utf8_ResumeMetadata, written_ResumeMetadata.
  destruct r as [[m|] segs ca lu]; simpl; [|done].
  intros H. by rewrite written_FileMetadata_utf8.
Qed.

Section Roundtrip.
Variable tm : Time -> result error string.
Variable tu : string -> result error Time.
Hypothesis tu_tm : forall t s, tm t = Ok s -> tu s = Ok t.

Lemma in_int64_test n :
  in_int64 n -> (min_int64 <=? n) && (n <=? max_int64) = true.
Proof.
  unfold in_int64. intros [H1 H2]. apply Z.leb_le in H1, H2.
  by rewrite H1, H2.
Qed.

Lemma decode_encode_SegmentInfo s :
  wf_SegmentInfo s -> decode_SegmentInfo (encode_SegmentInfo s) = Ok s.
Proof.
  intros (Hi & Hs & He & Hr). destruct s as [i st en c r]; simpl in *.
  unfold decode_SegmentInfo, encode_SegmentInfo. simpl.
  rewrite (in_int64_test i Hi). simpl.
  rewrite (in_int64_test st Hs). simpl.
  rewrite (in_int64_test en He). simpl.
  rewrite (in_int64_test r Hr). simpl.
  reflexivity.
Qed.

Lemma decode_encode_segments l :
  Forall wf_SegmentInfo l ->
  decode_segments (map encode_SegmentInfo l) = Ok l.
Proof.
  induction 1 as [|s l Hs Hl IH]; [done|].
  change (decode_segments (map encode_SegmentInfo (s :: l))) with
    (match decode_SegmentInfo (encode_SegmentInfo s) with
     | Err e => Err e
     | Ok s0 =>
         match decode_segments (map encode_SegmentInfo l) with
         | Ok l0 => Ok (s0 :: l0)
         | Err e => Err e
         end
     end).
  rewrite (decode_encode_SegmentInfo s Hs). by rewrite IH.
Qed.

Lemma decode_encode_FileMetadata m v m0 :
  wf_FileMetadata m -> encode_FileMetadata tm m = Ok v ->
  decode_FileMetadata tu m0 v = Ok (written_FileMetadata m) \/
  (Checksum m = "" /\
   decode_FileMetadata tu m0 v =
     Ok (mkFileMetadata (json_string (Filename m)) (Size m)
           (json_string (DirectURL m)) (json_string (ShareID m))
           (Timestamp m) (Checksum m0))).
Proof.
  intros Hw. unfold encode_FileMetadata, encode_time.
  destruct (tm (Timestamp m)) as [ts|e] eqn:Ht; [|done].
  intros [= <-]. apply tu_tm in Ht.
  destruct m as [fn sz du sid t ck]; simpl in *.
  unfold decode_FileMetadata, written_FileMetadata.
  destruct (String.eqb_spec ck "") as [->|Hck]; simpl;
    rewrite (in_int64_test sz Hw); simpl; rewrite Ht; simpl.
  - right. done.
  - left. done.
Qed.

Lemma decode_encode_ResumeMetadata r v :
  wf_ResumeMetadata r -> encode_ResumeMetadata tm r = Ok v ->
  decode_ResumeMetadata tu v = Ok (written_ResumeMetadata r).
Proof.
  intros [Hm Hs]. unfold encode_ResumeMetadata, encode_time.
  destruct r as [fm segs ca lu]; simpl in *.
  destruct (match fm with Some m => encode_FileMetadata tm m | None => Ok JNull
            end) as [vfm|e] eqn:Hfm; [|done].
  destruct (tm ca) as [sca|e] eqn:Hca; [|done].
  destruct (tm lu) as [slu|e] eqn:Hlu; [|done].
  intros [= <-]. apply tu_tm in Hca, Hlu.
  unfold decode_ResumeMetadata, written_ResumeMetadata; simpl.
  assert (Hd : match vfm with
               | JNull => Ok (mkResumeMetadata None [] 0 0)
               | _ =>
                   match decode_FileMetadata tu zero_FileMetadata vfm with
                   | Ok m => Ok (mkResumeMetadata (Some m) [] 0 0)
                   | Err e => Err e
                   end
               end
               = Ok (mkResumeMetadata (option_map written_FileMetadata fm)
                       [] 0 0)).
  { destruct fm as [m|].
    - pose proof (decode_encode_FileMetadata m vfm zero_FileMetadata Hm Hfm)
        as Hdec.
      assert (Hobj : exists ms, vfm = JObject ms).
      { unfold encode_FileMetadata in Hfm.
        destruct (encode_time tm (Timestamp m)); [|done].
        inversion Hfm. eauto. }
      destruct Hobj as [ms ->].
      destruct Hdec as [-> | [Hck ->]]; [done|].
      destruct m; simpl in *. unfold written_FileMetadata; simpl.
      by rewrite Hck.
    - by inversion Hfm. }
  rewrite Hd; simpl.
  rewrite (decode_encode_segments segs Hs); simpl.
  rewrite Hca; simpl. rewrite Hlu; simpl. reflexivity.
Qed.

Hypothesis tm_utf8 : forall t s, tm t = Ok s -> utf8_ValidString s = true.

Lemma encode_segments_marshalled l :
  forallb marshalled (map encode_SegmentInfo l) = true.
Proof. induction l as [|s l IH]; [done|]. simpl. by rewrite IH. Qed.

(** What [json.Marshal] writes for a record is a document of integers and
    well-formed strings. *)
Lemma encode_ResumeMetadata_marshalled r v :
  encode_ResumeMetadata tm r = Ok v -> marshalled v = true.
Proof.
  unfold encode_ResumeMetadata, encode_time.
  destruct r as [fm segs ca lu]; simpl.
  destruct (match fm with Some m => encode_FileMetadata tm m | None => Ok JNull
            end) as [vfm|e] eqn:Hfm; [|done].
  destruct (tm ca) as [sca|e] eqn:Hca; [|done].
  destruct (tm lu) as [slu|e] eqn:Hlu; [|done].
  intros [= <-]. apply tm_utf8 in Hca, Hlu.
  assert (Hv : marshalled vfm = true).
  { destruct fm as [m|]; [|by inversion Hfm].
    revert Hfm. unfold encode_FileMetadata, encode_time.
    destruct (tm (Timestamp m)) as [ts|e] eqn:Ht; [|done].
    apply tm_utf8 in Ht. intros [= <-].
    destruct (String.eqb (Checksum m) ""); simpl;
      rewrite !utf8_ValidString_json_string, Ht; reflexivity. }
  cbn [marshalled forallb fst snd].
  rewrite Hv, Hca, Hlu.
  change (marshalled (JArray (map encode_SegmentInfo segs)))
    with (forallb marshalled (map encode_SegmentInfo segs)).
  rewrite encode_segments_marshalled. reflexivity.
Qed.

End Roundtrip.

(** What was marshalled is unmarshalled with the strings it was written
    with. *)
Lemma json_Unmarshal_MarshalIndent P r data :
  PlatformLaws P -> wf_ResumeMetadata r ->
  json_MarshalIndent P r = Ok data ->
  json_Unmarshal P data = Ok (written_ResumeMetadata r).
Proof.
  intros [Hjson _ Htime Hutf8] Hw. unfold json_MarshalIndent, json_Unmarshal.
  destruct (encode_ResumeMetadata (time_MarshalJSON P) r) as [v|e] eqn:He;
    [|done].
  intros [= <-].
  rewrite Hjson
    by (by eapply (encode_ResumeMetadata_marshalled (time_MarshalJSON P))).
  by apply (decode_encode_ResumeMetadata (time_MarshalJSON P)).
Qed.

(** The claim as the specification words it: whatever is saved is loaded
    again as it was. *)
Definition loads_what_was_saved (P : Platform) : Prop :=
  forall fs outputPath meta segments now1 now2 r,
    fst (SaveResumeMetadata P fs outputPath meta segments now1 now2) = None ->
    LoadResumeMetadata P
      (snd (SaveResumeMetadata P fs outputPath meta segments now1 now2))
      outputPath = Ok r ->
    RFileMetadata r = meta /\ Segments r = segments.

(** C4 (amended). When [SaveResumeMetadata] succeeds, [LoadResumeMetadata]
    on the same output path (reading the file without an I/O fault) returns
    the segments that were saved, in the same order, the two time stamps,
    and the file metadata with its four strings as [encoding/json] writes
    them: every byte that is not part of a well-formed UTF-8 sequence
    replaced by U+FFFD.  The file metadata comes back as it was saved when
    its strings are well-formed UTF-8. *)
Theorem save_then_load_roundtrip (P : Platform)
    (fs : gmap string (list Byte.byte)) (outputPath : string)
    (meta : option FileMetadata) (segments : list SegmentInfo)
    (now1 now2 : Time) :
  PlatformLaws P ->
  wf_ResumeMetadata (mkResumeMetadata meta segments now1 now2) ->
  fault P OpStat (outputPath +:+ ResumeMetadataExt) = None ->
  fault P OpReadFile (outputPath +:+ ResumeMetadataExt) = None ->
  fst (SaveResumeMetadata P fs outputPath meta segments now1 now2) = None ->
  exists r,
    LoadResumeMetadata P
      (snd (SaveResumeMetadata P fs outputPath meta segments now1 now2))
      outputPath = Ok r /\
    RFileMetadata r = option_map written_FileMetadata meta /\
    Segments r = segments /\
    CreatedAt r = now1 /\ LastUpdate r = now2 /\
    (utf8_ResumeMetadata (mkResumeMetadata meta segments now1 now2) ->
     RFileMetadata r = meta).
Proof.
  intros Hlaws Hw Hstat Hread. unfold SaveResumeMetadata.
  destruct (os_MkdirAll P _); [done|].
  destruct (json_MarshalIndent P _) as [data|e] eqn:Hm; [|done].
  unfold os_WriteFile.
  destruct (fault P OpWriteFile _); [done|]. simpl. intros _.
  exists (written_ResumeMetadata (mkResumeMetadata meta segments now1 now2)).
  split.
  - unfold LoadResumeMetadata, os_Stat, os_ReadFile.
    rewrite Hstat, Hread, lookup_insert_eq. simpl.
    by rewrite (json_Unmarshal_MarshalIndent P _ _ Hlaws Hw Hm).
  - repeat (split; [done|]). intros Hu.
    by rewrite (written_ResumeMetadata_utf8 _ Hu).
Qed.

Lemma os_Stat_no_fault P fs path :
  no_faults P ->
  os_Stat P fs path =
    match fs !! path with
    | Some data => Ok (Z.of_nat (length data))
    | None => Err (NotExist "stat" path)
    end.
Proof. intros H. unfold os_Stat. by rewrite H. Qed.

Lemma os_Remove_no_fault P fs path :
  no_faults P -> snd (os_Remove P fs path) = delete path fs.
Proof.
  intros H. unfold os_Remove. rewrite H.
  destruct (fs !! path) eqn:E; simpl; [done|].
  symmetry. by apply delete_id.
Qed.

Lemma LoadResumeMetadata_no_fault P fs outputPath data :
  no_faults P -> fs !! (outputPath +:+ ResumeMetadataExt) = Some data ->
  LoadResumeMetadata P fs outputPath =
    match json_Unmarshal P data with
    | Ok r => Ok r
    | Err e => Err (Wrap "failed to unmarshal resume metadata: " e)
    end.
Proof.
  intros H Hd. unfold LoadResumeMetadata, os_ReadFile.
  rewrite os_Stat_no_fault by done. rewrite Hd, H. simpl.
  by destruct (json_Unmarshal P data).
Qed.

(** C5. On a file system without I/O faults, [DetectResumableDownload]
    returns the resume record if and only if both [<output>.terafetch.json]
    and [<output>.part] exist, the metadata parses, and the size of the part
    file is at most the file size recorded in the metadata, and then leaves
    the files alone; when the metadata exists without the part file it
    deletes the metadata and returns neither a record nor an error; when the
    part file is larger than the recorded size it deletes both files and
    returns an error. *)
Theorem detect_resumable_cases (P : Platform)
    (fs : gmap string (list Byte.byte)) (outputPath : string) :
  no_faults P ->
  let metadataPath := outputPath +:+ ResumeMetadataExt in
  let partPath := outputPath +:+ ".part" in
  let d := fst (DetectResumableDownload P fs outputPath) in
  let fs' := snd (DetectResumableDownload P fs outputPath) in
  (forall r,
     d = DetectResume r <->
     exists md pd fm,
       fs !! metadataPath = Some md /\ fs !! partPath = Some pd /\
       json_Unmarshal P md = Ok r /\ RFileMetadata r = Some fm /\
       Z.of_nat (length pd) <= Size fm) /\
  (forall r, d = DetectResume r -> fs' = fs) /\
  (is_Some (fs !! metadataPath) -> fs !! partPath = None ->
   d = DetectNone /\ fs' = delete metadataPath fs) /\
  (forall md pd r fm,
     fs !! metadataPath = Some md -> fs !! partPath = Some pd ->
     json_Unmarshal P md = Ok r -> RFileMetadata r = Some fm ->
     Size fm < Z.of_nat (length pd) ->
     (exists e, d = DetectError e) /\
     fs' = delete partPath (delete metadataPath fs)).
Proof.
  intros Hnf metadataPath partPath d fs'. subst d fs'.
  unfold DetectResumableDownload. fold metadataPath partPath.
  rewrite !os_Stat_no_fault by done.
  destruct (fs !! metadataPath) as [md|] eqn:Hmd; simpl.
  2: { split; [|split; [|split]].
       - intros r. split; [done|]. by intros (? & ? & ? & ? & _).
       - done.
       - by intros [? ?].
       - done. }
  destruct (fs !! partPath) as [pd|] eqn:Hpd; simpl.
  2: { rewrite os_Remove_no_fault by done. split; [|split; [|split]].
       - intros r. split; [done|]. by intros (? & ? & ? & _ & ? & _).
       - done.
       - done.
       - done. }
  rewrite (LoadResumeMetadata_no_fault P fs outputPath md) by done.
  destruct (json_Unmarshal P md) as [r0|e] eqn:Hparse; simpl.
  2: { split; [|split; [|split]].
       - intros r. split; [done|].
         intros (md0 & pd0 & fm & Hm & _ & Hp & _). congruence.
       - done.
       - done.
       - intros md0 pd0 r fm Hm _ Hp. congruence. }
  destruct (RFileMetadata r0) as [fm0|] eqn:Hfm; simpl.
  2: { split; [|split; [|split]].
       - intros r. split; [done|].
         intros (md0 & pd0 & fm & Hm & _ & Hp & Hf & _). congruence.
       - done.
       - done.
       - intros md0 pd0 r fm Hm _ Hp Hf. congruence. }
  destruct (Z.gtb_spec (Z.of_nat (length pd)) (Size fm0)) as [Hgt|Hle]; simpl.
  - rewrite !os_Remove_no_fault by done. split; [|split; [|split]].
    + intros r. split; [done|].
      intros (md0 & pd0 & fm & Hm & Hq & Hp & Hf & Hsz).
      assert (md0 = md) as -> by congruence.
      assert (pd0 = pd) as -> by congruence.
      assert (r = r0) as -> by congruence.
      assert (fm = fm0) as -> by congruence. lia.
    + done.
    + done.
    + intros. eauto.
  - split; [|split; [|split]].
    + intros r. split.
      * intros [= <-]. exists md, pd, fm0. done.
      * intros (md0 & pd0 & fm & Hm & Hq & Hp & Hf & Hsz).
        assert (md0 = md) as -> by congruence. congruence.
    + done.
    + done.
    + intros md0 pd0 r fm Hm Hq Hp Hf Hsz.
      assert (md0 = md) as -> by congruence.
      assert (pd0 = pd) as -> by congruence.
      assert (r = r0) as -> by congruence.
      assert (fm = fm0) as -> by congruence. lia.
Qed.

End DiskFacts.

(** ** A reference platform

    A platform on which the assumptions above hold: no system call fails,
    and documents and times are written with stdpp's countable encodings,
    one byte (one character) per binary digit. *)

Module Reference.

Definition leaf : Type := bool + Z + string.

Fixpoint to_tree (v : JSON) : gen_tree leaf :=
  match v with
  | JNull => GenNode 0 []
  | JBool b => GenLeaf (inl (inl b))
  | JNumber n => GenLeaf (inl (inr n))
  | JFraction s => GenNode 1 [GenLeaf (inr s)]
  | JString s => GenLeaf (inr s)
  | JArray items => GenNode 2 (map to_tree items)
  | JObject members =>
      GenNode 3
        (map (fun kv => GenNode 4 [GenLeaf (inr (fst kv)); to_tree (snd kv)])
           members)
  end.

Fixpoint of_tree (t : gen_tree leaf) : JSON :=
  match t with
  | GenLeaf (inl (inl b)) => JBool b
  | GenLeaf (inl (inr n)) => JNumber n
  | GenLeaf (inr s) => JString s
  | GenNode 1 [GenLeaf (inr s)] => JFraction s
  | GenNode 2 ts => JArray (map of_tree ts)
  | GenNode 3 ts =>
      JObject
        (map (fun t =>
                match t with
                | GenNode _ [GenLeaf (inr k); t'] => (k, of_tree t')
                | _ => ("", JNull)
                end) ts)
  | _ => JNull
  end.

Lemma of_to_tree : forall v, of_tree (to_tree v) = v.
Proof.
  fix IH 1. intros [| | | | |items|members]; simpl; try reflexivity.
  - f_equal. induction items as [|v items IHl]; simpl; [done|].
    by rewrite IH, IHl.
  - f_equal. induction members as [|[k v] members IHl]; simpl; [done|].
    by rewrite IH, IHl.
Qed.

#[local] Instance JSON_eq_dec : EqDecision JSON.
Proof.
  intros x y. destruct (decide (to_tree x = to_tree y)) as [H|H].
  - left. rewrite <- (of_to_tree x), <- (of_to_tree y). by rewrite H.
  - right. intros ->. by apply H.
Defined.

#[local] Instance JSON_countable : Countable JSON :=
  inj_countable' to_tree of_tree of_to_tree.

Fixpoint bytes_of_pos (p : positive) : list Byte.byte :=
  match p with
  | xH => []
  | xO p' => Byte.x30 :: bytes_of_pos p'
  | xI p' => Byte.x31 :: bytes_of_pos p'
  end.

Fixpoint pos_of_bytes (d : list Byte.byte) : positive :=
  match d with
  | [] => xH
  | Byte.x30 :: d' => xO (pos_of_bytes d')
  | _ :: d' => xI (pos_of_bytes d')
  end.

Lemma pos_of_bytes_of_pos p : pos_of_bytes (bytes_of_pos p) = p.
Proof. induction p; simpl; congruence. Qed.

Fixpoint string_of_pos (p : positive) : string :=
  match p with
  | xH => ""
  | xO p' => String "0" (string_of_pos p')
  | xI p' => String "1" (string_of_pos p')
  end.

Fixpoint pos_of_string (s : string) : positive :=
  match s with
  | EmptyString => xH
  | String a s' =>
      if Ascii.eqb a "0" then xO (pos_of_string s') else xI (pos_of_string s')
  end.

Lemma pos_of_string_of_pos p : pos_of_string (string_of_pos p) = p.
Proof. induction p; simpl; congruence. Qed.

(** The parser gives no document with a string that is not well-formed
    UTF-8. *)
Definition platform : Platform :=
  {| time_MarshalJSON := fun t => Ok (string_of_pos (encode t));
     time_UnmarshalJSON := fun s =>
       match decode (pos_of_string s) with
       | Some t => Ok t
       | None => Err (Plain "parsing time: cannot parse")
       end;
     json_encode_indent := fun v => bytes_of_pos (encode v);
     json_decode := fun d =>
       match decode (pos_of_bytes d) with
       | Some v =>
           if utf8_JSON v then Ok v else Err (Plain "invalid UTF-8 in string")
       | None => Err (Plain "invalid character")
       end;
     filepath_Dir := fun path => path +:+ "/..";
     fault := fun _ _ => None |}.

Lemma marshalled_utf8 : forall v, marshalled v = true -> utf8_JSON v = true.
Proof.
  fix IH 1. intros [| | | | |items|members]; simpl; try done.
  - induction items as [|v items IHl]; simpl; [done|].
    intros [Hv Hl]%andb_prop. by rewrite (IH v Hv), IHl.
  - induction members as [|[k v] members IHl]; simpl; [done|].
    intros [[Hk Hv]%andb_prop Hl]%andb_prop.
    by rewrite Hk, (IH v Hv), IHl.
Qed.

Lemma string_of_pos_utf8 p : utf8_ValidString (string_of_pos p) = true.
Proof. induction p; simpl; done. Qed.

Lemma platform_laws : PlatformLaws platform.
Proof.
  split.
  - intros v Hv. unfold platform.
    cbn [json_decode json_encode_indent].
    by rewrite pos_of_bytes_of_pos, decode_encode, (marshalled_utf8 v Hv).
  - intros data v. unfold platform. cbn [json_decode].
    destruct (decode (pos_of_bytes data)) as [v0|]; [|done].
    destruct (utf8_JSON v0) eqn:Hu; [|done]. by intros [= <-].
  - intros t s. unfold platform.
    cbn [time_MarshalJSON time_UnmarshalJSON].
    intros [= <-]. by rewrite pos_of_string_of_pos, decode_encode.
  - intros t s. unfold platform. cbn [time_MarshalJSON].
    intros [= <-]. apply string_of_pos_utf8.
Qed.

Lemma platform_no_faults : no_faults platform.
Proof. intros op path. reflexivity. Qed.

End Reference.

Module DiskWitness.
Import Disk DiskFacts Reference.

Definition meta_small : FileMetadata :=
  mkFileMetadata "a.bin" 10 "https://h/a" "s1" 1700000000 "".

Definition segs_small : list SegmentInfo :=
  [mkSegmentInfo 0 0 4 true 0; mkSegmentInfo 1 5 9 false 1].

Lemma meta_small_wf segs now1 now2 :
  Forall wf_SegmentInfo segs ->
  wf_ResumeMetadata (mkResumeMetadata (Some meta_small) segs now1 now2).
Proof.
  intros Hs. split; [|done].
  unfold wf_FileMetadata, in_int64, min_int64, max_int64; simpl; lia.
Qed.

Lemma segs_small_wf : Forall wf_SegmentInfo segs_small.
Proof.
  repeat constructor; unfold in_int64, min_int64, max_int64; simpl; lia.
Qed.

Lemma save_then_load_roundtrip_witness :
  exists r,
    LoadResumeMetadata platform
      (snd (SaveResumeMetadata platform ∅ "a.bin" (Some meta_small)
              segs_small 1 2)) "a.bin" = Ok r /\
    RFileMetadata r = Some meta_small /\ Segments r = segs_small /\
    CreatedAt r = 1 /\ LastUpdate r = 2.
Proof.
  destruct (save_then_load_roundtrip platform ∅ "a.bin" (Some meta_small)
              segs_small 1 2) as (r & Hl & _ & Hs & Hc & Hu & Hm).
  - apply platform_laws.
  - apply meta_small_wf, segs_small_wf.
  - reflexivity.
  - reflexivity.
  - vm_compute. reflexivity.
  - exists r. refine (conj Hl (conj _ (conj Hs (conj Hc Hu)))).
    apply Hm. vm_compute. repeat split.
Defined.

(** File metadata whose name starts with the byte [0xFF], which no
    well-formed UTF-8 text contains. *)
Definition meta_invalid : FileMetadata :=
  mkFileMetadata (String (ascii_of_nat 255) "a.bin") 10 "https://h/a" "s1"
    1700000000 "".

(** C4 (as stated) fails: the file name [FF 61 2E 62 69 6E] is saved without
    error and loaded as [EF BF BD 61 2E 62 69 6E]. *)
Lemma invalid_utf8_filename_is_replaced :
  fst (SaveResumeMetadata platform ∅ "a.bin" (Some meta_invalid) segs_small
         1 2) = None /\
  LoadResumeMetadata platform
    (snd (SaveResumeMetadata platform ∅ "a.bin" (Some meta_invalid)
            segs_small 1 2)) "a.bin"
  = Ok (mkResumeMetadata
          (Some (mkFileMetadata (utf8_RuneError +:+ "a.bin") 10 "https://h/a"
                   "s1" 1700000000 ""))
          segs_small 1 2) /\
  ~ loads_what_was_saved platform.
Proof.
  assert (Hsave : fst (SaveResumeMetadata platform ∅ "a.bin"
                         (Some meta_invalid) segs_small 1 2) = None)
    by (vm_compute; reflexivity).
  assert (Hload : LoadResumeMetadata platform
            (snd (SaveResumeMetadata platform ∅ "a.bin" (Some meta_invalid)
                    segs_small 1 2)) "a.bin"
          = Ok (mkResumeMetadata
                  (Some (mkFileMetadata (utf8_RuneError +:+ "a.bin") 10
                           "https://h/a" "s1" 1700000000 ""))
                  segs_small 1 2)).
  { revert Hsave. unfold SaveResumeMetadata.
    destruct (os_MkdirAll platform _); [done|].
    destruct (json_MarshalIndent platform _) as [data|e] eqn:Hm; [|done].
    intros _. unfold os_WriteFile. simpl.
    unfold LoadResumeMetadata, os_Stat, os_ReadFile.
    rewrite lookup_insert_eq. simpl.
    assert (Hw : wf_ResumeMetadata
                   (mkResumeMetadata (Some meta_invalid) segs_small 1 2)).
    { split; [|apply segs_small_wf].
      unfold wf_FileMetadata, in_int64, min_int64, max_int64; simpl; lia. }
    rewrite (json_Unmarshal_MarshalIndent platform _ _ platform_laws Hw Hm).
    reflexivity. }
  split; [exact Hsave|]. split; [exact Hload|].
  intros H. destruct (H _ _ _ _ _ _ _ Hsave Hload) as [Hm _].
  discriminate Hm.
Qed.

(** Stale metadata: the metadata file without its part file. *)
Definition fs_stale : gmap string (list Byte.byte) :=
  {[ "a.bin.terafetch.json" := [] ]}.

Lemma detect_resumable_cases_witness :
  fst (DetectResumableDownload platform fs_stale "a.bin") = DetectNone /\
  snd (DetectResumableDownload platform fs_stale "a.bin")
    = delete "a.bin.terafetch.json" fs_stale.
Proof.
  destruct (detect_resumable_cases platform fs_stale "a.bin"
              platform_no_faults) as (_ & _ & H & _).
  apply H; [|reflexivity]. exists []. reflexivity.
Defined.

End DiskWitness.


(** ** Properties of the download coordinator *)

Module EngineFacts.
Import Disk Engine.
Local Open Scope engine_scope.

(** Events other than the rename and the integrity check. *)
Definition quiet (ev : Event) : Prop :=
  match ev with
  | EvRename _ _ | EvVerify _ => False
  | _ => True
  end.

Lemma bind_inv {A B} (m : M A) (k : A -> M B) s r s' evs :
  bind m k s = (r, s', evs) ->
  (exists a s1 e1 e2,
     m s = (Ok a, s1, e1) /\ k a s1 = (r, s', e2) /\ evs = e1 ++ e2) \/
  (exists x, m s = (Err x, s', evs) /\ r = Err x).
Proof.
  unfold bind. destruct (m s) as [[[a|x] s1] e1].
  - destruct (k a s1) as [[r2 s2] e2] eqn:Hk. intros [= <- <- <-].
    left. exists a, s1, e1, e2. done.
  - intros [= <- <- <-]. right. eauto.
Qed.

Lemma defer_inv {A} (c : M unit) (body : M A) s r s' evs :
  defer c body s = (r, s', evs) ->
  exists s1 e1 x e2,
    body s = (r, s1, e1) /\ c s1 = (x, s', e2) /\ evs = e1 ++ e2.
Proof.
  unfold defer. destruct (body s) as [[r1 s1] e1].
  destruct (c s1) as [[x s2] e2] eqn:Hc. intros [= <- <- <-].
  exists s1, e1, x, e2. done.
Qed.

Lemma try_inv {A} (m : M A) s r s' evs :
  try m s = (r, s', evs) ->
  (exists a, m s = (Ok a, s', evs) /\ r = Ok (Ok a)) \/
  (exists e, m s = (Err (Failed e), s', evs) /\ r = Ok (Err e)) \/
  (m s = (Err Panicked, s', evs) /\ r = Err Panicked).
Proof.
  unfold try. destruct (m s) as [[[a|[e|]] s1] e1]; intros [= <- <- <-]; eauto.
Qed.


Lemma read_files_inv {A} (f : _ -> A) s r s' evs :
  read_files f s = (r, s', evs) -> evs = [] /\ r = Ok (f (files s)).
Proof. unfold read_files. by intros [= <- <- <-]. Qed.

(** Computations that emit quiet events only. *)
Definition quiet_m {A} (m : M A) : Prop := forall s, Forall quiet (snd (m s)).

Lemma quiet_ret {A} (a : A) : quiet_m (ret a).
Proof. intros s. constructor. Qed.

Lemma quiet_fail {A} e : quiet_m (@fail A e).
Proof. intros s. constructor. Qed.

Lemma quiet_panic {A} : quiet_m (@panic A).
Proof. intros s. constructor. Qed.

Lemma quiet_on_files {A} (f : _ -> A * _) : quiet_m (on_files f).
Proof. intros s. unfold on_files. destruct (f (files s)). constructor. Qed.

Lemma quiet_read_files {A} (f : _ -> A) : quiet_m (read_files f).
Proof. intros s. constructor. Qed.

Lemma quiet_now env : quiet_m (now env).
Proof. intros s. constructor. Qed.

Lemma quiet_emit ev : quiet ev -> quiet_m (emit ev).
Proof. intros H s. by repeat constructor. Qed.

Lemma quiet_bind {A B} (m : M A) (k : A -> M B) :
  quiet_m m -> (forall a, quiet_m (k a)) -> quiet_m (bind m k).
Proof.
  intros Hm Hk s. unfold bind. specialize (Hm s).
  destruct (m s) as [[[a|x] s1] e1]; simpl in *; [|done].
  specialize (Hk a s1). destruct (k a s1) as [[r2 s2] e2]; simpl in *.
  by apply Forall_app.
Qed.

Lemma quiet_try {A} (m : M A) : quiet_m m -> quiet_m (try m).
Proof.
  intros Hm s. unfold try. specialize (Hm s).
  by destruct (m s) as [[[a|[e|]] s1] e1].
Qed.

Lemma quiet_defer {A} (c : M unit) (m : M A) :
  quiet_m c -> quiet_m m -> quiet_m (defer c m).
Proof.
  intros Hc Hm s. unfold defer. specialize (Hm s).
  destruct (m s) as [[r1 s1] e1]; simpl in *.
  specialize (Hc s1). destruct (c s1) as [[x s2] e2]; simpl in *.
  by apply Forall_app.
Qed.

Section Coordinator.
Variable P : Platform.
Variable env : EngineEnv.

Lemma process_results_quiet k outputPath results : forall c x,
  quiet_m (process_results P env k outputPath results c x).
Proof.
  induction results as [|res rest IH]; intros c x; simpl.
  { apply quiet_ret. }
  destruct (Worker.RError res).
  { apply quiet_bind; [by apply quiet_emit | intros; apply quiet_fail]. }
  apply quiet_bind.
  - destruct (Worker.RCompleted res); [|apply quiet_ret].
    apply quiet_bind; [apply quiet_now|]. intros t.
    apply quiet_bind; [apply quiet_on_files|]. intros _. apply quiet_ret.
  - intros a. destruct (a >=? x); [apply quiet_ret | apply IH].
Qed.

(** What a call of [executeDownload] emits: when it succeeds, quiet events
    and then the rename, the join of its pool and the closing of the part
    file; when it does not, quiet events only. *)
Definition attempt_shape (k : Z) (outputPath partPath : string)
    (r : result Exit unit) (evs : list Event) : Prop :=
  match r with
  | Ok _ =>
      exists pre,
        evs = pre ++ [EvRename partPath outputPath; EvJoin k; EvClosePart k]
        /\ Forall quiet pre
  | Err _ => Forall quiet evs
  end.

Lemma executeDownload_shape k meta segments outputPath partPath config s :
  let '(r, _, evs) :=
    executeDownload P env k meta segments outputPath partPath config s in
  attempt_shape k outputPath partPath r evs.
Proof.
  unfold executeDownload, bind at 1, on_files at 1.
  destruct (os_OpenFile P (files s) partPath true false) as [oe fs1].
  destruct oe as [e|]; [by constructor|].
  unfold defer at 1, bind at 1, on_files at 1. cbv beta iota.
  destruct (File_Truncate P _ partPath (Size meta)) as [oe fs2].
  cbv beta iota. cbn [files ticks].
  destruct oe as [e|]; [by repeat constructor|].
  destruct (mul64 (Threads config) 2 <? 0); [by repeat constructor|].
  unfold defer at 1.
  set (body := bind (emit (EvPoolStart k)) _).
  assert (Hbody : forall s0, let '(r, _, evs) := body s0 in
            match r with
            | Ok _ => exists pre, evs = pre ++ [EvRename partPath outputPath]
                                  /\ Forall quiet pre
            | Err _ => Forall quiet evs
            end).
  { intros s0. unfold body, bind at 1. cbn [emit].
    unfold bind at 1, pool_writes, on_files at 1. cbv beta iota.
    unfold bind at 1.
    set (s3 := mkState _ _).
    pose proof (process_results_quiet k outputPath (poolResults (pools env k))
      (Z.of_nat (length (filter (fun s => Completed s = true) segments)))
      (Z.of_nat (length segments)) s3) as Hq.
    destruct (process_results _ _ _ _ _ _ _ s3) as [[[u1|x] s4] e4];
      simpl in Hq; [|by constructor].
    unfold bind at 1, on_files at 1.
    destruct (AtomicRename P (files s4) partPath outputPath) as [oe fs5].
    destruct oe as [e|]; cbn.
    - constructor; [done|]. by rewrite !app_nil_r.
    - exists (EvPoolStart k :: e4). split; [done|]. by constructor. }
  specialize (Hbody (mkState fs2 (ticks s))).
  destruct (body _) as [[r3 s3] e3]. cbn.
  destruct r3 as [[]|x]; cbn.
  - destruct Hbody as (pre & -> & Hpre). exists pre.
    split; [by rewrite <- !app_assoc|done].
  - apply Forall_app. split; [|by repeat constructor].
    apply Forall_app. split; [done|by repeat constructor].
Qed.

Lemma executeDownloadWithRetry_loop_shape outputPath partPath meta config
    fuel : forall attempt segments s,
  let '(r, _, evs) :=
    executeDownloadWithRetry_loop P env fuel attempt meta segments outputPath
      partPath config s in
  match r with
  | Ok _ =>
      exists pre k,
        evs = pre ++ [EvRename partPath outputPath; EvJoin k; EvClosePart k]
        /\ Forall quiet pre
  | Err _ => Forall quiet evs
  end.
Proof.
  induction fuel as [|fuel IH]; intros attempt segments s; simpl.
  { constructor. }
  destruct (attempt <? 3); simpl; [|constructor].
  unfold bind at 1, try at 1.
  pose proof (executeDownload_shape attempt meta segments outputPath partPath
                config s) as Hshape.
  destruct (executeDownload P env attempt meta segments outputPath partPath
              config s) as [[[[]|[err|]] s1] e1]; simpl in Hshape.
  - cbn. destruct Hshape as (pre & -> & Hpre).
    exists pre, attempt. by rewrite app_nil_r.
  - destruct (isRecoverableError err); simpl.
    2: { cbn. by rewrite app_nil_r. }
    unfold bind at 1.
    set (reload := if attempt <? 3 - 1 then _ else _).
    assert (Hreload : exists segs s2, reload s1 = (Ok segs, s2, [])).
    { unfold reload. destruct (attempt <? 3 - 1); [|by eexists _, _].
      unfold bind, read_files. cbn. by eexists _, _. }
    destruct Hreload as (segs & s2 & ->).
    specialize (IH (add64 attempt 1) segs s2).
    destruct (executeDownloadWithRetry_loop _ _ _ _ _ _ _ _ _ s2)
      as [[r3 s3] e3].
    destruct r3 as [[]|x]; cbn.
    + destruct IH as (pre & k & -> & Hpre). exists (e1 ++ pre), k.
      split; [by rewrite <- !app_assoc|]. by apply Forall_app.
    + by apply Forall_app.
  - done.
Qed.

(** What a successful [Download] emits. *)
Definition download_shape (r : result Exit unit) (evs : list Event) : Prop :=
  match r with
  | Ok _ =>
      exists pre k outputPath,
        evs = pre ++ [ EvRename (outputPath +:+ ".part") outputPath;
                       EvJoin k; EvClosePart k;
                       EvVerify outputPath; EvCleanup outputPath ]
        /\ Forall quiet pre
  | Err _ => True
  end.

Lemma download_shape_bind {A} (m : M A) (k : A -> M unit) s :
  quiet_m m ->
  (forall a s1, let '(r, _, evs) := k a s1 in download_shape r evs) ->
  let '(r, _, evs) := bind m k s in download_shape r evs.
Proof.
  intros Hm Hk. unfold bind. specialize (Hm s).
  destruct (m s) as [[[a|x] s1] e1]; simpl in *; [|done].
  specialize (Hk a s1). destruct (k a s1) as [[r2 s2] e2].
  destruct r2 as [[]|x]; simpl in *; [|done].
  destruct Hk as (pre & j & o & -> & Hpre). exists (e1 ++ pre), j, o.
  split; [by rewrite <- !app_assoc|]. by apply Forall_app.
Qed.

Lemma download_and_finish_shape meta segments outputPath config s :
  let '(r, _, evs) :=
    download_and_finish P env meta segments outputPath (outputPath +:+ ".part")
      config s in
  download_shape r evs.
Proof.
  unfold download_and_finish, bind at 1, try at 1, executeDownloadWithRetry.
  pose proof (executeDownloadWithRetry_loop_shape outputPath
                (outputPath +:+ ".part") meta config 3 0 segments s) as Hs.
  destruct (executeDownloadWithRetry_loop _ _ _ _ _ _ _ _ _ s)
    as [[[[]|[err|]] s1] e1]; simpl in Hs; try done.
  destruct Hs as (pre & k & -> & Hpre).
  unfold bind at 1, try at 1, verifyFileIntegrity, bind at 1. cbn [emit].
  unfold bind at 1, read_files at 1.
  destruct (GetFileSize P (files s1) outputPath) as [actual|e]; [|done].
  destruct (negb (actual =? Size meta)); [done|].
  cbn [ret]. unfold bind at 1. cbn [emit]. unfold bind at 1, on_files at 1.
  destruct (CleanupResumeMetadata P (files s1) outputPath) as [oe fs2].
  cbn. exists pre, k, outputPath. split; [|done].
  by rewrite <- !app_assoc.
Qed.

Lemma detect_resume_quiet meta config outputPath :
  quiet_m (detect_resume P env meta config outputPath).
Proof.
  unfold detect_resume.
  apply quiet_bind; [apply quiet_on_files|]. intros d.
  apply quiet_bind.
  { destruct d; (apply quiet_ret || apply quiet_panic). }
  intros [r|]; [|apply quiet_ret].
  apply quiet_bind; [apply quiet_now|]. intros t.
  destruct (ValidateResumeCompatibility r meta t); [|apply quiet_ret].
  apply quiet_bind; [apply quiet_on_files|]. intros _.
  apply quiet_bind; [apply quiet_on_files|]. intros _. apply quiet_ret.
Qed.

Lemma Download_shape meta config s :
  let '(r, _, evs) := Download P env meta config s in download_shape r evs.
Proof.
  unfold Download.
  destruct meta as [meta|]; [|done]. destruct config as [config|]; [|done].
  set (outputPath := if String.eqb (OutputPath config) "" then Filename meta
                     else OutputPath config).
  destruct (EnsureDir P outputPath); [done|].
  apply download_shape_bind; [apply detect_resume_quiet|].
  intros [resumeData config'] s1.
  apply download_shape_bind.
  { destruct resumeData; [apply quiet_ret|].
    destruct (PlanDownload _ _ _); [apply quiet_ret | apply quiet_fail]. }
  intros segments s2.
  apply download_shape_bind.
  { destruct resumeData; [apply quiet_read_files | apply quiet_on_files]. }
  intros [e|] s3; [done|].
  apply download_shape_bind; [apply quiet_now|]. intros now1 s4.
  apply download_shape_bind; [apply quiet_now|]. intros now2 s5.
  apply download_shape_bind; [apply quiet_on_files|]. intros [e|] s6; [done|].
  apply download_and_finish_shape.
Qed.

End Coordinator.
(** The order of the specification: wherever the rename occurs, the workers
    have been joined and the integrity check has been made before it. *)
Definition rename_after_join_and_verification (evs : list Event) : Prop :=
  forall (i : nat) oldPath newPath,
    evs !! i = Some (EvRename oldPath newPath) ->
    (exists (j : nat) k, (j < i)%nat /\ evs !! j = Some (EvJoin k)) /\
    (exists (j : nat) path, (j < i)%nat /\ evs !! j = Some (EvVerify path)).

(** A fresh download of a ten-byte file with one worker, whose only segment
    is reported completed. *)
Definition env_one : EngineEnv :=
  {| clock := fun n => Z.of_nat n;
     pools := fun _ =>
       {| poolResults :=
            [ Worker.mkDownloadResult 0 10 None true ];
          poolWrites := fun data => data |} |}.

Definition meta_ten : FileMetadata :=
  mkFileMetadata "a.bin" 10 "https://h/a" "s1" 0 "".

Definition config_one : DownloadConfig :=
  mkDownloadConfig "a.bin" 1 0 "" true None.

Definition run_one : result Exit unit * State * list Event :=
  Download Reference.platform env_one (Some meta_ten) (Some config_one)
    (mkState ∅ 0).

Lemma run_one_events :
  fst (fst run_one) = Ok tt /\
  snd run_one =
    [ EvPoolStart 0; EvRename "a.bin.part" "a.bin"; EvJoin 0; EvClosePart 0;
      EvVerify "a.bin"; EvCleanup "a.bin" ].
Proof. vm_compute. split; reflexivity. Qed.

(** C3 (as stated) fails: in this successful run the rename is the second
    event; the join of the workers and the integrity check come after it. *)
Lemma rename_before_join_and_verification :
  fst (fst run_one) = Ok tt /\
  ~ rename_after_join_and_verification (snd run_one).
Proof.
  destruct run_one_events as [Hok Hev]. split; [exact Hok|].
  rewrite Hev. intros H.
  destruct (H 1%nat "a.bin.part" "a.bin" eq_refl) as [_ (j & path & Hj & Hv)].
  destruct j as [|j]; [discriminate Hv | lia].
Qed.

(** C3 (amended). In every successful run of [Download] the events end
    with, in this order: the rename of [<output>.part] to [<output>], the
    join of the workers of the last pool ([pool.shutdown()], deferred by
    [executeDownload]), the closing of the part file, the integrity check,
    made on [<output>], and the cleanup of the resume metadata; no rename
    and no integrity check happens before.  The rename therefore precedes
    the join and the size verification. *)
Theorem rename_precedes_verification (P : Platform) (env : EngineEnv)
    (meta : option FileMetadata) (config : option DownloadConfig)
    (s s' : State) (evs : list Event) :
  Download P env meta config s = (Ok tt, s', evs) ->
  exists pre k outputPath,
    evs = pre ++ [ EvRename (outputPath +:+ ".part") outputPath;
                   EvJoin k; EvClosePart k;
                   EvVerify outputPath; EvCleanup outputPath ] /\
    Forall quiet pre.
Proof.
  intros H. pose proof (Download_shape P env meta config s) as Hs.
  rewrite H in Hs. exact Hs.
Qed.

Lemma rename_precedes_verification_witness :
  exists pre k outputPath,
    snd run_one =
      pre ++ [ EvRename (outputPath +:+ ".part") outputPath;
               EvJoin k; EvClosePart k;
               EvVerify outputPath; EvCleanup outputPath ] /\
    Forall quiet pre.
Proof.
  apply (rename_precedes_verification Reference.platform env_one
           (Some meta_ten) (Some config_one) (mkState ∅ 0)
           (snd (fst run_one))).
  vm_compute. reflexivity.
Defined.

End EngineFacts.

(** * Part III: further properties *)

(** ** The planner: thread count, plan size, incomplete segments *)

Module PlannerMore.

Lemma determineOptimalThreads_spec (size threads : Z) :
  0 <= size <= max_int64 ->
  determineOptimalThreads NewDownloadPlanner size threads =
    Z.min (Z.min 32 (Z.max 1 threads)) (Z.max 1 (size / MinSegmentSize)).
Proof.
  intros Hsz. unfold determineOptimalThreads. simpl.
  destruct (quot64_nonneg size MinSegmentSize) as [-> Hq];
    [lia|unfold MinSegmentSize; lia|].
  unfold MaxThreads.
  assert (H1 : (if threads <=? 0 then 1 else threads) = Z.max 1 threads)
    by (destruct (Z.leb_spec threads 0); lia).
  rewrite H1.
  assert (H2 : (if Z.max 1 threads >? 32 then 32 else Z.max 1 threads)
               = Z.min 32 (Z.max 1 threads))
    by (destruct (Z.gtb_spec (Z.max 1 threads) 32); lia).
  rewrite H2.
  assert (H3 : (if size / MinSegmentSize =? 0 then 1
                else size / MinSegmentSize) = Z.max 1 (size / MinSegmentSize))
    by (destruct (Z.eqb_spec (size / MinSegmentSize) 0); lia).
  rewrite H3.
  destruct (Z.gtb_spec (Z.min 32 (Z.max 1 threads))
              (Z.max 1 (size / MinSegmentSize))); lia.
Qed.

(** X1. For a file size that is not negative, [determineOptimalThreads]
    returns a count between 1 and 32 that does not exceed a positive
    request, and small enough that every thread gets [MinSegmentSize] bytes
    when the file has that many. *)
Theorem determineOptimalThreads_bounds (size threads : Z) :
  0 <= size <= max_int64 ->
  let r := determineOptimalThreads NewDownloadPlanner size threads in
  1 <= r <= 32 /\
  (1 <= threads -> r <= threads) /\
  (MinSegmentSize <= size -> r * MinSegmentSize <= size).
Proof.
  intros Hsz r. subst r. rewrite determineOptimalThreads_spec by done.
  assert (Hm : 0 < MinSegmentSize) by (unfold MinSegmentSize; lia).
  assert (Hd : size / MinSegmentSize * MinSegmentSize <= size).
  { rewrite Z.mul_comm. apply Z.mul_div_le. lia. }
  assert (0 <= size / MinSegmentSize) by (apply Z.div_pos; lia).
  repeat split; try lia.
  intros Hbig.
  assert (1 <= size / MinSegmentSize) by (apply Z.div_le_lower_bound; lia).
  nia.
Qed.

Lemma determineOptimalThreads_bounds_witness :
  determineOptimalThreads NewDownloadPlanner (5 * 1024 * 1024) 8 = 5 /\
  1 <= determineOptimalThreads NewDownloadPlanner (5 * 1024 * 1024) 8 <= 32.
Proof.
  split; [reflexivity|].
  apply (determineOptimalThreads_bounds (5 * 1024 * 1024) 8).
  unfold max_int64. lia.
Defined.

(** The plan in closed form: one segment for a file below
    [MinSegmentSize], otherwise [n] segments of [size / n] bytes, the last
    one taking the remainder. *)
Definition plan_threads (size threads : Z) : Z :=
  Z.min (Z.min 32 (Z.max 1 threads)) (Z.max 1 (size / MinSegmentSize)).

Lemma CalculateSegments_closed_form (size threads : Z) :
  0 < size <= max_int64 ->
  let n := plan_threads size threads in
  CalculateSegments NewDownloadPlanner size threads =
    if size <? MinSegmentSize then
      [ {| Index := 0; Start := 0; End_ := size - 1;
           Completed := false; Retries := 0 |} ]
    else segs_from n (size / n) size (Z.to_nat n) 0.
Proof.
  intros Hsz n. subst n. unfold plan_threads, CalculateSegments.
  destruct (Z.leb_spec size 0) as [H0|H0]; [lia|].
  assert (Hm : 0 < MinSegmentSize) by (unfold MinSegmentSize; lia).
  assert (H1 : (if threads <=? 0 then 1 else threads) = Z.max 1 threads)
    by (destruct (Z.leb_spec threads 0); lia).
  rewrite H1. simpl maxThreads. unfold MaxThreads.
  assert (H2 : (if Z.max 1 threads >? 32 then 32 else Z.max 1 threads)
               = Z.min 32 (Z.max 1 threads))
    by (destruct (Z.gtb_spec (Z.max 1 threads) 32); lia).
  rewrite H2. set (tc := Z.min 32 (Z.max 1 threads)).
  assert (Htc : 1 <= tc <= 32) by (unfold tc; lia).
  simpl minSegmentSize.
  destruct (Z.ltb_spec size MinSegmentSize) as [Hsmall|Hbig].
  { unfold sub64. rewrite wrap64_id; [done|].
    unfold in_int64, min_int64, max_int64 in *. lia. }
  destruct (quot64_nonneg size tc) as [-> Hq]; [lia|lia|].
  assert (Hone : 1 <= size / MinSegmentSize)
    by (apply Z.div_le_lower_bound; lia).
  destruct (Z.ltb_spec (size / tc) MinSegmentSize) as [Hlt|Hge].
  - destruct (quot64_nonneg size MinSegmentSize) as [-> Hq2]; [lia|lia|].
    destruct (Z.eqb_spec (size / MinSegmentSize) 0) as [He|_]; [lia|].
    destruct (quot64_nonneg size (size / MinSegmentSize)) as [-> Hq3];
      [lia|lia|].
    assert (Hlt' : size / MinSegmentSize < tc).
    { apply Z.div_lt_upper_bound; [lia|].
      destruct (Z.lt_ge_cases size (MinSegmentSize * tc)) as [|Hc]; [done|].
      assert (MinSegmentSize <= size / tc); [|lia].
      apply Z.div_le_lower_bound; lia. }
    replace (Z.min tc (Z.max 1 (size / MinSegmentSize)))
      with (size / MinSegmentSize) by lia.
    rewrite segments_loop_segs_from; try lia; [done| |].
    + apply Z.div_le_lower_bound; lia.
    + apply Z.mul_div_le. lia.
  - assert (Hge' : tc <= size / MinSegmentSize).
    { apply Z.div_le_lower_bound; [lia|].
      pose proof (Z.mul_div_le size tc ltac:(lia)). nia. }
    replace (Z.min tc (Z.max 1 (size / MinSegmentSize))) with tc by lia.
    rewrite segments_loop_segs_from; try lia; [done|].
    apply Z.mul_div_le. lia.
Qed.

Lemma segs_from_fresh tc ss fs n i :
  Forall (fun s => Completed s = false /\ Retries s = 0)
    (segs_from tc ss fs n i).
Proof.
  revert i. induction n as [|n IH]; intros i; simpl; [constructor|].
  constructor; [done|apply IH].
Qed.

(** X2. For a file that is not empty, the plan has exactly
    [determineOptimalThreads] segments, whatever thread count is passed to
    [CalculateSegments] (it clamps the count the same way); none of them is
    completed or has been retried; and [PlanDownload] without resume data
    returns this plan. *)
Theorem plan_segment_count (size threads : Z) :
  0 < size <= max_int64 ->
  let segs := CalculateSegments NewDownloadPlanner size threads in
  Z.of_nat (length segs)
    = determineOptimalThreads NewDownloadPlanner size threads /\
  Forall (fun s => Completed s = false /\ Retries s = 0) segs /\
  (forall meta config,
     Size meta = size -> Threads config = threads ->
     ResumeData config = None ->
     PlanDownload NewDownloadPlanner (Some meta) (Some config) = Ok segs).
Proof.
  intros Hsz segs. subst segs.
  assert (Hn : 1 <= plan_threads size threads) by (unfold plan_threads; lia).
  assert (Hidem : plan_threads size (plan_threads size threads)
                  = plan_threads size threads)
    by (unfold plan_threads; lia).
  split; [|split].
  - rewrite determineOptimalThreads_spec by lia.
    rewrite CalculateSegments_closed_form by done. fold (plan_threads size threads).
    destruct (Z.ltb_spec size MinSegmentSize) as [Hs|Hb]; simpl.
    + unfold plan_threads. rewrite Z.div_small by lia. lia.
    + rewrite segs_from_length. lia.
  - rewrite CalculateSegments_closed_form by done.
    destruct (size <? MinSegmentSize); [|apply segs_from_fresh].
    by repeat constructor.
  - intros meta config Hm Ht Hr. unfold PlanDownload. rewrite Hr, Hm, Ht.
    f_equal. rewrite determineOptimalThreads_spec by lia.
    fold (plan_threads size threads).
    rewrite !CalculateSegments_closed_form by done.
    by rewrite Hidem.
Qed.

Lemma plan_segment_count_witness :
  length (CalculateSegments NewDownloadPlanner (5 * 1024 * 1024) 8) = 5%nat /\
  Z.of_nat (length (CalculateSegments NewDownloadPlanner (5 * 1024 * 1024) 8))
    = determineOptimalThreads NewDownloadPlanner (5 * 1024 * 1024) 8.
Proof.
  split; [reflexivity|].
  apply (plan_segment_count (5 * 1024 * 1024) 8).
  unfold max_int64. lia.
Defined.

Lemma GetIncompleteSegments_filter p segs :
  GetIncompleteSegments p segs = filter (fun s => Completed s = false) segs.
Proof.
  unfold GetIncompleteSegments.
  assert (H : forall acc,
    fold_left
      (fun incomplete segment =>
         if negb (Completed segment) then incomplete ++ [segment]
         else incomplete) segs acc
    = acc ++ filter (fun s => Completed s = false) segs).
  { induction segs as [|s segs IH]; intros acc; simpl.
    - by rewrite app_nil_r.
    - rewrite IH, filter_cons.
      destruct (decide (Completed s = false)) as [E|E].
      + rewrite E. simpl. by rewrite <- app_assoc.
      + destruct (Completed s); [done|]. by destruct E. }
  apply (H []).
Qed.

(** X3. [GetIncompleteSegments] keeps exactly the segments that are not
    completed, in their order; a download is complete, for
    [IsDownloadComplete], exactly when it has segments and none of them is
    incomplete; and every segment of a fresh plan is incomplete. *)
Theorem incomplete_segments (p : DownloadPlanner) (segs : list SegmentInfo) :
  GetIncompleteSegments p segs = filter (fun s => Completed s = false) segs /\
  (IsDownloadComplete p segs = true <->
     segs <> [] /\ GetIncompleteSegments p segs = []) /\
  (forall size threads,
     0 < size <= max_int64 ->
     GetIncompleteSegments p
       (CalculateSegments NewDownloadPlanner size threads)
     = CalculateSegments NewDownloadPlanner size threads).
Proof.
  split; [apply GetIncompleteSegments_filter|]. split.
  - unfold IsDownloadComplete. rewrite IsDownloadComplete_loop_spec.
    rewrite GetIncompleteSegments_filter.
    assert (Hf : Forall (fun s => Completed s = true) segs <->
                 filter (fun s => Completed s = false) segs = []).
    { induction segs as [|s segs IH]; [done|].
      rewrite Forall_cons, filter_cons, IH.
      destruct (decide (Completed s = false)) as [E|E].
      - rewrite E. split; [by intros [? _]|done].
      - destruct (Completed s); [tauto|]. by destruct E. }
    rewrite Hf. destruct segs; simpl; split; intros [H1 H2]; split;
      try done; lia.
  - intros size threads Hsz. rewrite GetIncompleteSegments_filter.
    rewrite CalculateSegments_closed_form by done.
    assert (Hall : forall l : list SegmentInfo,
      Forall (fun s => Completed s = false /\ Retries s = 0) l ->
      filter (fun s => Completed s = false) l = l).
    { induction 1 as [|s l [Hc _] _ IH]; [done|].
      rewrite filter_cons. destruct (decide (Completed s = false)); [|done].
      by rewrite IH. }
    apply Hall.
    destruct (size <? MinSegmentSize); [|apply segs_from_fresh].
    by repeat constructor.
Qed.

Lemma incomplete_segments_witness :
  GetIncompleteSegments NewDownloadPlanner
    (CalculateSegments NewDownloadPlanner (3 * 1024 * 1024) 2)
  = CalculateSegments NewDownloadPlanner (3 * 1024 * 1024) 2.
Proof.
  apply (incomplete_segments NewDownloadPlanner []).
  unfold max_int64. lia.
Defined.

End PlannerMore.

(** ** The resume metadata store: updates, recovery, cleanup *)

Module DiskMore.
Import Disk DiskFacts JSONCodec.

(** Every integer of a decoded record is an [int64]. *)
Lemma decode_int_range v z : decode_int v = Ok (Some z) -> in_int64 z.
Proof.
  destruct v as [| |n| | | |]; try done. unfold decode_int.
  destruct (Z.leb_spec min_int64 n); [|done].
  destruct (Z.leb_spec n max_int64); [|done].
  intros [= <-]. by split.
Qed.

Ltac destruct_decoder :=
  match goal with
  | |- context [match ?d with Ok _ => _ | Err _ => _ end] => destruct d eqn:?
  end.

Lemma or_keep_int_range v o (old : Z) :
  decode_int v = Ok o -> in_int64 old -> in_int64 (or_keep o old).
Proof.
  destruct o as [n|]; simpl; [|done]. intros H _. by eapply decode_int_range.
Qed.

Lemma set_SegmentInfo_field_wf s kv s' :
  wf_SegmentInfo s -> set_SegmentInfo_field s kv = Ok s' -> wf_SegmentInfo s'.
Proof.
  intros (Hi & Hs & He & Hr). destruct kv as [key v].
  unfold set_SegmentInfo_field.
  destruct (field_of_key SegmentInfo_tags key) as [tag|]; [|by intros [= <-]].
  repeat (match goal with
          | |- context [if String.eqb tag ?t then _ else _] =>
              destruct (String.eqb tag t)
          end).
  all: destruct_decoder; try done.
  all: intros [= <-]; refine (conj _ (conj _ (conj _ _))); simpl; try done.
  all: by eapply or_keep_int_range.
Qed.

Lemma decode_members_inv {A} (Inv : A -> Prop)
    (set : A -> string * JSON -> result error A) :
  (forall a kv a', Inv a -> set a kv = Ok a' -> Inv a') ->
  forall ms a a', Inv a -> decode_members set a ms = Ok a' -> Inv a'.
Proof.
  intros Hset. induction ms as [|kv ms IH]; intros a a' Ha; simpl.
  - by intros [= <-].
  - destruct (set a kv) as [a1|e] eqn:E; [|done]. intros H.
    eapply IH; [|exact H]. by eapply Hset.
Qed.

Lemma zero_SegmentInfo_wf : wf_SegmentInfo zero_SegmentInfo.
Proof.
  unfold wf_SegmentInfo, in_int64, min_int64, max_int64. simpl. lia.
Qed.

Lemma decode_SegmentInfo_wf v s : decode_SegmentInfo v = Ok s -> wf_SegmentInfo s.
Proof.
  destruct v; simpl; try done.
  - intros [= <-]. apply zero_SegmentInfo_wf.
  - apply (decode_members_inv wf_SegmentInfo);
      [apply set_SegmentInfo_field_wf | apply zero_SegmentInfo_wf].
Qed.

Lemma decode_segments_wf items l :
  decode_segments items = Ok l -> Forall wf_SegmentInfo l.
Proof.
  revert l. induction items as [|v items IH]; intros l.
  - intros [= <-]. constructor.
  - change (decode_segments (v :: items)) with
      (match decode_SegmentInfo v with
       | Err e => Err e
       | Ok s =>
           match decode_segments items with
           | Ok l => Ok (s :: l)
           | Err e => Err e
           end
       end).
    destruct (decode_SegmentInfo v) as [s|e] eqn:Es; [|done].
    destruct (decode_segments items) as [l0|e] eqn:El; [|done].
    intros [= <-]. constructor; [by eapply decode_SegmentInfo_wf | by apply IH].
Qed.

Section Time.
Variable tu : string -> result error Time.

Lemma set_FileMetadata_field_wf m kv m' :
  wf_FileMetadata m -> set_FileMetadata_field tu m kv = Ok m' ->
  wf_FileMetadata m'.
Proof.
  unfold wf_FileMetadata. intros Hm. destruct kv as [key v].
  unfold set_FileMetadata_field.
  destruct (field_of_key FileMetadata_tags key) as [tag|]; [|by intros [= <-]].
  repeat (match goal with
          | |- context [if String.eqb tag ?t then _ else _] =>
              destruct (String.eqb tag t)
          end).
  all: destruct_decoder; try done.
  all: intros [= <-]; simpl; try done; by eapply or_keep_int_range.
Qed.

Lemma decode_FileMetadata_wf m v m' :
  wf_FileMetadata m -> decode_FileMetadata tu m v = Ok m' -> wf_FileMetadata m'.
Proof.
  intros Hm. destruct v; simpl; try done.
  apply (decode_members_inv wf_FileMetadata); [|done].
  apply set_FileMetadata_field_wf.
Qed.

Lemma zero_FileMetadata_wf : wf_FileMetadata zero_FileMetadata.
Proof. unfold wf_FileMetadata, in_int64, min_int64, max_int64. simpl. lia. Qed.

Lemma set_ResumeMetadata_field_wf r kv r' :
  wf_ResumeMetadata r -> set_ResumeMetadata_field tu r kv = Ok r' ->
  wf_ResumeMetadata r'.
Proof.
  intros [Hm Hs]. destruct kv as [key v]. unfold set_ResumeMetadata_field.
  destruct (field_of_key ResumeMetadata_tags key) as [tag|];
    [|by intros [= <-]].
  destruct (String.eqb tag "file_metadata").
  { assert (Hd : wf_FileMetadata (default zero_FileMetadata (RFileMetadata r))).
    { destruct (RFileMetadata r); [done|apply zero_FileMetadata_wf]. }
    destruct v; try (by intros [= <-]);
      (destruct (decode_FileMetadata tu _ _) as [m|e] eqn:E; [|done]);
      intros [= <-]; split; simpl; try done;
      by eapply decode_FileMetadata_wf. }
  destruct (String.eqb tag "segments").
  { destruct v; try done.
    - intros [= <-]. split; [done|constructor].
    - destruct (decode_segments items) as [l|e] eqn:E; [|done].
      intros [= <-]. split; [done|]. by eapply decode_segments_wf. }
  destruct (String.eqb tag "created_at");
    (destruct (decode_time tu v) as [t|e]; [|done]);
    by intros [= <-].
Qed.

Lemma decode_ResumeMetadata_wf v r :
  decode_ResumeMetadata tu v = Ok r -> wf_ResumeMetadata r.
Proof.
  assert (Hz : wf_ResumeMetadata zero_ResumeMetadata)
    by (split; [done|constructor]).
  destruct v; simpl; try done.
  - by intros [= <-].
  - apply (decode_members_inv wf_ResumeMetadata); [|done].
    apply set_ResumeMetadata_field_wf.
Qed.

End Time.

Lemma json_Unmarshal_wf P data r :
  json_Unmarshal P data = Ok r -> wf_ResumeMetadata r.
Proof.
  unfold json_Unmarshal. destruct (json_decode P data) as [v|e]; [|done].
  apply decode_ResumeMetadata_wf.
Qed.

Lemma LoadResumeMetadata_wf P fs outputPath r :
  LoadResumeMetadata P fs outputPath = Ok r -> wf_ResumeMetadata r.
Proof.
  unfold LoadResumeMetadata.
  destruct (match os_Stat P fs _ with Ok _ => false | Err e => IsNotExist e end);
    [done|].
  destruct (os_ReadFile P fs _) as [data|e]; [|done].
  destruct (json_Unmarshal P data) as [r0|e] eqn:E; [|done].
  intros [= <-]. by eapply json_Unmarshal_wf.
Qed.

(** Every string of a decoded record is well-formed UTF-8. *)
Lemma decode_members_inv_on {A} (Inv : A -> Prop) (Q : string * JSON -> Prop)
    (set : A -> string * JSON -> result error A) :
  (forall a kv a', Inv a -> Q kv -> set a kv = Ok a' -> Inv a') ->
  forall ms a a', Forall Q ms -> Inv a -> decode_members set a ms = Ok a' ->
  Inv a'.
Proof.
  intros Hset. induction ms as [|kv ms IH]; intros a a' Hq Ha; simpl.
  - by intros [= <-].
  - destruct (set a kv) as [a1|e] eqn:E; [|done]. intros H.
    inversion Hq; subst. eapply IH; [done| |exact H]. by eapply Hset.
Qed.

Lemma utf8_JSON_members ms :
  utf8_JSON (JObject ms) = true ->
  Forall (fun kv : string * JSON => utf8_JSON (snd kv) = true) ms.
Proof.
  simpl. induction ms as [|kv ms IH]; simpl; [constructor|].
  intros [[_ Hv]%andb_prop Hl]%andb_prop. constructor; [done|by apply IH].
Qed.

Lemma or_keep_string_utf8 v o (old : string) :
  decode_string v = Ok o -> utf8_JSON v = true ->
  utf8_ValidString old = true -> utf8_ValidString (or_keep o old) = true.
Proof.
  destruct v; try done; simpl; intros [= <-]; done.
Qed.

Lemma zero_FileMetadata_utf8 : utf8_FileMetadata zero_FileMetadata.
Proof. by repeat split. Qed.

Section TimeUTF8.
Variable tu : string -> result error Time.

Lemma set_FileMetadata_field_utf8 m kv m' :
  utf8_FileMetadata m -> utf8_JSON (snd kv) = true ->
  set_FileMetadata_field tu m kv = Ok m' -> utf8_FileMetadata m'.
Proof.
  intros (H1 & H2 & H3 & H4). destruct kv as [key v]. simpl. intros Hv.
  unfold set_FileMetadata_field.
  destruct (field_of_key FileMetadata_tags key) as [tag|];
    [|by intros [= <-]].
  repeat (match goal with
          | |- context [if String.eqb tag ?t then _ else _] =>
              destruct (String.eqb tag t)
          end).
  all: destruct_decoder; try done.
  all: intros [= <-]; refine (conj _ (conj _ (conj _ _))); simpl; try done.
  all: by eapply or_keep_string_utf8.
Qed.

Lemma decode_FileMetadata_utf8 m v m' :
  utf8_FileMetadata m -> utf8_JSON v = true ->
  decode_FileMetadata tu m v = Ok m' -> utf8_FileMetadata m'.
Proof.
  intros Hm Hv. destruct v; try done.
  unfold decode_FileMetadata.
  apply (decode_members_inv_on utf8_FileMetadata
           (fun kv => utf8_JSON (snd kv) = true));
    [|by apply utf8_JSON_members|done].
  intros a kv a'. apply set_FileMetadata_field_utf8.
Qed.

Lemma set_ResumeMetadata_field_utf8 r kv r' :
  utf8_ResumeMetadata r -> utf8_JSON (snd kv) = true ->
  set_ResumeMetadata_field tu r kv = Ok r' -> utf8_ResumeMetadata r'.
Proof.
  unfold utf8_ResumeMetadata. intros Hm. destruct kv as [key v]. simpl.
  intros Hv. unfold set_ResumeMetadata_field.
  destruct (field_of_key ResumeMetadata_tags key) as [tag|];
    [|by intros [= <-]].
  destruct (String.eqb tag "file_metadata").
  { assert (Hd : utf8_FileMetadata
                   (default zero_FileMetadata (RFileMetadata r))).
    { destruct (RFileMetadata r); [done|apply zero_FileMetadata_utf8]. }
    destruct v; try (by intros [= <-]);
      (destruct (decode_FileMetadata tu _ _) as [m|e] eqn:E; [|done]);
      intros [= <-]; simpl;
      by eapply decode_FileMetadata_utf8. }
  destruct (String.eqb tag "segments").
  { destruct v; try done.
    - by intros [= <-].
    - destruct (decode_segments items) as [l|e] eqn:E; [|done].
      by intros [= <-]. }
  destruct (String.eqb tag "created_at");
    (destruct (decode_time tu v) as [t|e]; [|done]);
    by intros [= <-].
Qed.

Lemma decode_ResumeMetadata_utf8 v r :
  utf8_JSON v = true -> decode_ResumeMetadata tu v = Ok r ->
  utf8_ResumeMetadata r.
Proof.
  intros Hv. destruct v; try done.
  - by intros [= <-].
  - unfold decode_ResumeMetadata.
    apply (decode_members_inv_on utf8_ResumeMetadata
             (fun kv => utf8_JSON (snd kv) = true));
      [|by apply utf8_JSON_members|done].
    intros a kv a'. apply set_ResumeMetadata_field_utf8.
Qed.

End TimeUTF8.

Lemma json_Unmarshal_utf8 P data r :
  PlatformLaws P -> json_Unmarshal P data = Ok r -> utf8_ResumeMetadata r.
Proof.
  intros HL. unfold json_Unmarshal.
  destruct (json_decode P data) as [v|e] eqn:Hd; [|done].
  apply decode_ResumeMetadata_utf8. by eapply json_decode_utf8.
Qed.

Lemma LoadResumeMetadata_utf8 P fs outputPath r :
  PlatformLaws P -> LoadResumeMetadata P fs outputPath = Ok r ->
  utf8_ResumeMetadata r.
Proof.
  intros HL. unfold LoadResumeMetadata.
  destruct (match os_Stat P fs _ with Ok _ => false | Err e => IsNotExist e end);
    [done|].
  destruct (os_ReadFile P fs _) as [data|e]; [|done].
  destruct (json_Unmarshal P data) as [r0|e] eqn:E; [|done].
  intros [= <-]. by eapply json_Unmarshal_utf8.
Qed.

Lemma set_Completed_wf s c : wf_SegmentInfo s -> wf_SegmentInfo (set_Completed s c).
Proof. done. Qed.

Lemma incr_Retries_wf s : wf_SegmentInfo s -> wf_SegmentInfo (incr_Retries s).
Proof.
  intros (Hi & Hs & He & Hr). refine (conj _ (conj _ (conj _ _))); try done.
  apply wrap64_range.
Qed.

Lemma Forall_alter_wf (f : SegmentInfo -> SegmentInfo) i l :
  (forall s, wf_SegmentInfo s -> wf_SegmentInfo (f s)) ->
  Forall wf_SegmentInfo l -> Forall wf_SegmentInfo (alter f i l).
Proof.
  intros Hf Hl. apply Forall_lookup. intros j s Hj.
  destruct (decide (i = j)) as [->|Hne].
  - rewrite list_lookup_alter_eq in Hj.
    destruct (l !! j) as [s0|] eqn:E; [|done]. simpl in Hj.
    injection Hj as <-. apply Hf. by eapply (Forall_lookup_1 _ l j).
  - rewrite list_lookup_alter_ne in Hj by done. by eapply Forall_lookup_1.
Qed.

Lemma metadata_not_part outputPath :
  outputPath +:+ ".part" <> outputPath +:+ ResumeMetadataExt.
Proof.
  induction outputPath as [|a s IH]; simpl; [done|]. intros [= H]. by apply IH.
Qed.

Section Store.
Variable P : Platform.
Hypothesis HL : PlatformLaws P.
Hypothesis HF : no_faults P.

Lemma saveResumeMetadataStruct_ok fs outputPath r :
  wf_ResumeMetadata r -> utf8_ResumeMetadata r ->
  fst (saveResumeMetadataStruct P fs outputPath r) = None ->
  exists data,
    json_MarshalIndent P r = Ok data /\
    json_Unmarshal P data = Ok r /\
    snd (saveResumeMetadataStruct P fs outputPath r)
      = <[outputPath +:+ ResumeMetadataExt := data]> fs.
Proof.
  intros Hw Hu. unfold saveResumeMetadataStruct, os_WriteFile.
  destruct (json_MarshalIndent P r) as [data|e] eqn:Hm; [|done].
  rewrite HF. simpl. intros _. exists data.
  split; [done|]. split; [|done].
  rewrite (json_Unmarshal_MarshalIndent P r data HL Hw Hm).
  by rewrite written_ResumeMetadata_utf8.
Qed.

Lemma LoadResumeMetadata_insert fs outputPath data r :
  json_Unmarshal P data = Ok r ->
  LoadResumeMetadata P (<[outputPath +:+ ResumeMetadataExt := data]> fs)
    outputPath = Ok r.
Proof.
  intros H.
  rewrite (LoadResumeMetadata_no_fault P _ outputPath data HF)
    by apply lookup_insert_eq.
  by rewrite H.
Qed.

(** The shape shared by [UpdateSegmentProgress] and
    [IncrementSegmentRetries]: check the index, change one segment, set the
    time stamp, save. *)
Lemma store_update (f : SegmentInfo -> SegmentInfo) fs outputPath i now r res :
  (forall s, wf_SegmentInfo s -> wf_SegmentInfo (f s)) ->
  wf_ResumeMetadata r -> utf8_ResumeMetadata r ->
  res = (if (i <? 0) || (i >=? Z.of_nat (length (Segments r)))
         then (Some (Plain ("invalid segment index: " +:+ sprint_d i)), fs)
         else saveResumeMetadataStruct P fs outputPath
                (mkResumeMetadata (RFileMetadata r)
                   (alter f (Z.to_nat i) (Segments r)) (CreatedAt r) now)) ->
  (fst res = None ->
     0 <= i < Z.of_nat (length (Segments r)) /\
     LoadResumeMetadata P (snd res) outputPath
       = Ok (mkResumeMetadata (RFileMetadata r)
               (alter f (Z.to_nat i) (Segments r)) (CreatedAt r) now) /\
     forall path, path <> outputPath +:+ ResumeMetadataExt ->
       snd res !! path = fs !! path) /\
  (~ 0 <= i < Z.of_nat (length (Segments r)) ->
     res = (Some (Plain ("invalid segment index: " +:+ sprint_d i)), fs)).
Proof.
  intros Hf [Hm Hs] Hu ->.
  destruct (Z.ltb_spec i 0) as [Hneg|Hpos]; simpl.
  { split; [done|]. done. }
  destruct (Z.geb_spec i (Z.of_nat (length (Segments r)))) as [Hbig|Hin]; simpl.
  { split; [done|]. done. }
  split; [|lia]. intros Hok.
  assert (Hw : wf_ResumeMetadata
                 (mkResumeMetadata (RFileMetadata r)
                    (alter f (Z.to_nat i) (Segments r)) (CreatedAt r) now)).
  { split; [done|]. by apply Forall_alter_wf. }
  destruct (saveResumeMetadataStruct_ok fs outputPath _ Hw Hu Hok)
    as (data & _ & Hdec & ->).
  split; [lia|]. split.
  - by apply LoadResumeMetadata_insert.
  - intros path Hne. by rewrite lookup_insert_ne.
Qed.

End Store.

(** X4. With the metadata of a download on disk, a successful
    [UpdateSegmentProgress] leaves a metadata file that loads as the old
    record with the completion flag of that one segment set and the time
    stamp renewed; no other file is touched.  An index outside the saved
    segments is refused before anything is written. *)
Theorem UpdateSegmentProgress_roundtrip (P : Platform)
    (fs : gmap string (list Byte.byte)) (outputPath : string)
    (segmentIndex : Z) (completed : bool) (now : Time) (r : ResumeMetadata) :
  PlatformLaws P -> no_faults P ->
  LoadResumeMetadata P fs outputPath = Ok r ->
  let res := UpdateSegmentProgress P fs outputPath segmentIndex completed now in
  (fst res = None ->
     0 <= segmentIndex < Z.of_nat (length (Segments r)) /\
     LoadResumeMetadata P (snd res) outputPath
       = Ok (mkResumeMetadata (RFileMetadata r)
               (alter (fun s => set_Completed s completed)
                  (Z.to_nat segmentIndex) (Segments r))
               (CreatedAt r) now) /\
     forall path, path <> outputPath +:+ ResumeMetadataExt ->
       snd res !! path = fs !! path) /\
  (~ 0 <= segmentIndex < Z.of_nat (length (Segments r)) ->
     res = (Some (Plain ("invalid segment index: " +:+ sprint_d segmentIndex)),
            fs)).
Proof.
  intros HL HF Hload res.
  apply (store_update P HL HF (fun s => set_Completed s completed)).
  - intros s. apply set_Completed_wf.
  - by eapply LoadResumeMetadata_wf.
  - by eapply LoadResumeMetadata_utf8.
  - subst res. unfold UpdateSegmentProgress. by rewrite Hload.
Qed.

(** X5. A successful [IncrementSegmentRetries] leaves a metadata file that
    loads as the old record with the retry counter of that one segment
    raised by one (wrapping at the end of [int]) and the time stamp renewed;
    no other file is touched, and an index outside the saved segments is
    refused before anything is written. *)
Theorem IncrementSegmentRetries_roundtrip (P : Platform)
    (fs : gmap string (list Byte.byte)) (outputPath : string)
    (segmentIndex : Z) (now : Time) (r : ResumeMetadata) :
  PlatformLaws P -> no_faults P ->
  LoadResumeMetadata P fs outputPath = Ok r ->
  let res := IncrementSegmentRetries P fs outputPath segmentIndex now in
  (fst res = None ->
     0 <= segmentIndex < Z.of_nat (length (Segments r)) /\
     (exists r',
        LoadResumeMetadata P (snd res) outputPath = Ok r' /\
        RFileMetadata r' = RFileMetadata r /\ CreatedAt r' = CreatedAt r /\
        LastUpdate r' = now /\
        length (Segments r') = length (Segments r) /\
        forall j s, Segments r !! j = Some s ->
          Segments r' !! j =
            Some (if decide (j = Z.to_nat segmentIndex)
                  then mkSegmentInfo (Index s) (Start s) (End_ s) (Completed s)
                         (if Retries s =? max_int64 then min_int64
                          else Retries s + 1)
                  else s)) /\
     forall path, path <> outputPath +:+ ResumeMetadataExt ->
       snd res !! path = fs !! path) /\
  (~ 0 <= segmentIndex < Z.of_nat (length (Segments r)) ->
     res = (Some (Plain ("invalid segment index: " +:+ sprint_d segmentIndex)),
            fs)).
Proof.
  intros HL HF Hload res.
  pose proof (LoadResumeMetadata_wf _ _ _ _ Hload) as Hw.
  pose proof (LoadResumeMetadata_utf8 _ _ _ _ HL Hload) as Hu.
  destruct (store_update P HL HF incr_Retries fs outputPath segmentIndex now r
              res incr_Retries_wf Hw Hu) as [Hok Hbad].
  { subst res. unfold IncrementSegmentRetries. by rewrite Hload. }
  split; [|done]. intros Hnone.
  destruct (Hok Hnone) as (Hi & Hl & Hother).
  split; [done|]. split; [|done].
  eexists. split; [exact Hl|]. simpl.
  split; [done|]. split; [done|]. split; [done|].
  split; [by rewrite length_alter|].
  intros j s Hj. destruct (decide (j = Z.to_nat segmentIndex)) as [->|Hne].
  - rewrite list_lookup_alter_eq, Hj. simpl. f_equal.
    unfold incr_Retries. f_equal.
    destruct Hw as [_ Hs].
    destruct (Forall_lookup_1 _ _ _ _ Hs Hj) as (_ & _ & _ & Hr).
    unfold add64. destruct (Z.eqb_spec (Retries s) max_int64) as [->|Hne].
    + reflexivity.
    + apply wrap64_id. unfold in_int64, min_int64, max_int64 in *. lia.
  - by rewrite list_lookup_alter_ne, Hj.
Qed.

(** X6. [RecoverFromNetworkInterruption] never indexes the segments out of
    range, on any platform and whatever the files hold: once the retry
    counter was raised, the index it reads is inside the record it loads or
    it returns an error. *)
Theorem RecoverFromNetworkInterruption_no_panic (P : Platform)
    (fs : gmap string (list Byte.byte)) (outputPath : string)
    (segmentIndex : Z) (err : error) (now : Time) :
  fst (RecoverFromNetworkInterruption P fs outputPath segmentIndex err now)
    <> RecoverPanic.
Proof.
  unfold RecoverFromNetworkInterruption.
  destruct (IncrementSegmentRetries P fs outputPath segmentIndex now)
    as [[e|] fs'] eqn:Hinc; [done|].
  assert (Hpos : (segmentIndex <? 0) = false).
  { unfold IncrementSegmentRetries in Hinc.
    destruct (LoadResumeMetadata P fs outputPath) as [r0|e]; [|done].
    destruct (segmentIndex <? 0); [done|done]. }
  destruct (LoadResumeMetadata P fs' outputPath) as [r|e]; [|done].
  destruct (Z.geb_spec segmentIndex (Z.of_nat (length (Segments r))))
    as [Hbig|Hin]; [done|].
  rewrite Hpos. apply Z.ltb_ge in Hpos.
  destruct (lookup_lt_is_Some_2 (Segments r) (Z.to_nat segmentIndex)
              ltac:(lia)) as [s ->].
  by destruct (Retries s >=? 5).
Qed.

(** X7. The retry budget of a segment.  With the metadata on disk and the
    retry counter [n >= 0] of the segment saved in it, recovery stores the
    counter [n + 1]; it then sleeps [(n + 1)^2] seconds when [n < 4], which
    is at most 16 seconds, so the cap of 30 seconds is never reached, and it
    returns the network error wrapped in "exceeded maximum retries" when
    [n >= 4]: a segment is recovered at most four times. *)
Theorem recovery_retry_budget (P : Platform)
    (fs : gmap string (list Byte.byte)) (outputPath : string)
    (segmentIndex : Z) (err : error) (now : Time) (r : ResumeMetadata)
    (s : SegmentInfo) :
  PlatformLaws P -> no_faults P ->
  LoadResumeMetadata P fs outputPath = Ok r ->
  0 <= segmentIndex ->
  Segments r !! Z.to_nat segmentIndex = Some s ->
  0 <= Retries s < max_int64 ->
  fst (IncrementSegmentRetries P fs outputPath segmentIndex now) = None ->
  let res :=
    RecoverFromNetworkInterruption P fs outputPath segmentIndex err now in
  LoadResumeMetadata P (snd res) outputPath
    = Ok (mkResumeMetadata (RFileMetadata r)
            (<[Z.to_nat segmentIndex :=
                 mkSegmentInfo (Index s) (Start s) (End_ s) (Completed s)
                   (Retries s + 1)]> (Segments r))
            (CreatedAt r) now) /\
  (Retries s < 4 ->
     fst res = RecoverSlept ((Retries s + 1) * (Retries s + 1) * Second) /\
     (Retries s + 1) * (Retries s + 1) * Second <= 16 * Second) /\
  (4 <= Retries s ->
     fst res = RecoverError
                 (Wrap ("segment " +:+ sprint_d segmentIndex
                          +:+ " exceeded maximum retries ("
                          +:+ sprint_d 5 +:+ "): ") err)).
Proof.
  intros HL HF Hload Hpos Hs Hr Hinc res.
  pose proof (LoadResumeMetadata_wf _ _ _ _ Hload) as Hw.
  pose proof (LoadResumeMetadata_utf8 _ _ _ _ HL Hload) as Hu.
  destruct (store_update P HL HF incr_Retries fs outputPath segmentIndex now r
              (IncrementSegmentRetries P fs outputPath segmentIndex now)
              incr_Retries_wf Hw Hu) as [Hok _].
  { unfold IncrementSegmentRetries. by rewrite Hload. }
  destruct (Hok Hinc) as (Hi & Hl & _).
  assert (Halt : alter incr_Retries (Z.to_nat segmentIndex) (Segments r)
                 = <[Z.to_nat segmentIndex :=
                       mkSegmentInfo (Index s) (Start s) (End_ s) (Completed s)
                         (Retries s + 1)]> (Segments r)).
  { apply list_eq. intros j.
    destruct (decide (j = Z.to_nat segmentIndex)) as [->|Hne].
    - rewrite list_lookup_alter_eq, Hs.
      rewrite list_lookup_insert_eq by (by eapply lookup_lt_Some).
      simpl. unfold incr_Retries, add64.
      rewrite wrap64_id; [done|].
      unfold in_int64, min_int64, max_int64 in *. lia.
    - rewrite list_lookup_alter_ne by done.
      by rewrite list_lookup_insert_ne. }
  rewrite Halt in Hl.
  subst res. unfold RecoverFromNetworkInterruption.
  destruct (IncrementSegmentRetries P fs outputPath segmentIndex now)
    as [[e|] fs'] eqn:E; [done|]. simpl in Hl. rewrite Hl. simpl.
  rewrite length_insert.
  destruct (Z.geb_spec segmentIndex (Z.of_nat (length (Segments r))));
    [lia|].
  destruct (Z.ltb_spec segmentIndex 0); [lia|].
  rewrite list_lookup_insert_eq by (by eapply lookup_lt_Some). simpl.
  unfold Second, max_int64 in *.
  destruct (Z.geb_spec (Retries s + 1) 5) as [Hge|Hlt]; simpl.
  - split; [done|]. split; [lia|]. done.
  - split; [done|]. split; [|lia]. intros _.
    assert (Hm1 : mul64 (Retries s + 1) (Retries s + 1)
                  = (Retries s + 1) * (Retries s + 1)).
    { apply wrap64_id. unfold in_int64, min_int64, max_int64. nia. }
    rewrite Hm1.
    assert (Hm2 : mul64 ((Retries s + 1) * (Retries s + 1)) 1000000000
                  = (Retries s + 1) * (Retries s + 1) * 1000000000).
    { apply wrap64_id. unfold in_int64, min_int64, max_int64. nia. }
    rewrite Hm2.
    destruct (Z.gtb_spec ((Retries s + 1) * (Retries s + 1) * 1000000000)
                (30 * 1000000000)); [nia|].
    split; [done|nia].
Qed.

(** A saved record on the reference platform. *)
Definition record_small : ResumeMetadata :=
  mkResumeMetadata (Some DiskWitness.meta_small) DiskWitness.segs_small 1 2.

Definition fs_saved : gmap string (list Byte.byte) :=
  snd (saveResumeMetadataStruct Reference.platform ∅ "a.bin" record_small).

Lemma record_small_wf : wf_ResumeMetadata record_small.
Proof.
  split; [|repeat constructor];
    unfold wf_FileMetadata, in_int64, min_int64, max_int64; simpl; lia.
Qed.

Lemma fs_saved_load :
  LoadResumeMetadata Reference.platform fs_saved "a.bin" = Ok record_small.
Proof.
  destruct (saveResumeMetadataStruct_ok Reference.platform
              Reference.platform_laws Reference.platform_no_faults
              ∅ "a.bin" record_small record_small_wf)
    as (data & _ & Hdec & Hfs); [by repeat split|by vm_compute|].
  unfold fs_saved. rewrite Hfs.
  by apply LoadResumeMetadata_insert; [apply Reference.platform_no_faults|].
Qed.

Lemma UpdateSegmentProgress_roundtrip_witness :
  LoadResumeMetadata Reference.platform
    (snd (UpdateSegmentProgress Reference.platform fs_saved "a.bin" 1 true 3))
    "a.bin"
  = Ok (mkResumeMetadata (Some DiskWitness.meta_small)
          [mkSegmentInfo 0 0 4 true 0; mkSegmentInfo 1 5 9 true 1] 1 3).
Proof.
  destruct (UpdateSegmentProgress_roundtrip Reference.platform fs_saved "a.bin"
              1 true 3 record_small Reference.platform_laws
              Reference.platform_no_faults fs_saved_load) as [H _].
  destruct H as (_ & H & _); [by vm_compute|]. exact H.
Defined.

Lemma IncrementSegmentRetries_roundtrip_witness :
  exists r',
    LoadResumeMetadata Reference.platform
      (snd (IncrementSegmentRetries Reference.platform fs_saved "a.bin" 1 3))
      "a.bin" = Ok r' /\
    Segments r' !! 1%nat = Some (mkSegmentInfo 1 5 9 false 2).
Proof.
  destruct (IncrementSegmentRetries_roundtrip Reference.platform fs_saved
              "a.bin" 1 3 record_small Reference.platform_laws
              Reference.platform_no_faults fs_saved_load) as [H _].
  destruct H as (_ & (r' & Hl & _ & _ & _ & _ & Hseg) & _); [by vm_compute|].
  exists r'. split; [exact Hl|].
  exact (Hseg 1%nat (mkSegmentInfo 1 5 9 false 1) eq_refl).
Defined.

Lemma recovery_retry_budget_witness :
  fst (RecoverFromNetworkInterruption Reference.platform fs_saved "a.bin" 1
         (Plain "connection reset") 3)
  = RecoverSlept (4 * Second).
Proof.
  destruct (recovery_retry_budget Reference.platform fs_saved "a.bin" 1
              (Plain "connection reset") 3 record_small
              (mkSegmentInfo 1 5 9 false 1) Reference.platform_laws
              Reference.platform_no_faults fs_saved_load)
    as (_ & H & _).
  - lia.
  - reflexivity.
  - unfold max_int64. simpl. lia.
  - by vm_compute.
  - destruct H as [H _]; [simpl; lia|]. exact H.
Defined.

(** X8. Without I/O faults [CleanupResumeMetadata] never fails, whether the
    metadata file exists or not, and removes that file only; afterwards no
    resumable download is detected at the path, the metadata cannot be
    loaded, and a second cleanup changes nothing. *)
Theorem CleanupResumeMetadata_removes (P : Platform)
    (fs : gmap string (list Byte.byte)) (outputPath : string) :
  no_faults P ->
  let metadataPath := outputPath +:+ ResumeMetadataExt in
  let fs' := snd (CleanupResumeMetadata P fs outputPath) in
  fst (CleanupResumeMetadata P fs outputPath) = None /\
  fs' = delete metadataPath fs /\
  DetectResumableDownload P fs' outputPath = (DetectNone, fs') /\
  LoadResumeMetadata P fs' outputPath
    = Err (Plain ("resume metadata not found: " +:+ metadataPath)) /\
  CleanupResumeMetadata P fs' outputPath = (None, fs').
Proof.
  intros HF metadataPath fs'.
  assert (Hc : forall fs0,
             CleanupResumeMetadata P fs0 outputPath
             = (None, delete metadataPath fs0)).
  { intros fs0. unfold CleanupResumeMetadata, os_Remove. fold metadataPath.
    rewrite HF. destruct (fs0 !! metadataPath) eqn:E; simpl; [done|].
    by rewrite delete_id. }
  subst fs'. rewrite !Hc. simpl.
  split; [done|]. split; [done|].
  assert (Hgone : delete metadataPath fs !! metadataPath = None)
    by apply lookup_delete_eq.
  split; [|split].
  - unfold DetectResumableDownload. fold metadataPath.
    rewrite !os_Stat_no_fault by done. by rewrite Hgone.
  - unfold LoadResumeMetadata. fold metadataPath.
    rewrite os_Stat_no_fault by done. by rewrite Hgone.
  - f_equal. by rewrite delete_id.
Qed.

Lemma CleanupResumeMetadata_removes_witness :
  LoadResumeMetadata Reference.platform
    (snd (CleanupResumeMetadata Reference.platform fs_saved "a.bin")) "a.bin"
  = Err (Plain ("resume metadata not found: " +:+ "a.bin.terafetch.json")).
Proof.
  exact (proj1 (proj2 (proj2 (proj2
           (CleanupResumeMetadata_removes Reference.platform fs_saved "a.bin"
              Reference.platform_no_faults))))).
Defined.

(** X9. Saving and detecting compose: after a successful
    [SaveResumeMetadata] beside an existing part file,
    [DetectResumableDownload] returns the saved record, with the strings of
    its file metadata as [encoding/json] writes them (bytes outside
    well-formed UTF-8 replaced by U+FFFD), and changes no file when the part
    file is not larger than the saved file size; it deletes both files with
    an error when it is larger.  The record returned is exactly the saved
    one when the strings of the file metadata are well-formed UTF-8.  When
    the record was saved without file metadata, detection reads the size
    through the nil pointer. *)
Theorem saved_download_is_detected (P : Platform)
    (fs : gmap string (list Byte.byte)) (outputPath : string)
    (meta : option FileMetadata) (segments : list SegmentInfo)
    (now1 now2 : Time) (part : list Byte.byte) :
  PlatformLaws P -> no_faults P ->
  wf_ResumeMetadata (mkResumeMetadata meta segments now1 now2) ->
  fs !! (outputPath +:+ ".part") = Some part ->
  fst (SaveResumeMetadata P fs outputPath meta segments now1 now2) = None ->
  let fs' := snd (SaveResumeMetadata P fs outputPath meta segments now1 now2) in
  DetectResumableDownload P fs' outputPath =
    match meta with
    | None => (DetectPanic, fs')
    | Some m =>
        if Z.of_nat (length part) >? Size m then
          (DetectError
             (Plain "part file size exceeds expected size, cleaned up"),
           delete (outputPath +:+ ".part")
             (delete (outputPath +:+ ResumeMetadataExt) fs'))
        else
          (DetectResume
             (mkResumeMetadata (Some (written_FileMetadata m)) segments
                now1 now2), fs')
    end /\
  (forall m,
     meta = Some m -> utf8_FileMetadata m ->
     Z.of_nat (length part) <= Size m ->
     DetectResumableDownload P fs' outputPath =
       (DetectResume (mkResumeMetadata meta segments now1 now2), fs')).
Proof.
  intros HL HF Hw Hpart Hsave fs'.
  assert (Hfs : exists data,
             json_Unmarshal P data
               = Ok (mkResumeMetadata (option_map written_FileMetadata meta)
                       segments now1 now2) /\
             fs' = <[outputPath +:+ ResumeMetadataExt := data]> fs).
  { subst fs'. revert Hsave. unfold SaveResumeMetadata, os_WriteFile.
    destruct (os_MkdirAll P _); [done|].
    destruct (json_MarshalIndent P _) as [data|e] eqn:Hm; [|done].
    rewrite HF. simpl. intros _. exists data. split; [|done].
    by rewrite (json_Unmarshal_MarshalIndent P _ _ HL Hw Hm). }
  destruct Hfs as (data & Hdec & Hfs). clearbody fs'. subst fs'.
  pose proof (metadata_not_part outputPath) as Hne.
  assert (Hdet :
    DetectResumableDownload P
      (<[outputPath +:+ ResumeMetadataExt := data]> fs) outputPath =
    match meta with
    | None => (DetectPanic, <[outputPath +:+ ResumeMetadataExt := data]> fs)
    | Some m =>
        if Z.of_nat (length part) >? Size m then
          (DetectError
             (Plain "part file size exceeds expected size, cleaned up"),
           delete (outputPath +:+ ".part")
             (delete (outputPath +:+ ResumeMetadataExt)
                (<[outputPath +:+ ResumeMetadataExt := data]> fs)))
        else
          (DetectResume
             (mkResumeMetadata (Some (written_FileMetadata m)) segments
                now1 now2),
           <[outputPath +:+ ResumeMetadataExt := data]> fs)
    end).
  { unfold DetectResumableDownload.
    rewrite (LoadResumeMetadata_insert P HF fs outputPath data _ Hdec).
    rewrite !os_Stat_no_fault by done.
    rewrite lookup_insert_eq, lookup_insert_ne, Hpart by done. simpl.
    destruct meta as [m|]; [|done]. simpl.
    destruct (Z.of_nat (length part) >? Size m); [|done].
    by rewrite !os_Remove_no_fault. }
  split; [exact Hdet|].
  intros m -> Hu Hle. rewrite Hdet.
  destruct (Z.gtb_spec (Z.of_nat (length part)) (Size m)); [lia|].
  by rewrite (written_FileMetadata_utf8 m Hu).
Qed.

Lemma saved_download_is_detected_witness :
  DetectResumableDownload Reference.platform
    (snd (SaveResumeMetadata Reference.platform
            {[ "a.bin.part" := [Byte.x00; Byte.x00] ]} "a.bin"
            (Some DiskWitness.meta_small) DiskWitness.segs_small 1 2)) "a.bin"
  = (DetectResume record_small,
     snd (SaveResumeMetadata Reference.platform
            {[ "a.bin.part" := [Byte.x00; Byte.x00] ]} "a.bin"
            (Some DiskWitness.meta_small) DiskWitness.segs_small 1 2)).
Proof.
  destruct (saved_download_is_detected Reference.platform
              {[ "a.bin.part" := [Byte.x00; Byte.x00] ]} "a.bin"
              (Some DiskWitness.meta_small) DiskWitness.segs_small 1 2
              [Byte.x00; Byte.x00]) as [_ H].
  - apply Reference.platform_laws.
  - apply Reference.platform_no_faults.
  - apply record_small_wf.
  - reflexivity.
  - by vm_compute.
  - apply (H DiskWitness.meta_small eq_refl).
    + vm_compute. repeat split.
    + simpl. lia.
Defined.

(** X10. Without I/O faults [CreatePartialFile] with a size [>= 0] leaves a
    part file of exactly that many zero bytes, whatever was there before:
    [DetectPartialDownload] then reports it with that size, and
    [ValidatePartialFile] accepts it exactly for expected sizes that are not
    smaller.  With a negative size it returns an error after the file was
    already emptied. *)
Theorem CreatePartialFile_then_detect (P : Platform)
    (fs : gmap string (list Byte.byte)) (outputPath : string) (size : Z) :
  no_faults P ->
  let partPath := outputPath +:+ ".part" in
  let res := CreatePartialFile P fs partPath size in
  (0 <= size ->
     fst res = None /\
     snd res = <[partPath := replicate (Z.to_nat size) Byte.x00]> fs /\
     DetectPartialDownload P (snd res) outputPath = (true, size, None) /\
     FileExists P (snd res) partPath = true /\
     forall expectedSize,
       ValidatePartialFile P (snd res) partPath expectedSize = None
       <-> size <= expectedSize) /\
  (size < 0 ->
     is_Some (fst res) /\ snd res = <[partPath := []]> fs).
Proof.
  intros HF partPath res.
  assert (Hopen : os_OpenFile P fs partPath true true
                  = (None, <[partPath := []]> fs)).
  { unfold os_OpenFile. rewrite HF. by destruct (fs !! partPath). }
  subst res. unfold CreatePartialFile. rewrite Hopen.
  unfold File_Truncate. rewrite HF.
  destruct (Z.ltb_spec size 0) as [Hneg|Hpos]; simpl.
  { split; [lia|]. intros _. split; [by eexists|done]. }
  split; [|lia]. intros _.
  rewrite lookup_insert_eq, insert_insert_eq. simpl. rewrite resize_nil.
  split; [done|]. split; [done|].
  assert (Hstat : os_Stat P
                    (<[partPath := replicate (Z.to_nat size) Byte.x00]> fs)
                    partPath = Ok size).
  { rewrite os_Stat_no_fault by done.
    rewrite lookup_insert_eq, length_replicate. f_equal. lia. }
  split; [|split].
  - unfold DetectPartialDownload. fold partPath. by rewrite Hstat.
  - unfold FileExists. by rewrite Hstat.
  - intros expectedSize. unfold ValidatePartialFile. rewrite Hstat.
    destruct (Z.gtb_spec size expectedSize) as [Hgt|Hle].
    + split; [done|lia].
    + unfold os_OpenFile. rewrite HF, lookup_insert_eq. simpl.
      split; [lia|done].
Qed.

Lemma CreatePartialFile_then_detect_witness :
  DetectPartialDownload Reference.platform
    (snd (CreatePartialFile Reference.platform fs_saved "a.bin.part" 10))
    "a.bin"
  = (true, 10, None).
Proof.
  destruct (CreatePartialFile_then_detect Reference.platform fs_saved "a.bin"
              10 Reference.platform_no_faults) as [H _].
  destruct H as (_ & _ & H & _); [lia|]. exact H.
Defined.

End DiskMore.

(** ** The retry loop of the HTTP client: what it returns, how often it
    asks *)

Module HTTPMore.
Import HTTP HTTPFacts.

(** The attempt numbers of the requests of a run, in order. *)
Definition request_attempts (tr : list event) : list Z :=
  omap (fun ev => match ev with Request k _ => Some k | _ => None end) tr.

(** The two errors returned when the attempts are used up. *)
Definition exhausted_after (maxAttempts : Z) (lastErr : option error) : error :=
  match lastErr with
  | Some e =>
      Wrap ("request failed after " +:+ sprint_d maxAttempts +:+ " attempts: ") e
  | None =>
      Plain ("request failed after " +:+ sprint_d maxAttempts +:+ " attempts")
  end.

Lemma request_attempts_extras k extras :
  Forall (fun ev => ev = CloseBody k \/ ev = Rotate k) extras ->
  request_attempts extras = [].
Proof.
  induction 1 as [|ev l [-> | ->] _ IH]; [done| |]; exact IH.
Qed.

Lemma request_attempts_slept c e k : request_attempts (slept c e k) = [].
Proof. unfold slept. by destruct (k >? 0). Qed.

(** One iteration: either the context ends the back-off sleep, or exactly
    one request is made and the iteration returns a 200 or 206 response,
    returns an error that is not retryable, or goes on with a retryable
    error (or with none, when [fn] returned neither). *)
Lemma attempt_body_cases c e k lastErr evs ctl :
  attempt_body c e k lastErr = (evs, ctl) ->
  (forall x, lastErr = Some x -> isRetryableError x = true) ->
  (evs = [] /\ 0 < k /\ exists ce, ctxDone e = Some ce /\ ctl = Return (Err ce))
  \/
  (request_attempts evs = [k] /\
   match ctl with
   | Return (Ok resp) =>
       (StatusCode resp = 200 \/ StatusCode resp = 206) /\
       fn e (userAgent c) = mkFnResult (Some resp) None /\
       exists pre, evs = pre ++ [Request k (userAgent c)]
   | Return (Err x) => isRetryableError x = false
   | Continue c' le =>
       retryConfig c' = retryConfig c /\
       forall x, le = Some x -> isRetryableError x = true
   end).
Proof.
  intros H Hlast.
  destruct (attempt_body_events _ _ _ _ _ _ H)
    as [(-> & Hk & ce & Hce & ->)|(extras & Hevs & Hex & _ & Hcfg & _)].
  { left. eauto. }
  right. split.
  { rewrite Hevs. unfold request_attempts. rewrite !omap_app.
    fold (request_attempts (slept c e k)) (request_attempts extras).
    rewrite request_attempts_slept, (request_attempts_extras k extras Hex).
    reflexivity. }
  revert H. unfold attempt_body.
  destruct (if k >? 0 then ctxDone e else None) as [ce|].
  { intros [= <- <-]. exfalso. unfold slept in Hevs.
    by destruct (k >? 0). }
  destruct (fn e (userAgent c)) as [resp err] eqn:Hfn; simpl.
  destruct err as [err|].
  { destruct (isRetryableError err) eqn:Hr; simpl.
    - destruct (shouldRotateUserAgent err resp); intros [= <- <-];
        (split; [done|]); by intros ? [= <-].
    - by intros [= <- <-]. }
  destruct resp as [resp|].
  { destruct (Z.eqb_spec (StatusCode resp) 200) as [H200|H200]; simpl.
    { intros [= <- <-]. split; [by left|]. split; [done|].
      eexists. reflexivity. }
    destruct (Z.eqb_spec (StatusCode resp) 206) as [H206|H206]; simpl.
    { intros [= <- <-]. split; [by right|]. split; [done|].
      eexists. reflexivity. }
    destruct (StatusCode resp =? 403).
    { intros [= <- <-]. split; [done|]. by intros ? [= <-]. }
    destruct (StatusCode resp =? 429).
    { intros [= <- <-]. split; [done|]. by intros ? [= <-]. }
    destruct (StatusCode resp =? 404); [by intros [= <- <-]|].
    destruct (StatusCode resp =? 401); [by intros [= <- <-]|].
    destruct (StatusCode resp >=? 500) eqn:H500.
    { intros [= <- <-]. split; [done|]. by intros ? [= <-]. }
    intros [= <- <-]. simpl. unfold IsRetryable. simpl. exact H500. }
  intros [= <- <-]. split; [done|]. exact Hlast.
Qed.

Section Loop.
Variable env : Z -> AttemptEnv.

Lemma retry_loop_outcome fuel : forall attempt c lastErr tr0 c' res tr,
  retry_loop fuel attempt c env lastErr tr0 = (c', res, tr) ->
  0 <= attempt -> MaxAttempts (retryConfig c) <= max_int64 ->
  (forall x, lastErr = Some x -> isRetryableError x = true) ->
  let maxAttempts := MaxAttempts (retryConfig c) in
  exists new n,
    tr = tr0 ++ new /\
    request_attempts new = seqZ attempt n /\
    0 <= n /\ attempt + n <= Z.max attempt maxAttempts /\
    (maxAttempts <= attempt ->
     new = [] /\ res = Err (exhausted_after maxAttempts lastErr)) /\
    match res with
    | Ok resp =>
        (StatusCode resp = 200 \/ StatusCode resp = 206) /\
        exists k ua pre,
          new = pre ++ [Request k ua] /\ attempt <= k < maxAttempts /\
          fn (env k) ua = mkFnResult (Some resp) None
    | Err e =>
        (exists k, attempt <= k < maxAttempts /\ 0 < k /\
                   ctxDone (env k) = Some e) \/
        isRetryableError e = false \/
        (exists le, e = exhausted_after maxAttempts (Some le) /\
                    isRetryableError le = true) \/
        e = exhausted_after maxAttempts None
    end.
Proof.
  induction fuel as [|fuel IH];
    intros attempt c lastErr tr0 c' res tr H Ha Hm Hlast maxAttempts.
  { exists [], 0. simpl in H.
    assert (tr = tr0 /\ res = Err (exhausted_after maxAttempts lastErr))
      as [-> ->] by (destruct lastErr; by injection H as <- <- <-).
    rewrite app_nil_r. repeat split; try done; try lia.
    destruct lastErr as [le|]; [|by right; right; right].
    right. right. left. exists le. split; [done|]. by apply Hlast. }
  simpl in H. fold maxAttempts in H.
  destruct (Z.ltb_spec attempt maxAttempts) as [Hlt|Hge]; simpl in H.
  2: { exists [], 0.
       assert (tr = tr0 /\ res = Err (exhausted_after maxAttempts lastErr))
         as [-> ->] by (destruct lastErr; by injection H as <- <- <-).
       rewrite app_nil_r. repeat split; try done; try lia.
       destruct lastErr as [le|]; [|by right; right; right].
       right. right. left. exists le. split; [done|]. by apply Hlast. }
  destruct (attempt_body c (env attempt) attempt lastErr) as [evs ctl] eqn:Hb.
  destruct (attempt_body_cases _ _ _ _ _ _ Hb Hlast)
    as [(-> & Hk & ce & Hce & ->)|(Hreq & Hctl)].
  { inversion H; subst. exists [], 0.
    repeat split; try done; try lia.
    left. exists attempt. repeat split; try done; lia. }
  destruct ctl as [r|c1 le].
  - inversion H; subst. exists evs, 1.
    split; [done|]. split; [by rewrite Hreq|].
    split; [lia|]. split; [lia|]. split; [lia|].
    destruct res as [resp|x].
    + destruct Hctl as (Hs & Hfn & pre & ->). split; [done|].
      exists attempt, (userAgent c'), pre. repeat split; try done; lia.
    + by right; left.
  - destruct Hctl as [Hcfg Hle].
    assert (Hadd : add64 attempt 1 = attempt + 1).
    { apply wrap64_id. unfold in_int64, min_int64, max_int64 in *. lia. }
    rewrite Hadd in H.
    apply IH in H; [|lia|by rewrite Hcfg|done].
    rewrite Hcfg in H. fold maxAttempts in H.
    destruct H as (new & n & -> & Hnew & Hn & Hbound & _ & Hres).
    exists (evs ++ new), (n + 1).
    split; [by rewrite app_assoc|].
    split.
    { unfold request_attempts in *. rewrite omap_app, Hreq, Hnew.
      rewrite (seqZ_cons attempt (n + 1)) by lia.
      by replace (Z.pred (n + 1)) with n by lia. }
    split; [lia|]. split; [lia|]. split; [lia|].
    destruct res as [resp|x].
    + destruct Hres as (Hs & k & ua & pre & -> & Hk & Hfn). split; [done|].
      exists k, ua, (evs ++ pre). rewrite app_assoc.
      repeat split; try done; lia.
    + destruct Hres as [(k & Hk & Hpos & Hctx)|Hres]; [|by right].
      left. exists k. repeat split; try done; lia.
Qed.

End Loop.

Lemma RotateUserAgent_step c :
  0 <= userAgentIdx c < 8 ->
  userAgentIdx (RotateUserAgent c) = (userAgentIdx c + 1) mod 8 /\
  userAgent (RotateUserAgent c)
    = nth (Z.to_nat (userAgentIdx (RotateUserAgent c))) defaultUserAgents "" /\
  In (userAgent (RotateUserAgent c)) defaultUserAgents.
Proof.
  intros Hi. unfold RotateUserAgent.
  change (Z.of_nat (length defaultUserAgents)) with 8.
  assert (Hadd : add64 (userAgentIdx c) 1 = userAgentIdx c + 1).
  { apply wrap64_id. unfold in_int64, min_int64, max_int64. lia. }
  rewrite Hadd. rewrite Z.rem_mod_nonneg by lia.
  cbn [userAgentIdx userAgent]. split; [done|]. split; [done|].
  apply nth_In. change (length defaultUserAgents) with 8%nat.
  pose proof (Z.mod_pos_bound (userAgentIdx c + 1) 8 ltac:(lia)). lia.
Qed.

(** X11. Rotation walks through the eight built-in user agents in order and
    starts again: from a client whose index is inside the list, after [n]
    rotations the index is the old one plus [n] modulo 8, it stays inside
    the list, the agent in use is the entry at that index, and the retry
    configuration is untouched. *)
Theorem RotateUserAgent_cycles (c : HTTPClient) (n : nat) :
  0 <= userAgentIdx c < 8 ->
  let c' := Nat.iter n RotateUserAgent c in
  userAgentIdx c' = (userAgentIdx c + Z.of_nat n) mod 8 /\
  retryConfig c' = retryConfig c /\
  ((0 < n)%nat ->
   userAgent c' = nth (Z.to_nat (userAgentIdx c')) defaultUserAgents "" /\
   In (userAgent c') defaultUserAgents).
Proof.
  intros Hi. induction n as [|n IH].
  - simpl. rewrite Z.add_0_r, Z.mod_small by lia. split; [done|].
    split; [done|lia].
  - cbn zeta in *. rewrite Nat.iter_succ.
    destruct IH as (Hidx & Hcfg & _).
    assert (Hr : 0 <= userAgentIdx (Nat.iter n RotateUserAgent c) < 8).
    { rewrite Hidx. apply Z.mod_pos_bound. lia. }
    destruct (RotateUserAgent_step _ Hr) as (Hs & Hua & Hin).
    split.
    { rewrite Hs, Hidx, Zplus_mod_idemp_l. f_equal. lia. }
    split; [done|]. intros _. by split.
Qed.

Lemma RotateUserAgent_cycles_witness :
  userAgentIdx (Nat.iter 9 RotateUserAgent NewHTTPClient) = (0 + 9) mod 8.
Proof.
  apply (RotateUserAgent_cycles NewHTTPClient 9). simpl. lia.
Defined.

(** X12. [executeWithRetryContext] returns a response only with status 200
    or 206: it is the response [fn] returned, without an error, to the last
    request of the run. *)
Theorem success_is_200_or_206 (c : HTTPClient) (env : Z -> AttemptEnv)
    (resp : Response) :
  MaxAttempts (retryConfig c) <= max_int64 ->
  snd (fst (executeWithRetryContext c env)) = Ok resp ->
  (StatusCode resp = 200 \/ StatusCode resp = 206) /\
  exists k ua pre,
    snd (executeWithRetryContext c env) = pre ++ [Request k ua] /\
    0 <= k < MaxAttempts (retryConfig c) /\
    fn (env k) ua = mkFnResult (Some resp) None.
Proof.
  intros Hm. unfold executeWithRetryContext.
  destruct (retry_loop _ 0 c env None []) as [[c' res] tr] eqn:Hrun.
  apply retry_loop_outcome in Hrun; [|lia|done|done].
  destruct Hrun as (new & n & -> & _ & _ & _ & _ & Hres).
  simpl. intros ->. exact Hres.
Qed.

Definition resp_200 : Response :=
  {| StatusCode := 200; Header := []; BodyChunks := []; BodyEnd := EOF |}.

(** A server that answers 429 to the first request and 200 afterwards. *)
Definition once_429 : Z -> AttemptEnv :=
  fun k => {| fn := fun _ =>
                mkFnResult (Some (if k =? 0 then resp_429 else resp_200)) None;
              jitterRand := 0.5%float; ctxDone := None |}.

Lemma success_is_200_or_206_witness :
  StatusCode resp_200 = 200 \/ StatusCode resp_200 = 206.
Proof.
  apply (success_is_200_or_206 NewHTTPClient once_429 resp_200).
  - vm_compute. discriminate.
  - vm_compute. reflexivity.
Defined.

(** X13. The requests of a run are numbered 0, 1, 2, ... without a gap and
    there are at most [MaxAttempts] of them; with [MaxAttempts <= 0] nothing
    is requested and the run fails with "request failed after N
    attempts". *)
Theorem requests_are_bounded (c : HTTPClient) (env : Z -> AttemptEnv) :
  MaxAttempts (retryConfig c) <= max_int64 ->
  let maxAttempts := MaxAttempts (retryConfig c) in
  let run := executeWithRetryContext c env in
  (exists n,
     request_attempts (snd run) = seqZ 0 n /\ 0 <= n <= Z.max 0 maxAttempts) /\
  (maxAttempts <= 0 ->
   snd run = [] /\
   snd (fst run)
     = Err (Plain ("request failed after " +:+ sprint_d maxAttempts
                     +:+ " attempts"))).
Proof.
  intros Hm maxAttempts run. subst run. unfold executeWithRetryContext.
  destruct (retry_loop _ 0 c env None []) as [[c' res] tr] eqn:Hrun.
  apply retry_loop_outcome in Hrun; [|lia|done|done].
  destruct Hrun as (new & n & -> & Hreq & Hn & Hbound & Hzero & _).
  simpl. split.
  - exists n. split; [done|]. fold maxAttempts in Hbound. lia.
  - intros Hle. destruct (Hzero Hle) as [-> ->]. done.
Qed.

Lemma requests_are_bounded_witness :
  exists n,
    request_attempts (snd (executeWithRetryContext NewHTTPClient always_429))
      = seqZ 0 n /\
    0 <= n <= Z.max 0 3.
Proof.
  apply (requests_are_bounded NewHTTPClient always_429).
  vm_compute. discriminate.
Defined.

(** X14. Every error [executeWithRetryContext] returns is of one of four
    kinds: the error of the context that ended a back-off sleep; an error
    that [isRetryableError] rejects (returned by [fn], or built for a 404,
    a 401 or another status below 500 that is not 403 or 429); the error
    "request failed after N attempts: ..." around a last error that
    [isRetryableError] accepts; or "request failed after N attempts" when
    there was no last error. *)
Theorem errors_are_final_or_exhausted (c : HTTPClient) (env : Z -> AttemptEnv)
    (e : error) :
  MaxAttempts (retryConfig c) <= max_int64 ->
  snd (fst (executeWithRetryContext c env)) = Err e ->
  let maxAttempts := MaxAttempts (retryConfig c) in
  (exists k, 0 < k < maxAttempts /\ ctxDone (env k) = Some e) \/
  isRetryableError e = false \/
  (exists lastErr,
     e = Wrap ("request failed after " +:+ sprint_d maxAttempts
                 +:+ " attempts: ") lastErr /\
     isRetryableError lastErr = true) \/
  e = Plain ("request failed after " +:+ sprint_d maxAttempts +:+ " attempts").
Proof.
  intros Hm. unfold executeWithRetryContext.
  destruct (retry_loop _ 0 c env None []) as [[c' res] tr] eqn:Hrun.
  apply retry_loop_outcome in Hrun; [|lia|done|done].
  destruct Hrun as (new & n & -> & _ & _ & _ & _ & Hres).
  simpl. intros ->.
  destruct Hres as [(k & Hk & Hpos & Hctx)|Hres]; [|by right].
  left. exists k. split; [lia|done].
Qed.

Lemma errors_are_final_or_exhausted_witness :
  exists e,
    snd (fst (executeWithRetryContext NewHTTPClient always_429)) = Err e /\
    ((exists k, 0 < k < 3 /\ ctxDone (always_429 k) = Some e) \/
     isRetryableError e = false \/
     (exists lastErr,
        e = Wrap ("request failed after " +:+ sprint_d 3 +:+ " attempts: ")
              lastErr /\
        isRetryableError lastErr = true) \/
     e = Plain ("request failed after " +:+ sprint_d 3 +:+ " attempts")).
Proof.
  eexists. split; [vm_compute; reflexivity|].
  apply (errors_are_final_or_exhausted NewHTTPClient always_429).
  - vm_compute. discriminate.
  - vm_compute. reflexivity.
Defined.

End HTTPMore.

(** ** The token bucket: burst bound, measurement window, thread count *)

Module RateLimiterMore.
Import RateLimiter.

Lemma int64_of_float64_range (x : float64) : in_int64 (int64_of_float64 x).
Proof.
  unfold int64_of_float64.
  assert (H0 : in_int64 0) by (unfold in_int64, min_int64, max_int64; lia).
  assert (Hmin : in_int64 min_int64)
    by (unfold in_int64, min_int64, max_int64; lia).
  destruct (FloatOps.Prim2SF x) as [s|s| |s m e]; try done.
  destruct (Z.leb_spec min_int64 (if s then - Z.shiftl (Z.pos m) e
                                  else Z.shiftl (Z.pos m) e)); [|done].
  destruct (Z.leb_spec (if s then - Z.shiftl (Z.pos m) e
                        else Z.shiftl (Z.pos m) e) max_int64); [|done].
  by split.
Qed.

(** A call as the Go types and the callers have it: rates are [int64]
    values and a byte count is not negative. *)
Definition call_ok (c : call) : Prop :=
  match c with
  | CallWait n _ => 0 <= n
  | CallSetRate bytesPerSecond => in_int64 bytesPerSecond
  | _ => True
  end.

(** The bucket never holds more than [maxBucket], which is the active rate;
    the window of speed measurements holds at most [maxMeasurements = 10]
    entries. *)
Definition bucket_inv (r : TokenBucketLimiter) : Prop :=
  maxBucket r = rate r /\ bucket r <= maxBucket r /\ in_int64 (rate r) /\
  (length (measurements (networkStats r)) <= 10)%nat /\
  maxMeasurements (networkStats r) = 10.

Lemma bucket_inv_adjust r since now :
  bucket_inv r -> bucket_inv (adjustRateBasedOnPerformance r since now).
Proof.
  intros (Hm & Hb & Hr & Hl & Hx). unfold adjustRateBasedOnPerformance.
  destruct (_ <? _); [done|]. destruct (_ <? _)%nat; [done|].
  assert (Hstep : forall nf : float64,
    let newRate :=
      int64_of_float64 (float64_of_int (originalRate r) * nf)%float in
    bucket_inv
      (mkTokenBucketLimiter newRate
         (if bucket r >? newRate then newRate else bucket r) newRate
         (lastUpdate r) (threadCount r) (originalRate r) nf now
         (networkStats r))).
  { intros nf newRate. refine (conj _ (conj _ (conj _ (conj _ _)))); simpl;
      try done; [|apply int64_of_float64_range].
    destruct (Z.gtb_spec (bucket r) newRate); lia. }
  destruct (_ <? f0_8)%float; [apply Hstep|].
  destruct (_ && _); [|done].
  destruct (1 <? _)%float; apply Hstep.
Qed.

Lemma bucket_inv_update r b d c :
  bucket_inv r -> bucket_inv (UpdateNetworkStats r b d c).
Proof.
  intros (Hm & Hb & Hr & Hl & Hx). unfold UpdateNetworkStats.
  destruct (_ || _); [done|]. apply bucket_inv_adjust.
  refine (conj _ (conj _ (conj _ (conj _ _)))); simpl; try done.
  rewrite Hx, length_app. simpl.
  destruct (Z.geb_spec (Z.of_nat (length (measurements (networkStats r)))) 10).
  - rewrite length_drop. lia.
  - lia.
Qed.

Lemma bucket_inv_wait r n e :
  0 <= n -> bucket_inv r -> bucket_inv (fst (Wait r n e)).
Proof.
  intros Hn H. unfold Wait.
  destruct (Z.leb_spec (rate r) 0) as [Hz|Hpos]; [done|].
  assert (H1 : bucket_inv (fst (Wait_locked r n (waitNow e)))).
  { destruct H as (Hm & Hb & Hr & Hl & Hx). unfold Wait_locked.
    set (bucket1 := add64 (bucket r) _).
    set (bucket2 := if bucket1 >? maxBucket r then maxBucket r else bucket1).
    assert (Hb2 : bucket2 <= maxBucket r /\ in_int64 bucket2).
    { subst bucket2. destruct (Z.gtb_spec bucket1 (maxBucket r)).
      - split; [lia|]. by rewrite Hm.
      - split; [lia|]. apply wrap64_range. }
    destruct Hb2 as [Hle Hin].
    destruct (Z.geb_spec bucket2 n) as [Hge|Hlt]; simpl.
    - refine (conj _ (conj _ (conj _ (conj _ _)))); simpl; try done.
      unfold sub64. rewrite wrap64_id; [lia|].
      unfold in_int64, min_int64, max_int64 in *. lia.
    - refine (conj _ (conj _ (conj _ (conj _ _)))); simpl; try done. lia. }
  destruct (Wait_locked r n (waitNow e)) as [r1 w]; simpl in H1.
  destruct w as [w|]; [destruct (cancelled e); [done|]|];
    simpl; destruct (_ >? _); try done; by apply bucket_inv_update.
Qed.

Lemma bucket_inv_exec r c : call_ok c -> bucket_inv r -> bucket_inv (exec r c).
Proof.
  intros Hc H. destruct c; simpl in *.
  - by apply bucket_inv_wait.
  - destruct H as (Hm & Hb & Hr & Hl & Hx).
    refine (conj _ (conj _ (conj _ (conj _ _)))); simpl; try done.
    destruct (Z.gtb_spec (bucket r) bytesPerSecond); lia.
  - done.
  - unfold UnregisterThread. by destruct (_ >? _).
  - by apply bucket_inv_update.
Qed.

(** X15. From a new limiter and through any sequence of calls ([Wait] with
    byte counts that are not negative, [SetRate], thread registration,
    [UpdateNetworkStats]), the bucket never holds more tokens than the
    active rate, which is also [maxBucket]: a burst is at most one second
    of traffic.  The window of speed measurements never holds more than 10
    entries. *)
Theorem bucket_never_exceeds_rate (bytesPerSecond : Z) (now : Time)
    (cs : list call) :
  in_int64 bytesPerSecond -> Forall call_ok cs ->
  let r := run (NewTokenBucketLimiter bytesPerSecond now) cs in
  bucket r <= rate r /\ maxBucket r = rate r /\
  (length (measurements (networkStats r)) <= 10)%nat.
Proof.
  intros Hb Hcs r.
  assert (H : bucket_inv r).
  { subst r. unfold run.
    assert (H0 : bucket_inv (NewTokenBucketLimiter bytesPerSecond now)).
    { refine (conj _ (conj _ (conj _ (conj _ _)))); simpl; try done. lia. }
    revert H0. generalize (NewTokenBucketLimiter bytesPerSecond now).
    induction Hcs as [|c cs Hc _ IH]; intros r0 H0; [done|].
    simpl. apply IH. by apply bucket_inv_exec. }
  destruct H as (Hm & Hle & _ & Hl & _). split; [lia|]. done.
Qed.

Lemma bucket_never_exceeds_rate_witness :
  let r := run (NewTokenBucketLimiter 1000 0) RateLimiterFacts.fast_then_slow in
  bucket r <= rate r /\ maxBucket r = rate r /\
  (length (measurements (networkStats r)) <= 10)%nat.
Proof.
  apply (bucket_never_exceeds_rate 1000 0 RateLimiterFacts.fast_then_slow).
  - unfold in_int64, min_int64, max_int64. lia.
  - repeat constructor.
Defined.

(** The number of [RegisterThread] calls in a run. *)
Fixpoint registrations (cs : list call) : Z :=
  match cs with
  | [] => 0
  | CallRegisterThread :: cs' => 1 + registrations cs'
  | _ :: cs' => registrations cs'
  end.

Lemma registrations_bounds cs : 0 <= registrations cs <= Z.of_nat (length cs).
Proof.
  induction cs as [|c cs IH]; simpl; [lia|]. destruct c; lia.
Qed.

Lemma threadCount_adjust r since now :
  threadCount (adjustRateBasedOnPerformance r since now) = threadCount r.
Proof.
  unfold adjustRateBasedOnPerformance.
  destruct (_ <? _); [done|]. destruct (_ <? _)%nat; [done|].
  destruct (_ <? f0_8)%float; [done|].
  destruct (_ && _); [|done]. by destruct (1 <? _)%float.
Qed.

Lemma threadCount_update r b d c :
  threadCount (UpdateNetworkStats r b d c) = threadCount r.
Proof.
  unfold UpdateNetworkStats. destruct (_ || _); [done|].
  by rewrite threadCount_adjust.
Qed.

Lemma threadCount_wait r n e : threadCount (fst (Wait r n e)) = threadCount r.
Proof.
  unfold Wait. destruct (rate r <=? 0); [done|].
  assert (H1 : threadCount (fst (Wait_locked r n (waitNow e))) = threadCount r).
  { unfold Wait_locked. by destruct (_ >=? _). }
  destruct (Wait_locked r n (waitNow e)) as [r1 w]; simpl in H1.
  destruct w as [w|]; [destruct (cancelled e); [done|]|];
    simpl; destruct (_ >? _); try done; by rewrite threadCount_update.
Qed.

(** The number of [UnregisterThread] calls in a run. *)
Fixpoint unregistrations (cs : list call) : Z :=
  match cs with
  | [] => 0
  | CallUnregisterThread :: cs' => 1 + unregistrations cs'
  | _ :: cs' => unregistrations cs'
  end.

Lemma unregistrations_bounds cs : 0 <= unregistrations cs.
Proof. induction cs as [|c cs IH]; simpl; [lia|]. destruct c; lia. Qed.

Lemma wrap32_id z : - 2 ^ 31 <= z < 2 ^ 31 -> wrap32 z = z.
Proof. intros H. unfold wrap32. rewrite Z.mod_small; lia. Qed.

Lemma threadCount_run cs : forall r,
  - 2 ^ 31 <= threadCount r ->
  threadCount r + Z.of_nat (length cs) < 2 ^ 31 ->
  Z.min (threadCount r) 0 <= threadCount (run r cs)
    <= threadCount r + registrations cs /\
  threadCount r + registrations cs - unregistrations cs
    <= threadCount (run r cs).
Proof.
  induction cs as [|c cs IH]; intros r H0 Hlen.
  { simpl. lia. }
  change (run r (c :: cs)) with (run (exec r c) cs).
  simpl length in Hlen.
  assert (Hstep :
    Z.min (threadCount r) 0 <= Z.min (threadCount (exec r c)) 0 /\
    - 2 ^ 31 <= threadCount (exec r c) <= threadCount r + 1 /\
    threadCount (exec r c) + registrations cs
      <= threadCount r + registrations (c :: cs) /\
    threadCount r + registrations (c :: cs) - unregistrations (c :: cs)
      <= threadCount (exec r c) + registrations cs - unregistrations cs).
  { pose proof (registrations_bounds cs) as Hreg.
    destruct c; simpl.
    - rewrite threadCount_wait. lia.
    - lia.
    - rewrite wrap32_id by lia. lia.
    - unfold UnregisterThread.
      destruct (Z.gtb_spec (threadCount r) 0); simpl; [|lia].
      rewrite wrap32_id by lia. lia.
    - rewrite threadCount_update. lia. }
  destruct Hstep as (Hs0 & Hs1 & Hs2 & Hs3).
  destruct (IH (exec r c)) as [[Hlo Hhi] Hex]; lia.
Qed.

(** X16. The thread count of a limiter.  It starts at 0 for
    [NewTokenBucketLimiter] and at [threadCount] for
    [NewDistributedRateLimiter], without any registration.  After any run of
    calls from a limiter whose count is [c], the count is at most [c] plus
    the number of [RegisterThread] calls, at least that minus the number of
    [UnregisterThread] calls, and never below [min c 0]: [UnregisterThread]
    changes nothing when the count is not positive, and no other call
    touches the count.  So the count of a limiter that starts at a count
    [>= 0] is never negative, and a limiter made for [n] workers on which
    [n] workers register has the count [2 n].  (For counts and runs where
    the [int32] counter cannot wrap.) *)
Theorem thread_count_bounds (r : TokenBucketLimiter) (cs : list call)
    (bytesPerSecond n : Z) (now : Time) :
  GetThreadCount (NewTokenBucketLimiter bytesPerSecond now) = 0 /\
  (- 2 ^ 31 <= n < 2 ^ 31 ->
   GetThreadCount (NewDistributedRateLimiter bytesPerSecond n now) = n) /\
  (- 2 ^ 31 <= GetThreadCount r ->
   GetThreadCount r + Z.of_nat (length cs) < 2 ^ 31 ->
   Z.min (GetThreadCount r) 0 <= GetThreadCount (run r cs)
     <= GetThreadCount r + registrations cs /\
   GetThreadCount r + registrations cs - unregistrations cs
     <= GetThreadCount (run r cs)) /\
  (0 <= n < 2 ^ 30 ->
   GetThreadCount
     (run (NewDistributedRateLimiter bytesPerSecond n now)
        (replicate (Z.to_nat n) CallRegisterThread)) = 2 * n).
Proof.
  unfold GetThreadCount.
  split; [reflexivity|]. split; [|split].
  - intros Hn. simpl. by apply wrap32_id.
  - apply threadCount_run.
  - intros Hn.
    set (r0 := NewDistributedRateLimiter bytesPerSecond n now).
    set (cs0 := replicate (Z.to_nat n) CallRegisterThread).
    assert (H0 : threadCount r0 = n) by (simpl; apply wrap32_id; lia).
    assert (Hreg : registrations cs0 = n /\ unregistrations cs0 = 0).
    { subst cs0. assert (Hn0 : 0 <= n) by lia.
      rewrite <- (Z2Nat.id n Hn0) at 2. generalize (Z.to_nat n) as k.
      induction k as [|k [IH1 IH2]]; simpl; [done|]. lia. }
    destruct Hreg as [Hreg Hun].
    destruct (threadCount_run cs0 r0) as [[_ Hhi] Hlo].
    + lia.
    + subst cs0. rewrite length_replicate. lia.
    + lia.
Qed.

Lemma thread_count_bounds_witness :
  GetThreadCount
    (run (NewDistributedRateLimiter 1000 4 0)
       (replicate 4 CallRegisterThread)) = 8 /\
  0 <= GetThreadCount
         (run (NewTokenBucketLimiter 1000 0)
            [CallUnregisterThread; CallRegisterThread; CallRegisterThread;
             CallUnregisterThread])
    <= 2.
Proof.
  split.
  - apply (thread_count_bounds (NewTokenBucketLimiter 1000 0) [] 1000 4 0).
    lia.
  - apply (proj1 (proj1 (proj2 (proj2
             (thread_count_bounds (NewTokenBucketLimiter 1000 0)
                [CallUnregisterThread; CallRegisterThread; CallRegisterThread;
                 CallUnregisterThread] 1000 0 0))) ltac:(simpl; lia)
             ltac:(simpl; lia))).
Defined.

End RateLimiterMore.

(** ** The worker: how much it writes, which errors it returns *)

Module WorkerMore.
Import Worker WorkerFacts.

Lemma copy_loop_bound fuel : forall wp env k src maxBytes total t err,
  copy_loop fuel wp env k src maxBytes total = Some (t, err) ->
  in_int64 maxBytes -> 0 <= total ->
  (forall j n, 0 < n -> 0 <= written (fileWrite env j n) <= n) ->
  total <= t <= Z.max total maxBytes.
Proof.
  induction fuel as [|fuel IH];
    intros wp env k src maxBytes total t err H Hm Ht Hw; simpl in H;
    destruct (Z.ltb_spec total maxBytes) as [Hlt|Hge]; simpl in H;
    try (inversion H; subst; lia); try done.
  assert (Hrem : sub64 maxBytes total = maxBytes - total).
  { apply wrap64_id. unfold in_int64, min_int64, max_int64 in *. lia. }
  rewrite Hrem in H.
  set (toRead := if bufferSize >? maxBytes - total then maxBytes - total
                 else bufferSize) in H.
  assert (Htr : 1 <= toRead <= maxBytes - total).
  { unfold toRead, bufferSize.
    destruct (Z.gtb_spec (32 * 1024) (maxBytes - total)); lia. }
  destruct (Read src toRead) as [[n oe] src'] eqn:HR.
  apply Read_spec in HR as [(Hc & -> & -> & ->)|(-> & Hn & He & Hbody & _)];
    [| |lia].
  { simpl in H. destruct (atEnd src); inversion H; subst; lia. }
  assert (Hrec : forall total',
            total <= total' <= maxBytes ->
            match ctxPoll env k with
            | Some ce => Some (total', Some ce)
            | None => copy_loop fuel wp env (S k) src' maxBytes total'
            end = Some (t, err) ->
            total <= t <= Z.max total maxBytes).
  { intros total' Ht' Hk. destruct (ctxPoll env k).
    - inversion Hk; subst. lia.
    - apply IH in Hk; try done; lia. }
  destruct (Z.gtb_spec n 0) as [Hpos|Hz].
  - destruct (if hasRateLimiter wp then limiterWait env k else None).
    { inversion H; subst. lia. }
    specialize (Hw k n Hpos).
    assert (Hadd : add64 total (written (fileWrite env k n))
                   = total + written (fileWrite env k n)).
    { apply wrap64_id. unfold in_int64, min_int64, max_int64 in *. lia. }
    rewrite Hadd in H.
    destruct (writeErr (fileWrite env k n)).
    { inversion H; subst. lia. }
    destruct (Z.eqb_spec (written (fileWrite env k n)) n) as [Heq|Hne];
      simpl in H.
    + apply (Hrec (total + written (fileWrite env k n))); [lia|done].
    + inversion H; subst. lia.
  - apply (Hrec total); [lia|done].
Qed.

(** X17. [copyWithRateLimit] always returns, and the number of bytes it
    reports written is never negative and never more than [maxBytes],
    whatever the body holds and however the copy ends (end of the body, an
    error of the reader, of the limiter or of the file, a cancelled
    context), provided every [Write] reports between 0 and [len(p)] bytes as
    [io.Writer] requires: a worker does not write past the end of its
    segment. *)
Theorem copy_stays_within_segment (wp : WorkerPool) (env : SegmentEnv)
    (src : Reader) (maxBytes : Z) :
  in_int64 maxBytes ->
  (forall j n, 0 < n -> 0 <= written (fileWrite env j n) <= n) ->
  exists totalWritten err,
    copyWithRateLimit wp env src maxBytes = Some (totalWritten, err) /\
    0 <= totalWritten <= Z.max 0 maxBytes.
Proof.
  intros Hm Hw.
  destruct (copyWithRateLimit_some wp env src maxBytes Hm) as [[t err] H].
  exists t, err. split; [done|].
  unfold copyWithRateLimit in H.
  by apply copy_loop_bound in H.
Qed.

Lemma copy_stays_within_segment_witness :
  exists totalWritten err,
    copyWithRateLimit wp_one (segmentEnv env_short 0) (Body resp_short) 3
      = Some (totalWritten, err) /\
    0 <= totalWritten <= Z.max 0 3.
Proof.
  apply (copy_stays_within_segment wp_one (segmentEnv env_short 0)
           (Body resp_short) 3).
  - unfold in_int64, min_int64, max_int64. lia.
  - intros j n Hn. simpl. lia.
Defined.

(** X18. Every error [downloadSegment] returns is one of four wrapped
    errors: the part file could not be opened, the seek failed, the HTTP
    request failed, or the copy failed.  The errors it prepares for the
    statuses 416, 429 and 403 and for an unexpected status are never
    returned, because [GetWithContext] only hands over responses with
    status 200 or 206.  The result passed in comes back unchanged. *)
Theorem downloadSegment_error_kinds (wp : WorkerPool) (job : DownloadJob)
    (env : SegmentEnv) (result result' : DownloadResult) (e : error)
    (c' : HTTP.HTTPClient) :
  HTTP.MaxAttempts (HTTP.retryConfig (httpClient wp)) <= max_int64 ->
  downloadSegment wp job env result = Some (Some e, result', c') ->
  result' = result /\
  exists inner,
    e = Wrap "failed to open part file: " inner \/
    e = Wrap "failed to seek to segment position: " inner \/
    e = Wrap "failed to execute HTTP request: " inner \/
    e = Wrap "failed to copy segment data: " inner.
Proof.
  intros Hm. unfold downloadSegment.
  destruct (openErr env) as [oe|]; [intros [= <- <- <-]; eauto 6|].
  destruct (seekErr env) as [se|]; [intros [= <- <- <-]; eauto 6|].
  unfold HTTP.GetWithContext, HTTP.executeWithRetryContext.
  destruct (HTTP.retry_loop _ 0 _ _ None []) as [[c1 r] tr] eqn:Hrun.
  apply HTTPMore.retry_loop_outcome in Hrun; [|lia|done|done].
  destruct Hrun as (new & n & _ & _ & _ & _ & _ & Hres).
  destruct r as [resp|he]; [|intros [= <- <- <-]; eauto 6].
  destruct Hres as [Hcode _].
  assert (Hst : negb (HTTP.StatusCode resp =? 206)
                && negb (HTTP.StatusCode resp =? 200) = false).
  { destruct Hcode as [-> | ->]; reflexivity. }
  rewrite Hst.
  destruct (copyWithRateLimit wp env (Body resp) (segment_length job))
    as [[t [ce|]]|]; [|done|done].
  intros [= <- <- <-]. eauto 6.
Qed.

(** A segment whose requests are all answered with status 429. *)
Definition env_429 : SegmentEnv :=
  mkSegmentEnv None None HTTPFacts.always_429 (fun _ => None)
    (fun _ n => mkWriteResult n None) (fun _ => None).

Lemma downloadSegment_error_kinds_witness :
  exists e result' c',
    downloadSegment wp_one job_ten env_429 (mkDownloadResult 0 0 None false)
      = Some (Some e, result', c') /\
    result' = mkDownloadResult 0 0 None false /\
    exists inner,
      e = Wrap "failed to open part file: " inner \/
      e = Wrap "failed to seek to segment position: " inner \/
      e = Wrap "failed to execute HTTP request: " inner \/
      e = Wrap "failed to copy segment data: " inner.
Proof.
  eexists _, _, _. split; [vm_compute; reflexivity|].
  eapply (downloadSegment_error_kinds wp_one job_ten env_429
            (mkDownloadResult 0 0 None false)).
  - vm_compute. discriminate.
  - vm_compute. reflexivity.
Defined.

(** A job all of whose requests are answered with status 429. *)
Definition job_env_429 : JobEnv :=
  {| segmentEnv := fun _ => env_429; backoffDone := fun _ => None |}.

(** X27. The attempts of [processJob].  It gets to attempt 0, and to attempt
    [k + 1] exactly after an attempt [k < 2] that failed with a network
    error and whose back-off the context did not cut short; one of the
    attempts 0, 1, 2 decides.  At an attempt it gets to: a successful
    [downloadSegment] makes the result completed; an error that
    [isNetworkError] rejects is returned at once, so an error that is not a
    network error is never retried; the error of the third attempt is
    returned whatever it is, without a back-off; and after a network error
    of attempt 0 or 1 a cancelled back-off returns the error of the context
    instead. *)
Theorem processJob_attempts (wp : WorkerPool) (job : DownloadJob)
    (env : JobEnv) :
  (exists k wp_k o res c,
     retried wp job env k wp_k /\
     downloadSegment wp_k job (segmentEnv env k) (first_result job)
       = Some (o, res, c) /\
     decides env k o) /\
  (forall k wp_k o res c,
     retried wp job env k wp_k ->
     downloadSegment wp_k job (segmentEnv env k) (first_result job)
       = Some (o, res, c) ->
     0 <= k < 3 /\
     match o with
     | None =>
         processJob wp job env =
           Some (mkDownloadResult (SegmentIndex res) (BytesWritten res)
                   (RError res) true, set_httpClient wp_k c)
     | Some e =>
         (isNetworkError e = false \/ k = 2 ->
          processJob wp job env =
            Some (set_RError (first_result job) (Some e),
                  set_httpClient wp_k c)) /\
         (isNetworkError e = true -> k < 2 ->
          forall ce, backoffDone env k = Some ce ->
          processJob wp job env =
            Some (set_RError (first_result job) (Some ce),
                  set_httpClient wp_k c)) /\
         (isNetworkError e = true -> k < 2 -> backoffDone env k = None ->
          retried wp job env (k + 1) (set_httpClient wp_k c))
     end).
Proof.
  split.
  { apply (retried_decided wp job env 3 0 wp); [apply retried_first|lia]. }
  intros k wp_k o res c Hr Hd.
  pose proof (retried_range _ _ _ _ _ Hr) as Hrange. split; [lia|].
  pose proof (retried_attempt _ _ _ _ _ Hr) as Hp. rewrite Hd in Hp.
  destruct o as [e|]; [|exact Hp].
  split; [|split].
  - intros [Hnet | ->].
    + by rewrite Hnet in Hp.
    + by rewrite orb_true_r in Hp.
  - intros Hnet Hk ce Hb. rewrite Hnet, Hb in Hp.
    destruct (Z.eqb_spec k 2); [lia|]. exact Hp.
  - intros Hnet Hk Hb.
    by apply (retried_next wp job env k wp_k e res c).
Qed.

Lemma processJob_attempts_witness :
  exists e,
    processJob wp_one job_ten job_env_429 =
      Some (set_RError (first_result job_ten) (Some e), wp_one) /\
    isNetworkError e = false.
Proof.
  destruct (proj2 (processJob_attempts wp_one job_ten job_env_429)
              0 wp_one _ _ _ (retried_first _ _ _)
              ltac:(vm_compute; reflexivity)) as [_ [H _]].
  eexists. split.
  - apply H. left. vm_compute. reflexivity.
  - vm_compute. reflexivity.
Defined.

End WorkerMore.

(** ** The coordinator: error texts, files after a download, worker pools *)

Module EngineMore.
Import Disk Engine EngineFacts.
Local Open Scope engine_scope.

Lemma append_cons (a : ascii) (s t : string) :
  String a s +:+ t = String a (s +:+ t).
Proof. reflexivity. Qed.

Lemma append_nil_l (t : string) : "" +:+ t = t.
Proof. reflexivity. Qed.

Lemma append_nil_r (s : string) : s +:+ "" = s.
Proof.
  induction s as [|a s IH]; [done|]. by rewrite append_cons, IH.
Qed.

Lemma length_append (a b : string) :
  String.length (a +:+ b) = (String.length a + String.length b)%nat.
Proof.
  induction a as [|x a IH]; [done|]. rewrite append_cons. simpl. by rewrite IH.
Qed.

Lemma prefix_append (sub s : string) :
  String.prefix sub s = true <-> exists post, s = sub +:+ post.
Proof.
  revert s. induction sub as [|a sub IH]; intros s.
  { split; [intros _; by exists s|by destruct s]. }
  destruct s as [|b s].
  { split; [done|]. by intros [post [=]]. }
  simpl. destruct (Ascii.ascii_dec a b) as [->|Hne].
  - rewrite IH. split; intros [post H]; exists post.
    + by rewrite append_cons, H.
    + rewrite append_cons in H. congruence.
  - split; [done|]. intros [post H]. rewrite append_cons in H. congruence.
Qed.

(** A string occurs in another one. *)
Definition occurs_in (sub s : string) : Prop :=
  exists pre post, s = pre +:+ sub +:+ post.

Lemma occurs_in_prefix (sub s : string) :
  String.prefix sub s = true -> occurs_in sub s.
Proof. intros [post H]%prefix_append. by exists "", post. Qed.

Lemma occurs_in_cons (a : ascii) (sub s : string) :
  occurs_in sub (String a s) <->
  String.prefix sub (String a s) = true \/ occurs_in sub s.
Proof.
  split.
  - intros (pre & post & H). destruct pre as [|b pre].
    + left. apply prefix_append. by exists post.
    + right. rewrite append_cons in H. injection H as _ ->. by exists pre, post.
  - intros [H|(pre & post & ->)]; [by apply occurs_in_prefix|].
    by exists (String a pre), post.
Qed.

Lemma containsErrorSubstring_occurs (s sub : string) :
  Worker.containsErrorSubstring s sub = true <-> occurs_in sub s.
Proof.
  induction s as [|a s IH].
  - change (Worker.containsErrorSubstring "" sub)
      with (if String.prefix sub "" then true else false).
    destruct (String.prefix sub "") eqn:Hp.
    + split; [|done]. intros _. by apply occurs_in_prefix.
    + split; [done|]. intros (pre & post & H).
      destruct pre; [|done].
      assert (String.prefix sub "" = true); [|congruence].
      apply prefix_append. by exists post.
  - change (Worker.containsErrorSubstring (String a s) sub)
      with (if String.prefix sub (String a s) then true
            else Worker.containsErrorSubstring s sub).
    rewrite occurs_in_cons.
    destruct (String.prefix sub (String a s)) eqn:Hp.
    + split; [by left|done].
    + rewrite IH. split; [by right|]. by intros [?|?].
Qed.

Lemma substring_0_prefix (m : nat) (s : string) :
  exists post, s = substring 0 m s +:+ post.
Proof.
  revert s. induction m as [|m IH]; intros s.
  { exists s. by destruct s. }
  destruct s as [|a s]; [by exists ""|].
  destruct (IH s) as [post H]. exists post.
  change (substring 0 (S m) (String a s)) with (String a (substring 0 m s)).
  by rewrite append_cons, <- H.
Qed.

Lemma substring_occurs (n m : nat) (s : string) : occurs_in (substring n m s) s.
Proof.
  revert n. induction s as [|a s IH]; intros n.
  - exists "", "". by destruct n, m.
  - destruct n as [|n].
    + destruct (substring_0_prefix m (String a s)) as [post H].
      by exists "", post.
    + change (substring (S n) m (String a s)) with (substring n m s).
      apply occurs_in_cons. right. apply IH.
Qed.

Lemma containsError_occurs (s sub : string) :
  containsError s sub = true <-> occurs_in sub s.
Proof.
  unfold containsError, len. split.
  - intros H. apply andb_true_iff in H as [_ H].
    apply orb_true_iff in H as [H|H].
    { apply String.eqb_eq in H as ->. exists "", "".
      by rewrite append_nil_l, append_nil_r. }
    apply andb_true_iff in H as [_ H].
    apply orb_true_iff in H as [H|H];
      [apply orb_true_iff in H as [H|H]|];
      try (apply String.eqb_eq in H; rewrite <- H; apply substring_occurs).
    by apply containsErrorSubstring_occurs.
  - intros Hocc. pose proof Hocc as (pre & post & Hs).
    assert (Hlen : String.length s
                   = (String.length pre + String.length sub
                      + String.length post)%nat).
    { rewrite Hs, !length_append. lia. }
    apply andb_true_iff. split; [lia|].
    destruct (String.eqb_spec s sub) as [Heq|Hne]; [done|]. simpl.
    apply andb_true_iff. split.
    + destruct pre, post; simpl in Hlen; try lia.
      rewrite append_nil_l, append_nil_r in Hs. done.
    + apply orb_true_iff. right. by apply containsErrorSubstring_occurs.
Qed.

(** X19. [containsError] is an exact substring test: it holds if and only
    if the pattern occurs in the text, byte for byte, so letters of another
    case do not match, and its guards on the lengths, on equality and on the
    two ends add nothing to the search of [containsErrorSubstring]. *)
Theorem containsError_is_substring (s substr : string) :
  (containsError s substr = true <->
   exists pre post, s = pre +:+ substr +:+ post) /\
  containsError s substr = Worker.containsErrorSubstring s substr.
Proof.
  split; [apply containsError_occurs|].
  apply eq_true_iff_eq.
  by rewrite containsError_occurs, containsErrorSubstring_occurs.
Qed.

(** X26. The two retry classifications agree in one direction: every error
    other than a bare [*TeraboxError] that the coordinator's
    [isRecoverableError] accepts is also a network error for the worker's
    [isNetworkError], whose pattern list holds the same eight texts and
    ["EOF"], matched in the same case-sensitive way. *)
Theorem recoverable_is_network_error (err : error) :
  (forall e, err <> Terabox e) ->
  isRecoverableError err = true -> Worker.isNetworkError err = true.
Proof.
  intros Hnt. unfold Worker.isNetworkError.
  assert (H : existsb (containsError (error_Error err))
                [ "connection reset"; "connection refused"; "timeout";
                  "temporary failure"; "network is unreachable";
                  "no route to host"; "broken pipe";
                  "context deadline exceeded" ] = true ->
              existsb (Worker.containsErrorSubstring (error_Error err))
                [ "connection reset"; "connection refused"; "timeout";
                  "temporary failure"; "network is unreachable";
                  "no route to host"; "broken pipe";
                  "context deadline exceeded"; "EOF" ] = true).
  { rewrite !existsb_exists. intros (pattern & Hin & Hc).
    exists pattern. split.
    - simpl in *. tauto.
    - by apply containsErrorSubstring_occurs, containsError_occurs. }
  destruct err; try exact H. by destruct (Hnt e).
Qed.

Lemma recoverable_is_network_error_witness :
  Worker.isNetworkError
    (Wrap "segment 0 download failed: " (Plain "read: connection reset by peer"))
  = true.
Proof.
  apply (recoverable_is_network_error
           (Wrap "segment 0 download failed: "
              (Plain "read: connection reset by peer"))).
  - intros e. discriminate.
  - reflexivity.
Defined.

(** *** What a computation guarantees when it returns, and the errors it
    returns *)

Definition ensures {A} (Q : State -> Prop) (m : M A) : Prop :=
  forall s a s' evs, m s = (Ok a, s', evs) -> Q s'.


Lemma ensures_fail {A} Q e : ensures Q (@fail A e).
Proof. by intros s a s' evs [=]. Qed.

Lemma ensures_panic {A} Q : ensures Q (@panic A).
Proof. by intros s a s' evs [=]. Qed.

Lemma ensures_bind {A B} Q (m : M A) (k : A -> M B) :
  (forall a, ensures Q (k a)) -> ensures Q (bind m k).
Proof.
  intros Hk s b s' evs H.
  apply bind_inv in H as [(a & s1 & e1 & e2 & _ & H2 & _)|(x & _ & [=])].
  by eapply Hk.
Qed.

Lemma emit_state ev s x s' evs : emit ev s = (x, s', evs) -> s' = s.
Proof. unfold emit. by intros [= _ <- _]. Qed.

Lemma ensures_defer_emit {A} Q ev (m : M A) :
  ensures Q m -> ensures Q (defer (emit ev) m).
Proof.
  intros Hm s a s' evs H.
  apply defer_inv in H as (s1 & e1 & x & e2 & Hb & Hc & _).
  apply emit_state in Hc as ->. by eapply Hm.
Qed.










Section Files.
Variable P : Platform.
Variable env : EngineEnv.



(** The part file is gone. *)
Definition part_renamed (partPath : string) (s : State) : Prop :=
  files s !! partPath = None.

Lemma rename_ensures partPath outputPath :
  partPath <> outputPath ->
  ensures (part_renamed partPath)
    (bind (on_files (fun fs => AtomicRename P fs partPath outputPath))
       (fun oe =>
          match oe with
          | Some e =>
              fail (Wrap "failed to rename part file to final file: " e)
          | None => emit (EvRename partPath outputPath)
          end)).
Proof.
  intros Hne s a s' evs H.
  apply bind_inv in H as [(oe & s1 & e1 & e2 & H1 & H2 & _)|(x & _ & [=])].
  unfold on_files in H1.
  destruct (AtomicRename P (files s) partPath outputPath) as [oe' fs'] eqn:Hr.
  injection H1 as <- <- _.
  destruct oe' as [e|]; [done|]. apply emit_state in H2 as ->.
  unfold part_renamed, AtomicRename, os_Rename in *. simpl.
  destruct (fault P OpRename partPath); [done|].
  destruct (files s !! partPath); [|done].
  injection Hr as <-.
  by rewrite lookup_insert_ne, lookup_delete_eq.
Qed.

Lemma executeDownload_ensures k meta segments outputPath partPath config :
  partPath <> outputPath ->
  ensures (part_renamed partPath)
    (executeDownload P env k meta segments outputPath partPath config).
Proof.
  intros Hne. unfold executeDownload.
  apply ensures_bind. intros [e|]; [apply ensures_fail|].
  apply ensures_defer_emit. apply ensures_bind.
  intros [e|]; [apply ensures_fail|].
  destruct (_ <? 0); [apply ensures_panic|].
  apply ensures_defer_emit.
  apply ensures_bind. intros _. apply ensures_bind. intros _.
  apply ensures_bind. intros _. by apply rename_ensures.
Qed.

Lemma executeDownloadWithRetry_loop_ensures outputPath partPath meta config
    fuel :
  partPath <> outputPath ->
  forall attempt segments,
    ensures (part_renamed partPath)
      (executeDownloadWithRetry_loop P env fuel attempt meta segments
         outputPath partPath config).
Proof.
  intros Hne. induction fuel as [|fuel IH]; intros attempt segments; simpl.
  { apply ensures_fail. }
  destruct (attempt <? 3); simpl; [|apply ensures_fail].
  intros s a s' evs H.
  apply bind_inv in H as [(r & s1 & e1 & e2 & H1 & H2 & _)|(x & _ & [=])].
  apply try_inv in H1 as [(u & Hx & [= ->])|[(e & Hx & [= ->])|(_ & [=])]].
  - injection H2 as _ <- _. by eapply executeDownload_ensures.
  - destruct (isRecoverableError e); simpl in H2; [|done].
    revert H2. apply ensures_bind. intros segs. apply IH.
Qed.

Lemma append_ne (s t : string) : t <> "" -> s +:+ t <> s.
Proof.
  intros Ht H. apply (f_equal String.length) in H.
  rewrite length_append in H. destruct t; [done|]. simpl in H. lia.
Qed.

Lemma CleanupResumeMetadata_files fs outputPath :
  let metadataPath := outputPath +:+ ResumeMetadataExt in
  let fs' := snd (CleanupResumeMetadata P fs outputPath) in
  (forall path, path <> metadataPath -> fs' !! path = fs !! path) /\
  (fault P OpRemove metadataPath = None -> fs' !! metadataPath = None).
Proof.
  intros metadataPath fs'. subst fs'.
  unfold CleanupResumeMetadata, os_Remove. fold metadataPath.
  destruct (fault P OpRemove metadataPath) as [e|].
  { split; [|done]. intros path _. by destruct (negb (IsNotExist e)). }
  destruct (fs !! metadataPath) eqn:Hm; simpl.
  - split; [|intros _; apply lookup_delete_eq].
    intros path Hne. by rewrite lookup_delete_ne.
  - split; [done|]. done.
Qed.

(** The files a finished download leaves. *)
Definition download_done (meta : FileMetadata) (outputPath : string)
    (s : State) : Prop :=
  (exists data,
     files s !! outputPath = Some data /\
     Z.of_nat (length data) = Size meta) /\
  files s !! (outputPath +:+ ".part") = None /\
  (fault P OpRemove (outputPath +:+ ResumeMetadataExt) = None ->
   files s !! (outputPath +:+ ResumeMetadataExt) = None).

Lemma download_and_finish_ensures meta segments outputPath config :
  ensures (download_done meta outputPath)
    (download_and_finish P env meta segments outputPath
       (outputPath +:+ ".part") config).
Proof.
  intros s a s' evs H. unfold download_and_finish in H.
  apply bind_inv in H as [(r & s1 & e1 & e2 & H1 & H2 & _)|(x & _ & [=])].
  apply try_inv in H1 as [(u & Hx & [= ->])|[(e & Hx & [= ->])|(_ & [=])]];
    [|done].
  assert (Hpart : part_renamed (outputPath +:+ ".part") s1).
  { revert Hx. apply executeDownloadWithRetry_loop_ensures.
    by apply append_ne. }
  apply bind_inv in H2 as [(r2 & s2 & e3 & e4 & H3 & H4 & _)|(x & _ & [=])].
  apply try_inv in H3 as [(u2 & Hv & [= ->])|[(e & Hv & [= ->])|(_ & [=])]];
    [|done].
  unfold verifyFileIntegrity in Hv.
  apply bind_inv in Hv as [(u3 & s3 & e5 & e6 & Hv1 & Hv2 & _)|(x & _ & [=])].
  apply emit_state in Hv1 as ->.
  apply bind_inv in Hv2 as [(sz & s4 & e7 & e8 & Hv3 & Hv4 & _)|(x & _ & [=])].
  injection Hv3 as <- <- _.
  destruct (GetFileSize P (files s1) outputPath) as [actual|e] eqn:Hsize;
    [|done].
  destruct (Z.eqb_spec actual (Size meta)) as [->|Hne]; simpl in Hv4; [|done].
  injection Hv4 as _ <- _.
  apply bind_inv in H4 as [(u4 & s5 & e9 & e10 & H5 & H6 & _)|(x & _ & [=])].
  apply emit_state in H5 as ->.
  apply bind_inv in H6 as [(oe & s6 & e11 & e12 & H7 & H8 & _)|(x & _ & [=])].
  injection H8 as _ <- _. unfold on_files in H7.
  pose proof (CleanupResumeMetadata_files (files s1) outputPath) as [Hsame Hgone].
  destruct (CleanupResumeMetadata P (files s1) outputPath) as [oe' fs'].
  injection H7 as _ <- _. simpl in *.
  unfold GetFileSize, os_Stat in Hsize.
  destruct (fault P OpStat outputPath); [done|].
  destruct (files s1 !! outputPath) as [data|] eqn:Hout; [|done].
  injection Hsize as Hlen.
  split; [|split; [|done]].
  - exists data. rewrite Hsame; [done|].
    intros Heq. symmetry in Heq. by apply append_ne in Heq.
  - rewrite Hsame; [done|]. apply DiskMore.metadata_not_part.
Qed.

Lemma Download_ensures meta config :
  ensures
    (download_done meta
       (if String.eqb (OutputPath config) "" then Filename meta
        else OutputPath config))
    (Download P env (Some meta) (Some config)).
Proof.
  unfold Download.
  set (outputPath := if String.eqb (OutputPath config) "" then Filename meta
                     else OutputPath config).
  destruct (EnsureDir P outputPath); [apply ensures_fail|].
  apply ensures_bind. intros [resumeData config'].
  apply ensures_bind. intros segments.
  apply ensures_bind. intros [e|]; [apply ensures_fail|].
  apply ensures_bind. intros now1. apply ensures_bind. intros now2.
  apply ensures_bind. intros [e|]; [apply ensures_fail|].
  apply download_and_finish_ensures.
Qed.

End Files.


(** X21. When [Download] returns without error, the output file exists
    with exactly [meta.Size] bytes and the part file [<output>.part] is
    gone, on any platform; the resume metadata is gone as well unless
    removing it failed. *)
Theorem Download_success_files (P : Platform) (env : EngineEnv)
    (meta : FileMetadata) (config : DownloadConfig) (s s' : State)
    (evs : list Event) :
  Download P env (Some meta) (Some config) s = (Ok tt, s', evs) ->
  let outputPath :=
    if String.eqb (OutputPath config) "" then Filename meta
    else OutputPath config in
  (exists data,
     files s' !! outputPath = Some data /\
     Z.of_nat (length data) = Size meta) /\
  files s' !! (outputPath +:+ ".part") = None /\
  (fault P OpRemove (outputPath +:+ ResumeMetadataExt) = None ->
   files s' !! (outputPath +:+ ResumeMetadataExt) = None).
Proof.
  intros H. by apply Download_ensures in H.
Qed.

Lemma Download_success_files_witness :
  (exists data,
     files (snd (fst run_one)) !! "a.bin" = Some data /\
     Z.of_nat (length data) = 10) /\
  files (snd (fst run_one)) !! ("a.bin" +:+ ".part") = None /\
  (fault Reference.platform OpRemove ("a.bin" +:+ ResumeMetadataExt) = None ->
   files (snd (fst run_one)) !! ("a.bin" +:+ ResumeMetadataExt) = None).
Proof.
  apply (Download_success_files Reference.platform env_one meta_ten config_one
           (mkState ∅ 0) (snd (fst run_one)) (snd run_one)).
  vm_compute. reflexivity.
Defined.



(** *** Worker pools are joined *)

Definition not_start (ev : Event) : Prop :=
  match ev with
  | EvPoolStart _ => False
  | _ => True
  end.

Definition all_m {A} (Q : Event -> Prop) (m : M A) : Prop :=
  forall s, Forall Q (snd (m s)).

Lemma all_ret {A} Q (a : A) : all_m Q (ret a).
Proof. intros s. constructor. Qed.

Lemma all_fail {A} Q e : all_m Q (@fail A e).
Proof. intros s. constructor. Qed.

Lemma all_panic {A} Q : all_m Q (@panic A).
Proof. intros s. constructor. Qed.

Lemma all_on_files {A} Q (f : _ -> A * _) : all_m Q (on_files f).
Proof. intros s. unfold on_files. destruct (f (files s)). constructor. Qed.

Lemma all_read_files {A} Q (f : _ -> A) : all_m Q (read_files f).
Proof. intros s. constructor. Qed.

Lemma all_now Q env : all_m Q (now env).
Proof. intros s. constructor. Qed.

Lemma all_emit (Q : Event -> Prop) ev : Q ev -> all_m Q (emit ev).
Proof. intros H s. by repeat constructor. Qed.

Lemma all_bind {A B} Q (m : M A) (k : A -> M B) :
  all_m Q m -> (forall a, all_m Q (k a)) -> all_m Q (bind m k).
Proof.
  intros Hm Hk s. unfold bind. specialize (Hm s).
  destruct (m s) as [[[a|x] s1] e1]; simpl in *; [|done].
  specialize (Hk a s1). destruct (k a s1) as [[r2 s2] e2]; simpl in *.
  by apply Forall_app.
Qed.

Lemma all_try {A} Q (m : M A) : all_m Q m -> all_m Q (try m).
Proof.
  intros Hm s. unfold try. specialize (Hm s).
  by destruct (m s) as [[[a|[e|]] s1] e1].
Qed.

(** Every pool that was started is joined, and its part file closed, before
    anything else is started. *)
Definition joined (evs : list Event) : Prop :=
  forall k, In (EvPoolStart k) evs ->
    0 <= k < 3 /\
    exists pre mid post,
      evs = pre ++ EvPoolStart k :: mid ++ EvJoin k :: EvClosePart k :: post /\
      Forall not_start mid.

Definition joined_m {A} (m : M A) : Prop := forall s, joined (snd (m s)).

Lemma joined_not_start evs : Forall not_start evs -> joined evs.
Proof.
  intros H k Hin. rewrite Forall_forall in H.
  apply list_elem_of_In, H in Hin. done.
Qed.

Lemma joined_app a b : joined a -> joined b -> joined (a ++ b).
Proof.
  intros Ha Hb k Hin. apply in_app_iff in Hin as [Hin|Hin].
  - destruct (Ha k Hin) as (Hk & pre & mid & post & -> & Hmid).
    split; [done|]. exists pre, mid, (post ++ b). split; [|done].
    rewrite <- app_assoc. simpl. by rewrite <- app_assoc.
  - destruct (Hb k Hin) as (Hk & pre & mid & post & -> & Hmid).
    split; [done|]. exists (a ++ pre), mid, post. split; [|done].
    by rewrite <- app_assoc.
Qed.

Lemma joined_of_all {A} (m : M A) : all_m not_start m -> joined_m m.
Proof. intros H s. apply joined_not_start, H. Qed.

Lemma joined_bind {A B} (m : M A) (k : A -> M B) :
  joined_m m -> (forall a, joined_m (k a)) -> joined_m (bind m k).
Proof.
  intros Hm Hk s. unfold bind. specialize (Hm s).
  destruct (m s) as [[[a|x] s1] e1]; simpl in *; [|done].
  specialize (Hk a s1). destruct (k a s1) as [[r2 s2] e2]; simpl in *.
  by apply joined_app.
Qed.

Lemma joined_try {A} (m : M A) : joined_m m -> joined_m (try m).
Proof.
  intros Hm s. unfold try. specialize (Hm s).
  by destruct (m s) as [[[a|[e|]] s1] e1].
Qed.

Lemma joined_pool k mid :
  0 <= k < 3 -> Forall not_start mid ->
  joined (EvPoolStart k :: mid ++ [EvJoin k; EvClosePart k]).
Proof.
  intros Hk Hmid j Hin.
  assert (j = k) as ->.
  { destruct Hin as [[= <-]|Hin]; [done|].
    apply in_app_iff in Hin as [Hin|Hin].
    - rewrite Forall_forall in Hmid. apply list_elem_of_In, Hmid in Hin. done.
    - destruct Hin as [?|[?|[]]]; done. }
  split; [done|]. exists [], mid, []. done.
Qed.

Section Pools.
Variable P : Platform.
Variable env : EngineEnv.

Lemma process_results_all k outputPath results : forall c x,
  all_m not_start (process_results P env k outputPath results c x).
Proof.
  induction results as [|res rest IH]; intros c x; simpl.
  { apply all_ret. }
  destruct (Worker.RError res).
  { apply all_bind; [by apply all_emit | intros; apply all_fail]. }
  apply all_bind.
  - destruct (Worker.RCompleted res); [|apply all_ret].
    apply all_bind; [apply all_now|]. intros t.
    apply all_bind; [apply all_on_files|]. intros _. apply all_ret.
  - intros a. destruct (a >=? x); [apply all_ret | apply IH].
Qed.

Lemma executeDownload_joined k meta segments outputPath partPath config :
  0 <= k < 3 ->
  joined_m (executeDownload P env k meta segments outputPath partPath config).
Proof.
  intros Hk s.
  unfold executeDownload, bind at 1, on_files at 1.
  destruct (os_OpenFile P (files s) partPath true false) as [oe fs1].
  destruct oe as [e|]; [apply joined_not_start; constructor|].
  unfold defer at 1, bind at 1, on_files at 1. cbv beta iota.
  destruct (File_Truncate P _ partPath (Size meta)) as [oe fs2].
  cbv beta iota. cbn [files ticks].
  destruct oe as [e|]; [apply joined_not_start; by repeat constructor|].
  destruct (mul64 (Threads config) 2 <? 0);
    [apply joined_not_start; by repeat constructor|].
  unfold defer at 1.
  set (body := bind (emit (EvPoolStart k)) _).
  assert (Hbody : forall s0, exists mid,
            snd (body s0) = EvPoolStart k :: mid /\ Forall not_start mid).
  { intros s0. unfold body, bind at 1. cbn [emit].
    match goal with
    | |- context [bind (pool_writes ?e ?j ?p) ?f s0] =>
        set (rest := bind (pool_writes e j p) f)
    end.
    assert (Hrest : all_m not_start rest).
    { unfold rest. apply all_bind; [apply all_on_files|]. intros _.
      apply all_bind; [apply process_results_all|]. intros _.
      apply all_bind; [apply all_on_files|].
      intros [e|]; [apply all_fail | by apply all_emit]. }
    specialize (Hrest s0). destruct (rest s0) as [[r s3] e3].
    exists e3. done. }
  specialize (Hbody (mkState fs2 (ticks s))).
  destruct (body _) as [[r3 s3] e3]. cbn.
  destruct Hbody as (mid & Heq & Hmid). simpl in Heq. subst e3.
  rewrite <- !app_assoc. simpl. by apply joined_pool.
Qed.

Lemma executeDownloadWithRetry_loop_joined outputPath partPath meta config
    fuel : forall attempt segments,
  0 <= attempt ->
  joined_m (executeDownloadWithRetry_loop P env fuel attempt meta segments
              outputPath partPath config).
Proof.
  induction fuel as [|fuel IH]; intros attempt segments Ha; simpl.
  { apply joined_of_all, all_fail. }
  destruct (Z.ltb_spec attempt 3); simpl; [|apply joined_of_all, all_fail].
  apply joined_bind.
  { apply joined_try. apply executeDownload_joined. lia. }
  intros [u|err]; [apply joined_of_all, all_ret|].
  destruct (isRecoverableError err); simpl; [|apply joined_of_all, all_fail].
  apply joined_bind.
  { apply joined_of_all. destruct (attempt <? 3 - 1); [|apply all_ret].
    apply all_bind; [apply all_read_files|]. intros r. apply all_ret. }
  intros segs.
  assert (Hadd : add64 attempt 1 = attempt + 1).
  { apply wrap64_id. unfold in_int64, min_int64, max_int64. lia. }
  rewrite Hadd. apply IH. lia.
Qed.

Lemma detect_resume_all meta config outputPath :
  all_m not_start (detect_resume P env meta config outputPath).
Proof.
  unfold detect_resume.
  apply all_bind; [apply all_on_files|]. intros d.
  apply all_bind.
  { destruct d; (apply all_ret || apply all_panic). }
  intros [r|]; [|apply all_ret].
  apply all_bind; [apply all_now|]. intros t.
  destruct (ValidateResumeCompatibility r meta t); [|apply all_ret].
  apply all_bind; [apply all_on_files|]. intros _.
  apply all_bind; [apply all_on_files|]. intros _. apply all_ret.
Qed.

Lemma download_and_finish_joined meta segments outputPath partPath config :
  joined_m (download_and_finish P env meta segments outputPath partPath config).
Proof.
  unfold download_and_finish. apply joined_bind.
  { apply joined_try. unfold executeDownloadWithRetry.
    by apply executeDownloadWithRetry_loop_joined. }
  intros [u|e]; [|apply joined_of_all, all_fail].
  apply joined_of_all. apply all_bind.
  { apply all_try. unfold verifyFileIntegrity.
    apply all_bind; [by apply all_emit|]. intros _.
    apply all_bind; [apply all_read_files|].
    intros [actual|e]; [|apply all_fail].
    destruct (negb _); [apply all_fail | apply all_ret]. }
  intros [u2|e]; [|apply all_fail].
  apply all_bind; [by apply all_emit|]. intros _.
  apply all_bind; [apply all_on_files|]. intros _. apply all_ret.
Qed.

Lemma Download_joined meta config : joined_m (Download P env meta config).
Proof.
  unfold Download.
  destruct meta as [meta|]; [|apply joined_of_all, all_fail].
  destruct config as [config|]; [|apply joined_of_all, all_fail].
  set (outputPath := if String.eqb (OutputPath config) "" then Filename meta
                     else OutputPath config).
  destruct (EnsureDir P outputPath); [apply joined_of_all, all_fail|].
  apply joined_bind; [apply joined_of_all, detect_resume_all|].
  intros [resumeData config'].
  apply joined_bind.
  { apply joined_of_all. destruct resumeData; [apply all_ret|].
    destruct (PlanDownload _ _ _); [apply all_ret | apply all_fail]. }
  intros segments.
  apply joined_bind.
  { apply joined_of_all.
    destruct resumeData; [apply all_read_files | apply all_on_files]. }
  intros [e|]; [apply joined_of_all, all_fail|].
  apply joined_bind; [apply joined_of_all, all_now|]. intros now1.
  apply joined_bind; [apply joined_of_all, all_now|]. intros now2.
  apply joined_bind; [apply joined_of_all, all_on_files|].
  intros [e|]; [apply joined_of_all, all_fail|].
  apply download_and_finish_joined.
Qed.

End Pools.

(** X22. However [Download] ends (success, error or panic), every worker
    pool it started was joined and its part file closed before the next
    pool was started or the download went on, and at most the three pools
    0, 1 and 2 of [executeDownloadWithRetry] are started: no pool is left
    running and no two pools run at once. *)
Theorem pools_are_joined (P : Platform) (env : EngineEnv)
    (meta : option FileMetadata) (config : option DownloadConfig)
    (s : State) (k : Z) :
  let evs := snd (Download P env meta config s) in
  In (EvPoolStart k) evs ->
  0 <= k < 3 /\
  exists pre mid post,
    evs = pre ++ EvPoolStart k :: mid ++ EvJoin k :: EvClosePart k :: post /\
    forall j, ~ In (EvPoolStart j) mid.
Proof.
  intros evs Hin.
  destruct (Download_joined P env meta config s k Hin)
    as (Hk & pre & mid & post & Heq & Hmid).
  split; [done|]. exists pre, mid, post. split; [done|].
  intros j Hj. rewrite Forall_forall in Hmid.
  apply list_elem_of_In, Hmid in Hj. done.
Qed.

Lemma pools_are_joined_witness :
  0 <= 0 < 3 /\
  exists pre mid post,
    snd run_one
      = pre ++ EvPoolStart 0 :: mid ++ EvJoin 0 :: EvClosePart 0 :: post /\
    forall j, ~ In (EvPoolStart j) mid.
Proof.
  apply (pools_are_joined Reference.platform env_one (Some meta_ten)
           (Some config_one) (mkState ∅ 0) 0).
  destruct run_one_events as [_ Hev]. unfold run_one in Hev.
  rewrite Hev. simpl. tauto.
Defined.

End EngineMore.

(** ** The application configuration and the error taxonomy *)

Module ConfigMore.
Import Config.

Section Env.
Variable os_Getenv : string -> string.
Variable strconv_Atoi : string -> result error Z.

(** What [LoadFromEnv] makes of each field it may change. *)
Definition threads_of (old : Z) : Z :=
  if negb (String.eqb (os_Getenv "TERAFETCH_THREADS") "") then
    match strconv_Atoi (os_Getenv "TERAFETCH_THREADS") with
    | Ok t => if (t >? 0) && (t <=? 32) then t else old
    | Err _ => old
    end
  else old.

Definition timeout_of (old : Z) : Z :=
  if negb (String.eqb (os_Getenv "TERAFETCH_TIMEOUT") "") then
    match strconv_Atoi (os_Getenv "TERAFETCH_TIMEOUT") with
    | Ok t => if t >? 0 then t else old
    | Err _ => old
    end
  else old.

Definition string_of (key : string) (old : string) : string :=
  if negb (String.eqb (os_Getenv key) "") then os_Getenv key else old.

Definition flag_of (key : string) (old : bool) : bool :=
  if negb (String.eqb (os_Getenv key) "")
  then String.eqb (os_Getenv key) "true" || String.eqb (os_Getenv key) "1"
  else old.

Lemma LoadFromEnv_fields (c : Config) :
  LoadFromEnv os_Getenv strconv_Atoi c =
    mkConfig (threads_of (DefaultThreads c)) (timeout_of (DefaultTimeout c))
      (MaxRetries c) (UserAgentList c) (AllowedDomains c)
      (string_of "TERAFETCH_LOG_LEVEL" (LogLevel c))
      (flag_of "TERAFETCH_DEBUG" (EnableDebug c))
      (flag_of "TERAFETCH_QUIET" (QuietMode c))
      (string_of "TERAFETCH_LOG_FILE" (LogFile c)).
Proof.
  destruct c as [th tmo mr ua ad ll dbg q lf].
  unfold threads_of, timeout_of, string_of, flag_of.
  cbv beta delta [LoadFromEnv].
  destruct (negb (String.eqb (os_Getenv "TERAFETCH_THREADS") "")).
  all: destruct (strconv_Atoi (os_Getenv "TERAFETCH_THREADS")) as [t1|e1].
  all: cbv beta iota.
  all: try destruct ((t1 >? 0) && (t1 <=? 32)).
  all: destruct (negb (String.eqb (os_Getenv "TERAFETCH_TIMEOUT") "")).
  all: destruct (strconv_Atoi (os_Getenv "TERAFETCH_TIMEOUT")) as [t2|e2].
  all: cbv beta iota.
  all: try destruct (t2 >? 0).
  all: destruct (negb (String.eqb (os_Getenv "TERAFETCH_LOG_LEVEL") "")).
  all: destruct (negb (String.eqb (os_Getenv "TERAFETCH_DEBUG") "")).
  all: destruct (negb (String.eqb (os_Getenv "TERAFETCH_QUIET") "")).
  all: destruct (negb (String.eqb (os_Getenv "TERAFETCH_LOG_FILE") "")).
  all: reflexivity.
Qed.

Lemma threads_of_range old : 1 <= old <= 32 -> 1 <= threads_of old <= 32.
Proof.
  intros H. unfold threads_of. destruct (negb _); [|done].
  destruct (strconv_Atoi _) as [t|e]; [|done].
  destruct (Z.gtb_spec t 0); [|done]. destruct (Z.leb_spec t 32); simpl; lia.
Qed.

Lemma timeout_of_range old : 1 <= old -> 1 <= timeout_of old.
Proof.
  intros H. unfold timeout_of. destruct (negb _); [|done].
  destruct (strconv_Atoi _) as [t|e]; [|done].
  destruct (Z.gtb_spec t 0); lia.
Qed.

Lemma threads_of_idem old : threads_of (threads_of old) = threads_of old.
Proof.
  unfold threads_of. destruct (negb _); [|done].
  destruct (strconv_Atoi _) as [t|e]; [|done]. by destruct (_ && _).
Qed.

Lemma timeout_of_idem old : timeout_of (timeout_of old) = timeout_of old.
Proof.
  unfold timeout_of. destruct (negb _); [|done].
  destruct (strconv_Atoi _) as [t|e]; [|done]. by destruct (_ >? _).
Qed.

Lemma string_of_idem key old : string_of key (string_of key old) = string_of key old.
Proof. unfold string_of. by destruct (negb _). Qed.

Lemma flag_of_idem key old : flag_of key (flag_of key old) = flag_of key old.
Proof. unfold flag_of. by destruct (negb _). Qed.

End Env.

(** X23. The environment cannot make a configuration invalid: whatever the
    variables hold and whatever [strconv.Atoi] makes of them, [LoadFromEnv]
    keeps a configuration that [ValidateConfig] accepts acceptable (a
    thread count outside 1..32 or a timeout below 1 is ignored).  It never
    changes the retry count or the two lists, and loading a second time
    changes nothing. *)
Theorem LoadFromEnv_keeps_valid (os_Getenv : string -> string)
    (strconv_Atoi : string -> result error Z) (c : Config) :
  let c' := LoadFromEnv os_Getenv strconv_Atoi c in
  (ValidateConfig c = None -> ValidateConfig c' = None) /\
  MaxRetries c' = MaxRetries c /\
  UserAgentList c' = UserAgentList c /\
  AllowedDomains c' = AllowedDomains c /\
  LoadFromEnv os_Getenv strconv_Atoi c' = c'.
Proof.
  intros c'. subst c'. rewrite !LoadFromEnv_fields.
  cbn [DefaultThreads DefaultTimeout MaxRetries UserAgentList AllowedDomains
       LogLevel EnableDebug QuietMode LogFile].
  split; [|split; [done|split; [done|split; [done|]]]].
  - unfold ValidateConfig.
    cbn [DefaultThreads DefaultTimeout MaxRetries UserAgentList
         AllowedDomains].
    destruct (Z.ltb_spec (DefaultThreads c) 1); [done|].
    destruct (Z.gtb_spec (DefaultThreads c) 32); [done|]. cbn [orb].
    destruct (Z.ltb_spec (DefaultTimeout c) 1); [done|].
    destruct (MaxRetries c <? 0); [done|].
    destruct (length (UserAgentList c) =? 0)%nat; [done|].
    destruct (length (AllowedDomains c) =? 0)%nat; [done|]. intros _.
    pose proof (threads_of_range os_Getenv strconv_Atoi (DefaultThreads c)
                  ltac:(lia)) as Ht.
    pose proof (timeout_of_range os_Getenv strconv_Atoi (DefaultTimeout c)
                  ltac:(lia)) as Hto.
    destruct (Z.ltb_spec (threads_of os_Getenv strconv_Atoi (DefaultThreads c))
                1); [lia|].
    destruct (Z.gtb_spec (threads_of os_Getenv strconv_Atoi (DefaultThreads c))
                32); [lia|]. cbn [orb].
    destruct (Z.ltb_spec (timeout_of os_Getenv strconv_Atoi (DefaultTimeout c))
                1); [lia|done].
  - by rewrite threads_of_idem, timeout_of_idem, !string_of_idem,
      !flag_of_idem.
Qed.

Lemma LoadFromEnv_keeps_valid_witness :
  ValidateConfig
    (LoadFromEnv (fun _ => "64") (fun _ => Ok 64) DefaultConfig) = None.
Proof.
  apply (LoadFromEnv_keeps_valid (fun _ => "64") (fun _ => Ok 64)
           DefaultConfig).
  reflexivity.
Defined.

End ConfigMore.

Module ErrorsMore.

(** X24. An error built by [NewTeraboxError] that [IsRetryable] accepts is
    never critical: the retryable kinds (rate limit, network timeout, and an
    invalid response with a code of 500 or more) have severity warning or
    error.  [WithSuggestion], [WithURL] and [WithRetryAfter] change neither
    answer, so this holds for the errors of every constructor of the
    package. *)
Theorem retryable_is_not_critical (code : Z) (message : string)
    (errorType : ErrorType) (suggestion url : string) (seconds : Z) :
  let e := NewTeraboxError code message errorType in
  let e' := WithRetryAfter (WithURL (WithSuggestion e suggestion) url) seconds in
  (IsRetryable e = true -> IsCritical e = false) /\
  IsRetryable e' = IsRetryable e /\
  IsCritical e' = IsCritical e /\
  (IsCritical e = true <->
   errorType = ErrQuotaExceeded \/ errorType = ErrPermissionDenied \/
   errorType = ErrDiskSpace).
Proof.
  intros e e'. subst e e'. unfold IsRetryable, IsCritical. simpl.
  split; [by destruct errorType|]. split; [done|]. split; [done|].
  destruct errorType; simpl; split; try done; try tauto;
    intros [H|[H|H]]; discriminate H.
Qed.

Lemma retryable_is_not_critical_witness :
  IsCritical (NewTeraboxError 503 "Server error" ErrInvalidResponse) = false.
Proof.
  exact (proj1 (retryable_is_not_critical 503 "Server error"
                  ErrInvalidResponse "" "" 0) eq_refl).
Defined.

End ErrorsMore.

(** ** The back-off delay is capped *)

Module DelayMore.
Import Binary64 HTTP.
Import SpecFloat FloatOps.

Lemma canonical_exponent (m : positive) (e : Z) :
  bounded prec emax m e = true ->
  -1074 <= e /\ (-1074 < e -> 2 ^ 52 <= Z.pos m).
Proof.
  intros Hb. unfold bounded in Hb. apply andb_true_iff in Hb as [Hc _].
  unfold canonical_mantissa in Hc. apply Z.eqb_eq in Hc.
  rewrite fexp_eq in Hc.
  pose proof (digits2_pos_bounds m) as [Hlo _].
  split; [lia|]. intros He.
  assert (Z.pos (digits2_pos m) = 53) as Hd by lia.
  rewrite Hd in Hlo. exact Hlo.
Qed.

Lemma SFltb_false_le (mM : positive) (eM : Z) (m : positive) (e : Z) :
  bounded prec emax mM eM = true -> bounded prec emax m e = true ->
  SFltb (S754_finite false mM eM) (S754_finite false m e) = false ->
  e <= eM /\ Z.pos m <= Z.pos mM * 2 ^ (eM - e).
Proof.
  intros HbM Hb. unfold SFltb, SFcompare.
  destruct (Z.compare_spec eM e) as [->|Hlt|Hgt]; [|done|].
  - change (PosDef.Pos.compare_cont Eq mM m) with (Pos.compare mM m).
    destruct (Pos.compare_spec mM m) as [->|Hlt|Hgt]; [|done|]; intros _;
      rewrite Z.sub_diag; simpl; lia.
  - intros _. split; [lia|].
    destruct (canonical_exponent _ _ HbM) as [_ HM].
    destruct (canonical_exponent _ _ Hb) as [He _].
    pose proof (bounded_digits _ _ Hb) as Hm.
    specialize (HM ltac:(lia)).
    assert (2 ^ 1 <= 2 ^ (eM - e)) by (apply Z.pow_le_mono_r; lia).
    nia.
Qed.

Lemma int64_of_float64_of_int (n : Z) :
  0 <= n < 2 ^ 53 -> int64_of_float64 (float64_of_int n) = n.
Proof.
  intros Hn. destruct (Z.eq_dec n 0) as [->|Hne]; [reflexivity|].
  destruct (float64_of_int_exact n ltac:(lia)) as (m & e & Hsf & _ & He & Hm).
  unfold int64_of_float64. rewrite Hsf. cbv zeta.
  assert (Hv : Z.shiftl (Z.pos m) e = n).
  { rewrite <- (Z.opp_involutive e) at 1. rewrite Z.shiftl_opp_r.
    rewrite Z.shiftr_div_pow2 by lia. rewrite Hm.
    apply Z.div_mul. apply Z.pow_nonzero; lia. }
  rewrite Hv.
  destruct (Z.leb_spec min_int64 n); [|unfold min_int64 in *; lia].
  destruct (Z.leb_spec n max_int64); [done|unfold max_int64 in *; lia].
Qed.

Lemma float64_of_int_ltb_zero (n : Z) :
  0 <= n < 2 ^ 53 -> (float64_of_int n <? 0)%float = false.
Proof.
  intros Hn. rewrite FloatAxioms.ltb_spec, Prim2SF_zero.
  destruct (Z.eq_dec n 0) as [->|Hne]; [reflexivity|].
  destruct (float64_of_int_exact n ltac:(lia)) as (m & e & -> & _).
  reflexivity.
Qed.

Lemma int64_of_float64_below (M : Z) (d : float64) :
  0 <= M < 2 ^ 53 ->
  (float64_of_int M <? d)%float = false -> (d <? 0)%float = false ->
  let r := int64_of_float64 d in
  (0 <= r <= M) \/ r = min_int64.
Proof.
  intros HM Hlt Hneg. rewrite FloatAxioms.ltb_spec in Hlt, Hneg.
  rewrite Prim2SF_zero in Hneg.
  pose proof (FloatAxioms.Prim2SF_valid d) as Hvalid.
  unfold int64_of_float64.
  destruct (Prim2SF d) as [s|s| |s m e] eqn:Hd; cbv zeta.
  - left. lia.
  - by right.
  - by right.
  - destruct s; [done|].
    destruct (Z.eq_dec M 0) as [->|Hne].
    { exfalso. revert Hlt.
      change (Prim2SF (float64_of_int 0)) with (S754_zero false). done. }
    destruct (float64_of_int_exact M ltac:(lia))
      as (mM & eM & HsM & HbM & HeM & HmM).
    rewrite HsM in Hlt. simpl in Hvalid.
    destruct (SFltb_false_le _ _ _ _ HbM Hvalid Hlt) as [He Hm].
    left.
    apply (int64_of_spec_le M mM eM (S754_finite false m e));
      [lia|by left|done].
Qed.

(** X25. The back-off delay never exceeds the larger of [MaxDelay] and
    [BaseDelay], for every attempt number, multiplier, jitter and random
    number: whatever the floating-point product is, the delay returned lies
    between 0 and that bound, or the conversion of a result that is not a
    number (or is out of range) gives the least [int64], a negative duration
    for which the sleep returns at once.  (Delays below [2^53] nanoseconds,
    about 104 days, which [float64] represents exactly.) *)
Theorem calculateDelay_capped (c : HTTPClient) (attempt : Z) (rnd : float64) :
  0 <= BaseDelay (retryConfig c) < 2 ^ 53 ->
  0 <= MaxDelay (retryConfig c) < 2 ^ 53 ->
  let d := calculateDelay c attempt rnd in
  (0 <= d <= Z.max (MaxDelay (retryConfig c)) (BaseDelay (retryConfig c))) \/
  d = min_int64.
Proof.
  intros HB HM. unfold calculateDelay. cbv zeta.
  set (d0 := (_ + _)%float).
  destruct (float64_of_int (MaxDelay (retryConfig c)) <? d0)%float eqn:Hcap.
  { rewrite float64_of_int_ltb_zero by done.
    rewrite int64_of_float64_of_int by done. left. lia. }
  destruct (d0 <? 0)%float eqn:Hneg.
  { rewrite int64_of_float64_of_int by done. left. lia. }
  destruct (int64_of_float64_below _ d0 HM Hcap Hneg) as [H|H];
    [left; lia | by right].
Qed.

Lemma calculateDelay_capped_witness :
  (0 <= calculateDelay NewHTTPClient 7 0.5%float
     <= Z.max (30 * Second) (1 * Second)) \/
  calculateDelay NewHTTPClient 7 0.5%float = min_int64.
Proof.
  apply (calculateDelay_capped NewHTTPClient 7 0.5%float).
  - simpl. unfold Second. lia.
  - simpl. unfold Second. lia.
Defined.

End DelayMore.
